(** * Teledisk (TD0) to ImageDisk converter: the decoder of td02imd_modern.c

    A shallow embedding of [src/reference/imd120sc/td02imd_modern.c]:
    the bit reader, the adaptive Huffman tree ([init_decompress], [update],
    [DecodeChar], [DecodePosition]), the LZSS state machine ([getbyte]) and
    the sector loop of [main], followed by the properties of the
    specification that were checked against them.

    Conventions.
    - [unsigned] is the 32-bit unsigned int of the platforms the port is
      written for; every arithmetic result is reduced with [u32].
      [unsigned char] results are reduced with [u8].
    - The global arrays are lists indexed by [Z] ([aget], [aset]).
    - The input file [fpi] is the list of bytes not yet read. *)

From Stdlib Require Import Strings.Byte String Ascii ZArith List Lia Bool.
Import ListNotations.
Local Open Scope Z_scope.

(** ** Machine integers *)

Definition u32 (x : Z) : Z := x mod 2 ^ 32.
Definition u8 (x : Z) : Z := x mod 256.
Definition byte_val (b : byte) : Z := Z.of_N (Byte.to_N b).

(** ** Arrays *)

(** A global C array is a list; [aget a i] is [a[i]] and [aset a i v] is
    [a[i] = v]. Outside the bounds (undefined behaviour in C) a read yields 0
    and a write is dropped; the functions that index an array with a value
    computed from input bits check the index first (see [result]). *)
Fixpoint aget (a : list Z) (i : Z) : Z :=
  match a with
  | [] => 0
  | x :: r => if i =? 0 then x else aget r (i - 1)
  end.

Fixpoint aset (a : list Z) (i v : Z) : list Z :=
  match a with
  | [] => []
  | x :: r => if i =? 0 then v :: r else x :: aset r (i - 1) v
  end.

(** [memmove(&a[dst], &a[src], n * sizeof a[0])]. *)
Fixpoint amove_at (orig a : list Z) (p dst src n : Z) : list Z :=
  match a with
  | [] => []
  | x :: r =>
      (if (dst <=? p) && (p <? dst + n) then aget orig (src + (p - dst)) else x)
        :: amove_at orig r (p + 1) dst src n
  end.

Definition amove (a : list Z) (dst src n : Z) : list Z := amove_at a a 0 dst src n.

Definition alen (a : list Z) : Z := Z.of_nat (length a).

(** ** Constants of the source *)

Definition SBSIZE : Z := 4096.
Definition LASIZE : Z := 60.
Definition THRESHOLD : Z := 2.
Definition N_CHAR : Z := 256 - THRESHOLD + LASIZE.
Definition TSIZE : Z := N_CHAR * 2 - 1.
Definition ROOT : Z := TSIZE - 1.
Definition MAX_FREQ : Z := 0x8000.
Definition SEC_NODAT : Z := 0x20.

(** [d_code[256]], row by row of the source: 32 entries 0x00, 16 entries
    each of 0x01 .. 0x03, 8 each of 0x04 .. 0x0B, 4 each of 0x0C .. 0x17,
    2 each of 0x18 .. 0x2F, and 0x30 .. 0x3F once. *)
Definition d_code : list Z :=
  repeat 0x00 32
  ++ flat_map (fun x => repeat x 16) [0x01; 0x02; 0x03]
  ++ flat_map (fun x => repeat x 8)
       [0x04; 0x05; 0x06; 0x07; 0x08; 0x09; 0x0A; 0x0B]
  ++ flat_map (fun x => repeat x 4)
       [0x0C; 0x0D; 0x0E; 0x0F; 0x10; 0x11; 0x12; 0x13; 0x14; 0x15; 0x16; 0x17]
  ++ flat_map (fun x => repeat x 2)
       [0x18; 0x19; 0x1A; 0x1B; 0x1C; 0x1D; 0x1E; 0x1F; 0x20; 0x21; 0x22; 0x23;
        0x24; 0x25; 0x26; 0x27; 0x28; 0x29; 0x2A; 0x2B; 0x2C; 0x2D; 0x2E; 0x2F]
  ++ [0x30; 0x31; 0x32; 0x33; 0x34; 0x35; 0x36; 0x37;
      0x38; 0x39; 0x3A; 0x3B; 0x3C; 0x3D; 0x3E; 0x3F].

Definition d_len : list Z := [2; 2; 3; 3; 3; 4; 4; 4; 4; 5; 5; 5; 6; 6; 6; 7].

(** ** Global state *)

(** The three arrays of the Huffman tree. *)
Record tree : Type := mkTree {
  parent : list Z;   (* unsigned parent[TSIZE+N_CHAR] *)
  son : list Z;      (* unsigned son[TSIZE] *)
  freq : list Z      (* unsigned freq[TSIZE+1] *)
}.

Record state : Type := mkState {
  huff : tree;
  Bits : Z;
  Bitbuff : Z;
  GBcheck : Z;
  GBr : Z;
  GBi : Z;
  GBj : Z;
  GBk : Z;
  GBstate : Z;
  Eof : Z;
  Advcomp : Z;
  ring_buff : list Z;   (* unsigned char ring_buff[SBSIZE+LASIZE-1] *)
  fpi : list byte;      (* bytes of the input file not yet read *)
  fpi_eof : bool        (* end-of-file indicator of fpi *)
}.

Definition set_huff (t : tree) (s : state) : state :=
  mkState t (Bits s) (Bitbuff s) (GBcheck s) (GBr s) (GBi s) (GBj s) (GBk s)
          (GBstate s) (Eof s) (Advcomp s) (ring_buff s) (fpi s) (fpi_eof s).
Definition set_Bits (v : Z) (s : state) : state :=
  mkState (huff s) v (Bitbuff s) (GBcheck s) (GBr s) (GBi s) (GBj s) (GBk s)
          (GBstate s) (Eof s) (Advcomp s) (ring_buff s) (fpi s) (fpi_eof s).
Definition set_Bitbuff (v : Z) (s : state) : state :=
  mkState (huff s) (Bits s) v (GBcheck s) (GBr s) (GBi s) (GBj s) (GBk s)
          (GBstate s) (Eof s) (Advcomp s) (ring_buff s) (fpi s) (fpi_eof s).
Definition set_GBcheck (v : Z) (s : state) : state :=
  mkState (huff s) (Bits s) (Bitbuff s) v (GBr s) (GBi s) (GBj s) (GBk s)
          (GBstate s) (Eof s) (Advcomp s) (ring_buff s) (fpi s) (fpi_eof s).
Definition set_GBr (v : Z) (s : state) : state :=
  mkState (huff s) (Bits s) (Bitbuff s) (GBcheck s) v (GBi s) (GBj s) (GBk s)
          (GBstate s) (Eof s) (Advcomp s) (ring_buff s) (fpi s) (fpi_eof s).
Definition set_GBi (v : Z) (s : state) : state :=
  mkState (huff s) (Bits s) (Bitbuff s) (GBcheck s) (GBr s) v (GBj s) (GBk s)
          (GBstate s) (Eof s) (Advcomp s) (ring_buff s) (fpi s) (fpi_eof s).
Definition set_GBj (v : Z) (s : state) : state :=
  mkState (huff s) (Bits s) (Bitbuff s) (GBcheck s) (GBr s) (GBi s) v (GBk s)
          (GBstate s) (Eof s) (Advcomp s) (ring_buff s) (fpi s) (fpi_eof s).
Definition set_GBk (v : Z) (s : state) : state :=
  mkState (huff s) (Bits s) (Bitbuff s) (GBcheck s) (GBr s) (GBi s) (GBj s) v
          (GBstate s) (Eof s) (Advcomp s) (ring_buff s) (fpi s) (fpi_eof s).
Definition set_GBstate (v : Z) (s : state) : state :=
  mkState (huff s) (Bits s) (Bitbuff s) (GBcheck s) (GBr s) (GBi s) (GBj s) (GBk s)
          v (Eof s) (Advcomp s) (ring_buff s) (fpi s) (fpi_eof s).
Definition set_Eof (v : Z) (s : state) : state :=
  mkState (huff s) (Bits s) (Bitbuff s) (GBcheck s) (GBr s) (GBi s) (GBj s) (GBk s)
          (GBstate s) v (Advcomp s) (ring_buff s) (fpi s) (fpi_eof s).
Definition set_Advcomp (v : Z) (s : state) : state :=
  mkState (huff s) (Bits s) (Bitbuff s) (GBcheck s) (GBr s) (GBi s) (GBj s) (GBk s)
          (GBstate s) (Eof s) v (ring_buff s) (fpi s) (fpi_eof s).
Definition set_ring_buff (v : list Z) (s : state) : state :=
  mkState (huff s) (Bits s) (Bitbuff s) (GBcheck s) (GBr s) (GBi s) (GBj s) (GBk s)
          (GBstate s) (Eof s) (Advcomp s) v (fpi s) (fpi_eof s).
Definition set_fpi (v : list byte) (e : bool) (s : state) : state :=
  mkState (huff s) (Bits s) (Bitbuff s) (GBcheck s) (GBr s) (GBi s) (GBj s) (GBk s)
          (GBstate s) (Eof s) (Advcomp s) (ring_buff s) v e.

(** The state of the program when [main] starts: every global is zero and
    the input file holds [input]. *)
Definition zero_tree : tree :=
  mkTree (repeat 0 (Z.to_nat (TSIZE + N_CHAR)))
         (repeat 0 (Z.to_nat TSIZE))
         (repeat 0 (Z.to_nat (TSIZE + 1))).

Definition initial_state (input : list byte) : state :=
  mkState zero_tree 0 0 0 0 0 0 0 0 0 0
          (repeat 0 (Z.to_nat (SBSIZE + LASIZE - 1))) input false.

(** ** The bit reader *)

(** [unsigned GetChar(void)]: [fgetc(fpi)], with end of file turned into
    the byte 0 and the flag [Eof = 255]. *)
Definition GetChar (s : state) : Z * state :=
  match fpi s with
  | b :: rest => (byte_val b, set_fpi rest (fpi_eof s) s)
  | [] => (0, set_Eof 255 (set_fpi [] true s))
  end.

(** [unsigned GetBit(void)]. *)
Definition GetBit (s : state) : Z * state :=
  let s1 :=
    if Bits s =? 0 then                         (* if(!Bits--) *)
      let (c, s') := GetChar s in
      set_Bits 7 (set_Bitbuff (Z.lor (Bitbuff s') (u32 (Z.shiftl c 8))) s')
    else set_Bits (Bits s - 1) s in
  let t := Z.shiftr (Bitbuff s1) 15 in
  (t, set_Bitbuff (u32 (Z.shiftl (Bitbuff s1) 1)) s1).

(** [unsigned GetByte(void)]. *)
Definition GetByte (s : state) : Z * state :=
  let s1 :=
    if Bits s <? 8 then
      let (c, s') := GetChar s in
      set_Bitbuff (Z.lor (Bitbuff s') (u32 (Z.shiftl c (8 - Bits s')))) s'
    else set_Bits (u32 (Bits s - 8)) s in
  let t := Z.shiftr (Bitbuff s1) 8 in
  (t, set_Bitbuff (u32 (Z.shiftl (Bitbuff s1) 8)) s1).

(** ** Results of the fallible functions *)

(** [Undefined]: the C program indexes an array outside its bounds here.
    [OutOfFuel]: the loop bound [fuel] of the model was too small. *)
Inductive result (A : Type) : Type :=
| Done (a : A)
| Undefined
| OutOfFuel.
Arguments Done {A} a.
Arguments Undefined {A}.
Arguments OutOfFuel {A}.

(** ** The adaptive Huffman tree *)

Definition set_parent (i v : Z) (t : tree) : tree :=
  mkTree (aset (parent t) i v) (son t) (freq t).
Definition set_son (i v : Z) (t : tree) : tree :=
  mkTree (parent t) (aset (son t) i v) (freq t).
Definition set_freq (i v : Z) (t : tree) : tree :=
  mkTree (parent t) (son t) (aset (freq t) i v).

(** First loop of [init_decompress]: [for(i = j = 0; i < N_CHAR; ++i)]. *)
Fixpoint init_leaves (n : nat) (i : Z) (t : tree) : tree :=
  match n with
  | O => t
  | S m =>
      init_leaves m (i + 1)
        (set_parent (i + TSIZE) i (set_son i (i + TSIZE) (set_freq i 1 t)))
  end.

(** Second loop of [init_decompress]: [while(i <= ROOT)], [n] iterations. *)
Fixpoint init_nodes (n : nat) (i j : Z) (t : tree) : tree :=
  match n with
  | O => t
  | S m =>
      let t1 := set_freq i (u32 (aget (freq t) j + aget (freq t) (j + 1))) t in
      let t2 := set_son i j t1 in
      let t3 := set_parent j i (set_parent (j + 1) i t2) in
      init_nodes m (i + 1) (j + 2) t3
  end.

Definition init_tree (t : tree) : tree :=
  let t1 := init_leaves (Z.to_nat N_CHAR) 0 t in
  let t2 := init_nodes (Z.to_nat (ROOT + 1 - N_CHAR)) N_CHAR 0 t1 in
  set_parent ROOT 0 (set_freq TSIZE 0xFFFF t2).

(** [void init_decompress(void)]. *)
Definition init_decompress (s : state) : state :=
  let s1 := set_huff (init_tree (huff s)) s in
  let s2 := set_ring_buff (map (fun _ => 32) (ring_buff s1)) s1 in
  let s3 := set_Advcomp (u8 0xFFFF) s2 in
  set_GBr (SBSIZE - LASIZE) (set_Bits 0 (set_Bitbuff 0 s3)).

(** *** [update]: the rebuild at [MAX_FREQ] *)

(** [for(i = j = 0; i < TSIZE; ++i) if(son[i] >= TSIZE) { ... ++j; }] *)
Fixpoint collect_leaves (n : nat) (i j : Z) (t : tree) : tree :=
  match n with
  | O => t
  | S m =>
      if TSIZE <=? aget (son t) i then
        let t1 := set_freq j (u32 (aget (freq t) i + 1) / 2) t in
        let t2 := set_son j (aget (son t1) i) t1 in
        collect_leaves m (i + 1) (j + 1) t2
      else collect_leaves m (i + 1) j t
  end.

(** [for(k = j - 1; f < freq[k]; --k);] started at [k]; the value of [k]
    when the loop ends. *)
Fixpoint scan_down (fuel : nat) (f k : Z) (fr : list Z) : option Z :=
  match fuel with
  | O => None
  | S m => if f <? aget fr k then scan_down m f (u32 (k - 1)) fr else Some k
  end.

(** [for(i = 0, j = N_CHAR; j < TSIZE; i += 2, ++j)], [n] iterations. *)
Fixpoint build_nodes (fuel : nat) (n : nat) (i j : Z) (t : tree) : option tree :=
  match n with
  | O => Some t
  | S m =>
      let f := u32 (aget (freq t) i + aget (freq t) (i + 1)) in
      let t1 := set_freq j f t in
      match scan_down fuel f (j - 1) (freq t1) with
      | None => None
      | Some k0 =>
          let k := u32 (k0 + 1) in
          let l := u32 (j - k) in
          let fr := aset (amove (freq t1) (k + 1) k l) k f in
          let sn := aset (amove (son t1) (k + 1) k l) k i in
          build_nodes fuel m (i + 2) (j + 1) (mkTree (parent t1) sn fr)
      end
  end.

(** [for(i = 0; i < TSIZE; ++i) if((k = son[i]) >= TSIZE) ... else ...] *)
Fixpoint link_parents (n : nat) (i : Z) (t : tree) : tree :=
  match n with
  | O => t
  | S m =>
      let k := aget (son t) i in
      if TSIZE <=? k then link_parents m (i + 1) (set_parent k i t)
      else link_parents m (i + 1) (set_parent k i (set_parent (k + 1) i t))
  end.

(** The body of [if(freq[ROOT] == MAX_FREQ) { ... }] in [update]. *)
Definition rebuild (fuel : nat) (t : tree) : option tree :=
  let t1 := collect_leaves (Z.to_nat TSIZE) 0 0 t in
  match build_nodes fuel (Z.to_nat (TSIZE - N_CHAR)) 0 N_CHAR t1 with
  | None => None
  | Some t2 => Some (link_parents (Z.to_nat TSIZE) 0 t2)
  end.

(** *** [update]: the frequency increment *)

(** [while(k > freq[++l]);] started with [l]; the value of [l] when the
    loop ends. *)
Fixpoint scan_up (fuel : nat) (k l : Z) (fr : list Z) : option Z :=
  match fuel with
  | O => None
  | S m =>
      let l1 := u32 (l + 1) in
      if k >? aget fr l1 then scan_up m k l1 fr else Some l1
  end.

(** The exchange of the nodes [c] and [l] inside [if(k > freq[l = c+1])],
    after the inner [while]; [l] is already decremented. *)
Definition exchange (c l k : Z) (t : tree) : tree :=
  let t1 := set_freq c (aget (freq t) l) t in
  let t2 := set_freq l k t1 in
  let i := aget (son t2) c in
  let t3 := set_parent i l t2 in
  let t4 := if i <? TSIZE then set_parent (i + 1) l t3 else t3 in
  let j := aget (son t4) l in
  let t5 := set_parent j c t4 in
  let t6 := set_son l i t5 in
  let t7 := if j <? TSIZE then set_parent (j + 1) c t6 else t6 in
  set_son c j t7.

(** One pass through the body of [do { ... } while(c = parent[c])]: the
    tree after the body and the node the body ends on. *)
Definition bump_node (fuel : nat) (c : Z) (t : tree) : option (Z * tree) :=
  let k := u32 (aget (freq t) c + 1) in
  let t1 := set_freq c k t in
  let l := u32 (c + 1) in
  if k >? aget (freq t1) l then
    match scan_up fuel k l (freq t1) with
    | None => None
    | Some l1 =>
        let l2 := u32 (l1 - 1) in
        Some (l2, exchange c l2 k t1)
    end
  else Some (c, t1).

(** [do { ... } while(c = parent[c]);] with at most [n] passes. *)
Fixpoint bump (fuel n : nat) (c : Z) (t : tree) : option tree :=
  match n with
  | O => None
  | S m =>
      match bump_node fuel c t with
      | None => None
      | Some (c1, t1) =>
          let c2 := aget (parent t1) c1 in
          if c2 =? 0 then Some t1 else bump fuel m c2 t1
      end
  end.

(** [void update(int c)]. *)
Definition update (fuel : nat) (c : Z) (t : tree) : option tree :=
  match (if aget (freq t) ROOT =? MAX_FREQ then rebuild fuel t else Some t) with
  | None => None
  | Some t1 => bump fuel fuel (aget (parent t1) (c + TSIZE)) t1
  end.

(** ** Decoding symbols and positions *)

(** [while((c = son[c]) < TSIZE) c += GetBit();] entered with [c]; the
    value of [c] when the loop ends. [son] has [TSIZE] entries. *)
Fixpoint DecodeChar_walk (fuel : nat) (c : Z) (s : state) : result (Z * state) :=
  match fuel with
  | O => OutOfFuel
  | S m =>
      if (c <? 0) || (TSIZE <=? c) then Undefined
      else
        let c1 := aget (son (huff s)) c in
        if c1 <? TSIZE then
          let (b, s1) := GetBit s in
          DecodeChar_walk m (u32 (c1 + b)) s1
        else Done (c1, s)
  end.

(** [unsigned DecodeChar(void)]. *)
Definition DecodeChar (fuel : nat) (s : state) : result (Z * state) :=
  match DecodeChar_walk fuel ROOT s with
  | Done (c, s1) =>
      let c1 := u32 (c - TSIZE) in
      match update fuel c1 (huff s1) with
      | Some t => Done (c1, set_huff t s1)
      | None => OutOfFuel
      end
  | Undefined => Undefined
  | OutOfFuel => OutOfFuel
  end.

(** [while(--j) i = (i << 1) | GetBit();] with [n] passes. *)
Fixpoint read_low_bits (n : nat) (i : Z) (s : state) : Z * state :=
  match n with
  | O => (i, s)
  | S m =>
      let (b, s1) := GetBit s in
      read_low_bits m (Z.lor (u32 (Z.shiftl i 1)) b) s1
  end.

(** [unsigned DecodePosition(void)]. [d_code] has 256 entries and [d_len]
    has 16; [--j] is taken in 32 bits. *)
Definition DecodePosition (s : state) : result (Z * state) :=
  let (i, s1) := GetByte s in
  if 256 <=? i then Undefined
  else
    let c := u32 (Z.shiftl (aget d_code i) 6) in
    let j := aget d_len (Z.shiftr i 4) in
    let (i1, s2) := read_low_bits (Z.to_nat (u32 (j - 1))) i s1 in
    Done (Z.lor (Z.land i1 0x3F) c, s2).

(** ** The decompressor state machine *)

(** Lines 293-296 of [getbyte]: a match begins. *)
Definition begin_match (c : Z) (s : state) : result state :=
  let s1 := set_GBstate 255 s in
  match DecodePosition s1 with
  | Done (d, s2) =>
      let s3 := set_GBi (Z.land (u32 (GBr s2 - d - 1)) (SBSIZE - 1)) s2 in
      let s4 := set_GBj (u32 (c - 255 + THRESHOLD)) s3 in
      Done (set_GBk 0 s4)
  | Undefined => Undefined
  | OutOfFuel => OutOfFuel
  end.

(** [ring_buff[GBr++] = c; GBr &= (SBSIZE-1);] *)
Definition push_byte (c : Z) (s : state) : state :=
  let s1 := set_ring_buff (aset (ring_buff s) (GBr s) (u8 c)) s in
  set_GBr (Z.land (u32 (GBr s1 + 1)) (SBSIZE - 1)) s1.

(** Lines 299-301 of [getbyte]: one byte of the match is copied. *)
Definition copy_step (s : state) : Z * state :=
  let c := aget (ring_buff s) (Z.land (u32 (GBk s + GBi s)) (SBSIZE - 1)) in
  let s1 := set_GBk (u32 (GBk s + 1)) s in
  (c, push_byte c s1).

(** The [for(;;)] loop of [getbyte], with at most [n] passes. *)
Fixpoint getbyte_loop (fuel n : nat) (s : state) : result (Z * state) :=
  match n with
  | O => OutOfFuel
  | S m =>
      if negb (Eof s =? 0) then Done (-1, s)
      else if GBstate s =? 0 then
        match DecodeChar fuel s with
        | Done (c, s1) =>
            if c <? 256 then Done (c, push_byte c s1)
            else
              match begin_match c s1 with
              | Done s2 =>
                  if GBk s2 <? GBj s2 then Done (copy_step s2)
                  else getbyte_loop fuel m (set_GBstate 0 s2)
              | Undefined => Undefined
              | OutOfFuel => OutOfFuel
              end
        | Undefined => Undefined
        | OutOfFuel => OutOfFuel
        end
      else if GBk s <? GBj s then Done (copy_step s)
      else getbyte_loop fuel m (set_GBstate 0 s)
  end.

(** [int getbyte(void)]; the result -1 is [EOF]. *)
Definition getbyte (fuel : nat) (s0 : state) : result (Z * state) :=
  let s := set_GBcheck (u32 (GBcheck s0 - 1)) s0 in
  if Advcomp s =? 0 then
    match fpi s with
    | b :: rest => Done (byte_val b, set_fpi rest (fpi_eof s) s)
    | [] => Done (-1, set_fpi [] true s)
    end
  else getbyte_loop fuel fuel s.

(** [unsigned getword(void)]. *)
Definition getword (fuel : nat) (s : state) : result (Z * state) :=
  match getbyte fuel s with
  | Done (w, s1) =>
      match getbyte fuel s1 with
      | Done (h, s2) => Done (Z.lor (u32 (Z.shiftl (u32 h) 8)) (u32 w), s2)
      | Undefined => Undefined
      | OutOfFuel => OutOfFuel
      end
  | Undefined => Undefined
  | OutOfFuel => OutOfFuel
  end.

(** [int getblock(unsigned char *p, unsigned size, const char *e)] with
    [e == NULL]: the bytes stored through [p] and the returned flag. *)
Fixpoint getblock (fuel : nat) (size : nat) (s : state)
  : result (list Z * bool * state) :=
  match size with
  | O => Done ([], false, s)
  | S m =>
      match getbyte fuel s with
      | Done (c, s1) =>
          if c =? -1 then Done ([], true, s1)
          else
            match getblock fuel m s1 with
            | Done (l, e, s2) => Done (u8 c :: l, e, s2)
            | Undefined => Undefined
            | OutOfFuel => OutOfFuel
            end
      | Undefined => Undefined
      | OutOfFuel => OutOfFuel
      end
  end.

(** ** The container walker and the sector decoder of [main] *)

(** The calls of [error], which print their message and leave the program. *)
Inductive fatal : Type :=
| EHeader                          (* "Error reading TD0 header" *)
| ESignature                       (* "Invalid TD0 header signature" *)
| ESectorHeader                    (* "Error reading sector header" *)
| EInvalidSectorSize (size : Z)    (* "Invalid sector size: %u" *)
| EDataHeader                      (* "Error reading data header" *)
| ERawData                         (* "Error reading raw sector data" *)
| ERLEData                         (* "Error reading RLE data" *)
| ERLEBlockType                    (* "Error reading RLE block type" *)
| ERLEBlockCount                   (* "Error reading RLE block count" *)
| ERLEBlockData                    (* "Error reading RLE block data" *)
| ERLEFragment                     (* "Error reading RLE fragment" *)
| EUnknownMethod (method : Z).     (* "Unknown compression method: %u" *)

(** A byte of the output file; [None] is a byte of [malloc]ed memory that
    was written to the file without having been assigned. *)
Definition cell : Type := option byte.

(** How a part of [main] ends: normally, in [error] (with the bytes written
    to the output file so far), in undefined behaviour (a store past the end
    of an array, a shift by the width of [int]), or with the loop bound of
    the model exhausted. *)
Inductive run (A : Type) : Type :=
| Ret (a : A)
| Exit (e : fatal) (out : list cell)
| Undef
| NoFuel.
Arguments Ret {A} a.
Arguments Exit {A} e out.
Arguments Undef {A}.
Arguments NoFuel {A}.

(** [fread(buf, size, 1, fpi)]: the bytes stored in [buf], whether the
    call returned 1, and the state afterwards. A call with [size = 0]
    returns 0 and reads nothing. *)
Definition fread1 (size : Z) (s : state) : list byte * bool * state :=
  let n := Z.to_nat size in
  let got := firstn n (fpi s) in
  if size =? 0 then ([], false, s)
  else if Z.of_nat (length (fpi s)) <? size
       then (got, false, set_fpi [] true s)
       else (got, true, set_fpi (skipn n (fpi s)) (fpi_eof s) s).

(** [buf[i] = b] on the sector buffer. *)
Fixpoint cset (buf : list cell) (i : Z) (b : byte) : list cell :=
  match buf with
  | [] => []
  | x :: r => if i =? 0 then Some b :: r else x :: cset r (i - 1) b
  end.

(** Stores [bs] in the sector buffer from index [p] on. *)
Fixpoint store (buf : list cell) (p : Z) (bs : list byte) : list cell :=
  match bs with
  | [] => buf
  | b :: r => store (cset buf p b) (p + 1) r
  end.

(** Method 1: [for(i = 0; i < count * 2 && i < sector_size; i += 2)]. *)
Fixpoint rle_pairs (n : nat) (i count sector_size : Z) (b1 b2 : byte)
  (buf : list cell) : list cell :=
  match n with
  | O => buf
  | S m =>
      if (i <? count * 2) && (i <? sector_size)
      then rle_pairs m (i + 2) count sector_size b1 b2 (store buf i [b1; b2])
      else buf
  end.

(** Method 2, fragment: [for(i = 0; i < count && remain >= frag_size; i++)];
    [n] is [count]. *)
Fixpoint copy_fragment (n : nat) (frag : list byte) (frag_size p remain : Z)
  (buf : list cell) : list cell * Z * Z :=
  match n with
  | O => (buf, p, remain)
  | S m =>
      if frag_size <=? remain
      then copy_fragment m frag frag_size (p + frag_size) (remain - frag_size)
             (store buf p frag)
      else (buf, p, remain)
  end.

(** Method 2, lines 456-468: a literal block. *)
Definition rle_literal (out : list cell) (p remain : Z) (buf : list cell)
  (s : state) : run (list cell * Z * Z * state) :=
  let '(cb, ok, s1) := fread1 1 s in
  if negb ok then Exit ERLEBlockCount out
  else
    let count := byte_val (hd x00 cb) in
    let count := if count >? remain then u8 remain else count in
    let '(data, ok2, s2) := fread1 count s1 in
    if negb ok2 then Exit ERLEBlockData out
    else Ret (store buf p data, p + count, remain - count, s2).

(** Method 2, lines 469-483: a repeated fragment. [fragment] has 256
    entries and [1 << blocktype] is an [int]. *)
Definition rle_fragment (out : list cell) (blocktype p remain : Z)
  (buf : list cell) (s : state) : run (list cell * Z * Z * state) :=
  if 31 <=? blocktype then Undef
  else
    let frag_size := Z.shiftl 1 blocktype in
    let '(cb, ok, s1) := fread1 1 s in
    if negb ok then Exit ERLEFragment out
    else
      let count := byte_val (hd x00 cb) in
      let '(frag, ok2, s2) := fread1 frag_size s1 in
      if 256 <? Z.of_nat (length frag) then Undef
      else if negb ok2 then Exit ERLEFragment out
      else
        let '(buf1, p1, remain1) :=
          copy_fragment (Z.to_nat count) frag frag_size p remain buf in
        Ret (buf1, p1, remain1, s2).

(** Method 2: [while(remain > 0) { ... }]. *)
Fixpoint rle_blocks (fuel : nat) (out : list cell) (p remain : Z)
  (buf : list cell) (s : state) : run (list cell * state) :=
  if remain <=? 0 then Ret (buf, s)
  else
    match fuel with
    | O => NoFuel
    | S m =>
        let '(bt, ok, s1) := fread1 1 s in
        if negb ok then Exit ERLEBlockType out
        else
          let blocktype := byte_val (hd x00 bt) in
          match (if blocktype =? 0 then rle_literal out p remain buf s1
                 else rle_fragment out blocktype p remain buf s1) with
          | Ret (buf1, p1, remain1, s2) => rle_blocks m out p1 remain1 buf1 s2
          | Exit e o => Exit e o
          | Undef => Undef
          | NoFuel => NoFuel
          end
    end.

(** [switch(Dhead.Dmethod)], lines 423-490: the sector buffer after the
    payload was decoded. [buf] is the buffer [malloc] returned. *)
Definition read_sector_data (fuel : nat) (out : list cell)
  (method sector_size : Z) (buf : list cell) (s : state)
  : run (list cell * state) :=
  if method =? 0 then
    let '(data, ok, s1) := fread1 sector_size s in
    if negb ok then Exit ERawData out else Ret (store buf 0 data, s1)
  else if method =? 1 then
    let '(cb, ok, s1) := fread1 2 s in
    if negb ok then Exit ERLEData out
    else
      let count := byte_val (nth 0 cb x00) + 256 * byte_val (nth 1 cb x00) in
      let '(b1, ok1, s2) := fread1 1 s1 in
      if negb ok1 then Exit ERLEData out
      else
        let '(b2, ok2, s3) := fread1 1 s2 in
        if negb ok2 then Exit ERLEData out
        else Ret (rle_pairs (Z.to_nat sector_size) 0 count sector_size
                    (hd x00 b1) (hd x00 b2) buf, s3)
  else if method =? 2 then rle_blocks fuel out 0 sector_size buf s
  else Exit (EUnknownMethod method) out.

(** The body of [for(int i = 0; i < Thead.Tsectors; i++)], lines 394-495:
    the output file and the state after one sector. *)
Definition process_sector (fuel : nat) (out : list cell) (s : state)
  : run (list cell * state) :=
  let '(sh, ok, s1) := fread1 6 s in
  if negb ok then Exit ESectorHeader out
  else
    let Ssize := byte_val (nth 3 sh x00) in
    let Sflags := byte_val (nth 4 sh x00) in
    if Ssize >? 6 then Exit (EInvalidSectorSize Ssize) out
    else
      let sector_size := Z.shiftl 128 Ssize in
      if Z.land Sflags SEC_NODAT =? 0 then
        let '(dh, ok1, s2) := fread1 3 s1 in
        if negb ok1 then Exit EDataHeader out
        else
          let Dmethod := byte_val (nth 2 dh x00) in
          let sector_data := repeat (@None byte) (Z.to_nat sector_size) in
          match read_sector_data fuel out Dmethod sector_size sector_data s2 with
          | Ret (data, s3) => Ret (out ++ data, s3)
          | Exit e o => Exit e o
          | Undef => Undef
          | NoFuel => NoFuel
          end
      else Ret (out, s1).

Fixpoint process_sectors (fuel : nat) (n : nat) (out : list cell) (s : state)
  : run (list cell * state) :=
  match n with
  | O => Ret (out, s)
  | S m =>
      match process_sector fuel out s with
      | Ret (out1, s1) => process_sectors fuel m out1 s1
      | Exit e o => Exit e o
      | Undef => Undef
      | NoFuel => NoFuel
      end
  end.

(** [while(!feof(fpi)) { ... }], lines 382-497. *)
Fixpoint process_tracks (fuel : nat) (n : nat) (out : list cell) (s : state)
  : run (list cell * state) :=
  if fpi_eof s then Ret (out, s)
  else
    match n with
    | O => NoFuel
    | S m =>
        let '(th, ok, s1) := fread1 4 s in
        if negb ok then Ret (out, s1)
        else
          let Tsectors := byte_val (nth 0 th x00) in
          if Tsectors =? 0xFF then Ret (out, s1)
          else
            match process_sectors fuel (Z.to_nat Tsectors) out s1 with
            | Ret (out1, s2) => process_tracks fuel m out1 s2
            | Exit e o => Exit e o
            | Undef => Undef
            | NoFuel => NoFuel
            end
    end.

(** The text [fprintf(fpo, "IMD 1.20 %s\r\n", VERSION)] writes. *)
Definition imd_header : list cell :=
  map (fun a => Some (byte_of_ascii a))
      (list_ascii_of_string "IMD 1.20 1.20") ++ [Some x0d; Some x0a].

(** [main], from the read of the TD0 header on, for an input file that
    could be opened: the contents of the output file and the final state. *)
Definition main (fuel : nat) (input : list byte) : run (list cell * state) :=
  let s := initial_state input in
  let '(hd, ok, s1) := fread1 12 s in
  if negb ok then Exit EHeader []
  else
    let Sig := byte_val (nth 0 hd x00) + 256 * byte_val (nth 1 hd x00) in
    if negb (Sig =? 0x4454) && negb (Sig =? 0x4464) then Exit ESignature []
    else
      let s2 := if Sig =? 0x4464 then init_decompress s1 else s1 in
      process_tracks fuel fuel imd_header s2.

(** ** Auxiliary definitions for the statements *)

(** The decompressor right after [init_decompress], reading [input]. *)
Definition compressed_start (input : list byte) : state :=
  init_decompress (initial_state input).

(** The value and the state of a finished call. *)
Definition value_of {A : Type} (r : result (A * state)) : option A :=
  match r with
  | Done (a, _) => Some a
  | _ => None
  end.

Definition state_of {A : Type} (r : result (A * state)) (otherwise : state) : state :=
  match r with
  | Done (_, s) => s
  | _ => otherwise
  end.

(** The fields of the LZSS state machine, which the bit reader and the
    Huffman decoder never touch. *)
Definition lz_fields (s : state) : Z * Z * Z * Z * Z * Z * Z * list Z :=
  (GBcheck s, GBr s, GBi s, GBj s, GBk s, GBstate s, Advcomp s, ring_buff s).

(** The position decoder in the words of the specification: it folds
    [d_len[i >> 4]] further bits into [i]. *)
Definition DecodePosition_as_specified (s : state) : result (Z * state) :=
  let (i, s1) := GetByte s in
  if 256 <=? i then Undefined
  else
    let c := u32 (Z.shiftl (aget d_code i) 6) in
    let j := aget d_len (Z.shiftr i 4) in
    let (i1, s2) := read_low_bits (Z.to_nat j) i s1 in
    Done (Z.lor (Z.land i1 0x3F) c, s2).

(** The match length in the words of the specification. *)
Definition match_length_as_specified (c : Z) : Z := c - 256 + THRESHOLD.

(** [n] successive calls of [getbyte]: the values returned, in order. *)
Fixpoint getbyte_run (fuel n : nat) (s : state) : result (list Z * state) :=
  match n with
  | O => Done ([], s)
  | S m =>
      match getbyte fuel s with
      | Done (c, s1) =>
          match getbyte_run fuel m s1 with
          | Done (l, s2) => Done (c :: l, s2)
          | Undefined => Undefined
          | OutOfFuel => OutOfFuel
          end
      | Undefined => Undefined
      | OutOfFuel => OutOfFuel
      end
  end.

(** What the Idle state of [getbyte] decodes when a match begins: the
    symbol and the registers [GBstate], [GBi], [GBj], [GBk] right after
    lines 293-296. *)
Definition match_begun (fuel : nat) (s : state) : option (Z * Z * Z * Z * Z) :=
  match DecodeChar fuel (set_GBcheck (u32 (GBcheck s - 1)) s) with
  | Done (c, s1) =>
      if c <? 256 then None
      else
        match begin_match c s1 with
        | Done sm => Some (c, GBstate sm, GBi sm, GBj sm, GBk sm)
        | _ => None
        end
  | _ => None
  end.

(** Everything of the state but the input file: the decompressor. *)
Definition decoder_fields (s : state)
  : tree * Z * Z * Z * (Z * Z * Z * Z * Z * Z * Z * list Z) :=
  (huff s, Bits s, Bitbuff s, Eof s, lz_fields s).

(** The contents of the output file after a normal end. *)
Definition output_of (r : run (list cell * state)) : option (list cell) :=
  match r with
  | Ret (out, _) => Some out
  | _ => None
  end.

Definition final_state (r : run (list cell * state)) (otherwise : state) : state :=
  match r with
  | Ret (_, s) => s
  | _ => otherwise
  end.

(** A container with the signature 0x4464 (compressed): one track of one
    128-byte sector stored with method 0, its payload 128 zero bytes, and
    the end-of-disk marker. *)
Definition compressed_container : list byte :=
  [x64; x44; x00; x00; x15; x00; x00; x00; x00; x01; x00; x00]   (* td0_header *)
  ++ [x01; x00; x00; x00]                                         (* track_header *)
  ++ [x00; x00; x01; x00; x00; x00]                               (* sector_header *)
  ++ [x81; x00; x00]                                              (* data_header *)
  ++ repeat x00 128
  ++ [xff; x00; x00; x00].

(** An uncompressed container whose only sector (512 bytes, method 2)
    starts with a fragment block of type 9: a fragment of 512 bytes. *)
Definition fragment9_container : list byte :=
  [x54; x44; x00; x00; x15; x00; x00; x00; x00; x01; x00; x00]
  ++ [x01; x00; x00; x00]
  ++ [x00; x00; x01; x02; x00; x00]
  ++ [x03; x02; x02]
  ++ [x09; x01] ++ repeat xaa 512
  ++ [xff; x00; x00; x00].

(** The bytes a call of [getblock] stored. *)
Definition block_of (r : result (list Z * bool * state)) : option (list Z) :=
  match r with
  | Done (l, _, _) => Some l
  | _ => None
  end.

(** The ring buffer after a call: untouched, or stored into at the old
    cursor, the new cursor being masked. *)
Definition ring_step (s s' : state) : Prop :=
  (GBr s' = GBr s /\ ring_buff s' = ring_buff s) \/
  (0 <= GBr s' < SBSIZE /\ exists v, ring_buff s' = aset (ring_buff s) (GBr s) v).


(** ** The invariant of the Huffman tree *)

(** [zsum lo n g] is [g lo + g (lo+1) + ... + g (lo+n-1)]. *)
Fixpoint zsum (lo : Z) (n : nat) (g : Z -> Z) : Z :=
  match n with
  | O => 0
  | S m => g lo + zsum (lo + 1) m g
  end.

(** [allz lo n P]: [P] holds from [lo] to [lo+n-1]. *)
Fixpoint allz (lo : Z) (n : nat) (P : Z -> bool) : bool :=
  match n with
  | O => true
  | S m => P lo && allz (lo + 1) m P
  end.

Definition is_leaf (t : tree) (i : Z) : bool := TSIZE <=? aget (son t) i.

(** The sum of the frequencies of the leaves, and their number. *)
Definition leaf_total (t : tree) : Z :=
  zsum 0 (Z.to_nat TSIZE) (fun i => if is_leaf t i then aget (freq t) i else 0).
Definition leaf_count (t : tree) : Z :=
  zsum 0 (Z.to_nat TSIZE) (fun i => if is_leaf t i then 1 else 0).

(** The structure of the tree. The node [d], if there is one ([0 <= d]),
    is the node whose frequency is still one less than the sum of its two
    sons: [update] is on its way from a leaf to the root and has not yet
    reached [d]. *)
Record tree_inv (d : Z) (t : tree) : Prop := {
  inv_len_parent : alen (parent t) = TSIZE + N_CHAR;
  inv_len_son : alen (son t) = TSIZE;
  inv_len_freq : alen (freq t) = TSIZE + 1;
  inv_sentinel : aget (freq t) TSIZE = 0xFFFF;
  inv_root : aget (parent t) ROOT = 0;
  inv_pos : forall i, 0 <= i < TSIZE -> 1 <= aget (freq t) i;
  inv_leaf : forall i, 0 <= i < TSIZE -> TSIZE <= aget (son t) i ->
    aget (son t) i < TSIZE + N_CHAR /\ aget (parent t) (aget (son t) i) = i;
  inv_node : forall i, 0 <= i < TSIZE -> aget (son t) i < TSIZE ->
    0 <= aget (son t) i /\ aget (son t) i + 1 < i /\
    aget (parent t) (aget (son t) i) = i /\
    aget (parent t) (aget (son t) i + 1) = i /\
    aget (freq t) i + (if i =? d then 1 else 0)
      = aget (freq t) (aget (son t) i) + aget (freq t) (aget (son t) i + 1);
  inv_up : forall x, 0 <= x < ROOT ->
    x < aget (parent t) x <= ROOT /\
    aget (son t) (aget (parent t) x) < TSIZE /\
    (aget (son t) (aget (parent t) x) = x \/
     aget (son t) (aget (parent t) x) + 1 = x);
  inv_sym : forall c, 0 <= c < N_CHAR ->
    0 <= aget (parent t) (c + TSIZE) < TSIZE /\
    aget (son t) (aget (parent t) (c + TSIZE)) = c + TSIZE;
  inv_total :
    leaf_total t = aget (freq t) ROOT + (if 0 <=? d then 1 else 0);
  inv_count : leaf_count t = N_CHAR
}.

(** The nodes are sorted by frequency. *)
Definition sorted (t : tree) : Prop :=
  forall i, 0 <= i < ROOT -> aget (freq t) i <= aget (freq t) (i + 1).

(** The invariant of the tree between two calls of [update]. *)
Definition tree_ok (t : tree) : Prop :=
  tree_inv (-1) t /\ sorted t /\ aget (freq t) ROOT <= MAX_FREQ.

(** A decision procedure for [tree_ok]. *)
Definition tree_okb (t : tree) : bool :=
  let n := Z.to_nat TSIZE in
  let pa := aget (parent t) in
  let sn := aget (son t) in
  let fr := aget (freq t) in
  (alen (parent t) =? TSIZE + N_CHAR) && (alen (son t) =? TSIZE)
  && (alen (freq t) =? TSIZE + 1)
  && (fr TSIZE =? 0xFFFF) && (pa ROOT =? 0)
  && allz 0 n (fun i => 1 <=? fr i)
  && allz 0 n (fun i =>
       if TSIZE <=? sn i then (sn i <? TSIZE + N_CHAR) && (pa (sn i) =? i)
       else (0 <=? sn i) && (sn i + 1 <? i) && (pa (sn i) =? i)
            && (pa (sn i + 1) =? i) && (fr i =? fr (sn i) + fr (sn i + 1)))
  && allz 0 (Z.to_nat ROOT) (fun x =>
       (x <? pa x) && (pa x <=? ROOT) && (sn (pa x) <? TSIZE)
       && ((sn (pa x) =? x) || (sn (pa x) + 1 =? x)))
  && allz 0 (Z.to_nat N_CHAR) (fun c =>
       (0 <=? pa (c + TSIZE)) && (pa (c + TSIZE) <? TSIZE)
       && (sn (pa (c + TSIZE)) =? c + TSIZE))
  && (leaf_total t =? fr ROOT) && (leaf_count t =? N_CHAR)
  && allz 0 (Z.to_nat ROOT) (fun i => fr i <=? fr (i + 1))
  && (fr ROOT <=? MAX_FREQ).

(** [n] calls of [update], for the symbols [c], [next c], ... *)
Fixpoint feed (fuel n : nat) (next : Z -> Z) (c : Z) (t : tree) : option tree :=
  match n with
  | O => Some t
  | S m =>
      match update fuel c t with
      | Some t1 => feed fuel m next (next c) t1
      | None => None
      end
  end.

(** [rank t i]: the number of leaves among the slots below [i]; the slot
    the first loop of the rebuild moves the leaf of slot [i] to. *)
Definition rank (t : tree) (i : Z) : Z :=
  zsum 0 (Z.to_nat i) (fun x => if is_leaf t x then 1 else 0).

(** The halved frequency the rebuild gives the leaf of the symbol [c]. *)
Definition halved (t : tree) (c : Z) : Z :=
  (aget (freq t) (aget (parent t) (c + TSIZE)) + 1) / 2.

(** [a'] is [a] with [v] inserted at [k], the elements from [k] to [j-1]
    moving up by one. *)
Definition inserted (a a' : Z -> Z) (k j v : Z) : Prop :=
  (forall x, 0 <= x < k -> a' x = a x) /\ a' k = v /\
  (forall x, k < x <= j -> a' x = a (x - 1)).

(** The state of the second loop of the rebuild when the slots below [j]
    are built: [F] and [S] are the arrays [freq] and [son], [hs] gives the
    frequency each leaf must have and [total] is their sum. *)
Record build_inv (hs : Z -> Z) (total j : Z) (F S : Z -> Z) : Prop := {
  bi_sorted : forall x, 0 <= x -> x + 1 < j -> F x <= F (x + 1);
  bi_pos : forall x, 0 <= x < j -> 1 <= F x;
  bi_window :
    zsum (2 * (j - N_CHAR)) (Z.to_nat (2 * N_CHAR - j)) F = total;
  bi_sym : forall c, 0 <= c < N_CHAR ->
    exists x, 0 <= x < j /\ S x = c + TSIZE /\ F x = hs c;
  bi_leaf : forall x, 0 <= x < j -> TSIZE <= S x -> S x < TSIZE + N_CHAR;
  bi_inj : forall x y, 0 <= x < j -> 0 <= y < j -> S x = S y -> x = y;
  bi_node : forall x, 0 <= x < j -> S x < TSIZE ->
    exists m, S x = 2 * m /\ 0 <= m /\ m < j - N_CHAR /\ 2 * m + 1 < x /\
              F x = F (2 * m) + F (2 * m + 1);
  bi_cover : forall m, 0 <= m < j - N_CHAR ->
    exists x, 0 <= x < j /\ S x = 2 * m;
  bi_count :
    zsum 0 (Z.to_nat j) (fun x => if TSIZE <=? S x then 1 else 0) = N_CHAR;
  bi_total :
    zsum 0 (Z.to_nat j) (fun x => if TSIZE <=? S x then F x else 0) = total
}.

(** ** The states of the three loops of the rebuild *)

(** The state of the first loop when the slots below [i] are done. *)
Definition collected (t : tree) (i : Z) (t' : tree) : Prop :=
  alen (freq t') = alen (freq t) /\ alen (son t') = alen (son t) /\
  parent t' = parent t /\
  (forall x, i <= x ->
     aget (freq t') x = aget (freq t) x /\ aget (son t') x = aget (son t) x) /\
  (forall x, 0 <= x < i -> is_leaf t x = true ->
     aget (freq t') (rank t x) = (aget (freq t) x + 1) / 2 /\
     aget (son t') (rank t x) = aget (son t) x).

(** The lengths of the arrays and the entries the rebuild does not write. *)
Definition framed (t t' : tree) : Prop :=
  alen (freq t') = alen (freq t) /\ alen (son t') = alen (son t) /\
  parent t' = parent t /\ aget (freq t') TSIZE = aget (freq t) TSIZE.

(** The state of the third loop when the slots below [i] are linked;
    [t2] is the tree the second loop has built. *)
Definition linked (t2 : tree) (i : Z) (t' : tree) : Prop :=
  son t' = son t2 /\ freq t' = freq t2 /\
  alen (parent t') = alen (parent t2) /\
  (forall x, 0 <= x < i ->
     aget (parent t') (aget (son t2) x) = x /\
     (aget (son t2) x < TSIZE -> aget (parent t') (aget (son t2) x + 1) = x)) /\
  (forall id,
     (forall x, 0 <= x < i ->
        aget (son t2) x <> id /\ (aget (son t2) x < TSIZE -> aget (son t2) x + 1 <> id)) ->
     aget (parent t') id = aget (parent t2) id).

(** A tree at the threshold: the shape [init_decompress] builds, with the
    leaf frequencies 104 (slots 0 to 201) and 105 (slots 202 to 313), so
    that the root frequency is [MAX_FREQ]. *)
Fixpoint weigh_leaves (n : nat) (i : Z) (t : tree) : tree :=
  match n with
  | O => t
  | S m => weigh_leaves m (i + 1) (set_freq i (if i <? 202 then 104 else 105) t)
  end.

Definition threshold_tree : tree :=
  let t1 := init_leaves (Z.to_nat N_CHAR) 0 zero_tree in
  let t2 := weigh_leaves (Z.to_nat N_CHAR) 0 t1 in
  let t3 := init_nodes (Z.to_nat (ROOT + 1 - N_CHAR)) N_CHAR 0 t2 in
  set_parent ROOT 0 (set_freq TSIZE 0xFFFF t3).

(** ** Further definitions: the layout of the stream of method 2 *)

(** A block of the stream of method 2 (lines 446-485): a literal block
    (a zero byte, a count byte and the data) or a fragment (a block type
    [t > 0], a count byte and a fragment of [1 << t] bytes). *)
Inductive block : Type :=
| Literal (data : list byte)
| Fragment (blocktype : Z) (count : byte) (frag : list byte).

Definition byte_of_Z (z : Z) : byte :=
  match Byte.of_N (Z.to_N z) with
  | Some b => b
  | None => x00
  end.

(** The bytes of a block in the file. *)
Definition block_bytes (b : block) : list byte :=
  match b with
  | Literal data => x00 :: byte_of_Z (Z.of_nat (length data)) :: data
  | Fragment blocktype count frag => byte_of_Z blocktype :: count :: frag
  end.

(** The bytes of the sector a block stands for. *)
Definition block_data (b : block) : list byte :=
  match b with
  | Literal data => data
  | Fragment _ count frag => concat (repeat frag (Z.to_nat (byte_val count)))
  end.

(** The blocks the decoder takes without truncating anything: a literal
    of 1 to 255 bytes, a fragment of [1 << t] bytes that fits the array
    [fragment[256]], repeated at least once. *)
Definition block_wf (b : block) : Prop :=
  match b with
  | Literal data => (1 <= length data <= 255)%nat
  | Fragment blocktype count frag =>
      1 <= blocktype <= 8 /\ 1 <= byte_val count /\
      Z.of_nat (length frag) = Z.shiftl 1 blocktype
  end.

(** The 16-bit signature field of the TD0 header, little-endian. *)
Definition signature (input : list byte) : Z :=
  byte_val (nth 0 input x00) + 256 * byte_val (nth 1 input x00).

(** The sector buffer after method 1 stored [k] pairs in a sector of
    [size] bytes: the rest is whatever [malloc] returned. *)
Definition pairs_then_garbage (b1 b2 : byte) (k size : nat) : list cell :=
  map Some (concat (repeat [b1; b2] k)) ++ repeat None (size - 2 * k).

(** The shape of a result of the sector loop: [P] holds of the value of a
    normal end, [Q] of a call of [error] and the output file it leaves, and the
    loop bound of the model is reached only if [bound]. *)
Definition run_shape {A : Type} (r : run A) (P : A -> Prop)
  (Q : fatal -> list cell -> Prop) (bound : Prop) : Prop :=
  match r with
  | Ret a => P a
  | Exit e o => Q e o
  | Undef => True
  | NoFuel => bound
  end.

(** [o] is [out] with whole sectors appended: a multiple of 128 bytes. *)
Definition extends (out o : list cell) : Prop :=
  exists d, o = out ++ d /\ Z.of_nat (length d) mod 128 = 0.

(** The number of bytes left in the input file. *)
Definition bytes_left (s : state) : nat := length (fpi s).

(** The size and the flags of the sector whose header is next in the
    input (the fields [Ssize] and [Sflags] of [struct sector_header]). *)
Definition next_Ssize (s : state) : Z := byte_val (nth 3 (fpi s) x00).
Definition next_Sflags (s : state) : Z := byte_val (nth 4 (fpi s) x00).

(** A part of [main] ended, one way or another, within the loop bound. *)
Definition ends {A : Type} (r : run A) : bool :=
  match r with
  | NoFuel => false
  | _ => true
  end.

(** ** Further definitions: the ring buffer *)

(** Every entry of [ring_buff] is an [unsigned char]. *)
Definition ring_bytes (s : state) : Prop :=
  Forall (fun v => 0 <= v < 256) (ring_buff s) /\
  alen (ring_buff s) = SBSIZE + LASIZE - 1.

(** The distance, in 1 .. SBSIZE, from the place in the ring buffer the
    match copy reads next to the place it writes next. *)
Definition match_distance (s : state) : Z :=
  (GBr s - GBi s - GBk s - 1) mod SBSIZE + 1.

(** A decompressor in the middle of a match: the ring buffer holds the
    bytes 65, 66 at its start, the cursor [GBr] is 2, and a match of
    length 5 reads from index 0 (distance 2). *)
Definition copying_state : state :=
  set_GBstate 255
    (set_GBj 5
       (set_Advcomp 255
          (set_GBr 2
             (set_ring_buff (65 :: 66 :: repeat 32 (Z.to_nat (SBSIZE + LASIZE - 3)))
                (initial_state []))))).

(** ** Further definitions: the bit stream *)

(** The bits of a byte, the most significant first. *)
Definition byte_bits (b : byte) : list bool :=
  map (fun k => Z.testbit (byte_val b) (7 - Z.of_nat k)) (seq 0 8).

(** The bits that are buffered: the [Bits] bits below bit 16 of [Bitbuff],
    the highest first. *)
Definition pending (s : state) : list bool :=
  map (fun k => Z.testbit (Bitbuff s) (15 - Z.of_nat k))
      (seq 0 (Z.to_nat (Bits s))).

(** The bits still to be read: the buffered ones, then those of the file. *)
Definition bit_stream (s : state) : list bool :=
  pending s ++ flat_map byte_bits (fpi s).

(** At most 7 bits are buffered and the 16-bit window of [Bitbuff] holds
    nothing below them. *)
Definition aligned (s : state) : Prop :=
  0 <= Bits s <= 7 /\ Bitbuff s mod 2 ^ (16 - Bits s) = 0.

(** ** Further definitions: the counts of the symbols *)

(** The frequency the tree holds for the symbol [c]: that of its leaf,
    which [parent[c + TSIZE]] locates. *)
Definition sym_freq (t : tree) (c : Z) : Z :=
  aget (freq t) (aget (parent t) (c + TSIZE)).

(** [update] for each symbol of a list in turn. *)
Fixpoint update_all (fuel : nat) (cs : list Z) (t : tree) : option tree :=
  match cs with
  | [] => Some t
  | c :: r =>
      match update fuel c t with
      | Some t1 => update_all fuel r t1
      | None => None
      end
  end.

(** The number of times [y] occurs in [cs]. *)
Definition occurrences (cs : list Z) (y : Z) : Z :=
  Z.of_nat (count_occ Z.eq_dec cs y).

(** ** [fopen_compat] of file.h *)

(** [strchr(s, c) != NULL] for a character [c] other than NUL: [c] occurs
    in the C string [s], which ends at its first NUL. *)
Fixpoint strchr (s : string) (c : ascii) : bool :=
  match s with
  | EmptyString => false
  | String a r =>
      if Ascii.eqb a zero then false
      else if Ascii.eqb a c then true else strchr r c
  end.

(** [if (strchr(mode, c)) strcat(new_mode, "c");] *)
Definition mode_flag (mode : string) (c : ascii) : string :=
  if strchr mode c then String c EmptyString else EmptyString.

(** The mode [fopen_compat] passes to [fopen]. [new_mode] has room for
    three characters and the terminating NUL; with a fourth character
    [strcat] writes past its end ([None]). *)
Definition fopen_compat_mode (mode : string) : option string :=
  let m := (mode_flag mode "r" ++ mode_flag mode "w"
            ++ mode_flag mode "b" ++ mode_flag mode "+")%string in
  if (3 <? String.length m)%nat then None else Some m.

(** The four characters [fopen_compat] looks for. *)
Definition is_mode_flag (c : ascii) : bool :=
  Ascii.eqb c "r" || Ascii.eqb c "w" || Ascii.eqb c "b" || Ascii.eqb c "+".

(** [m] is made of characters of [full] in the order they have there,
    each position of [full] used at most once. *)
Fixpoint subsequence (m full : string) : bool :=
  match full with
  | EmptyString =>
      match m with
      | EmptyString => true
      | String _ _ => false
      end
  | String b rest =>
      match m with
      | EmptyString => true
      | String a m' =>
          if Ascii.eqb a b then subsequence m' rest else subsequence m rest
      end
  end.

(** ** Further definitions: [getblock] with its message *)

(** What a call of [getblock] comes to: it returns its flag [eof], having
    stored [bytes] through [p]; or, with a message [e] and at the end of
    the input, it leaves the program through [error("EOF reading %s", e)],
    having stored [bytes]. *)
Inductive stored : Type :=
| Returned (bytes : list Z) (eof : bool) (s : state)
| EofReading (e : string) (bytes : list Z).

(** [int getblock(unsigned char *p, unsigned size, const char *e)];
    [e = None] is the null pointer. *)
Fixpoint getblock_e (fuel : nat) (size : nat) (e : option string) (s : state)
  : result stored :=
  match size with
  | O => Done (Returned [] false s)
  | S m =>
      match getbyte fuel s with
      | Done (c, s1) =>
          if c =? -1 then
            match e with
            | Some msg => Done (EofReading msg [])
            | None => Done (Returned [] true s1)
            end
          else
            match getblock_e fuel m e s1 with
            | Done (Returned l eof s2) => Done (Returned (u8 c :: l) eof s2)
            | Done (EofReading msg l) => Done (EofReading msg (u8 c :: l))
            | Undefined => Undefined
            | OutOfFuel => OutOfFuel
            end
      | Undefined => Undefined
      | OutOfFuel => OutOfFuel
      end
  end.

(** ** Further definitions: the layout of a container *)

(** What follows a sector header in the file: nothing (the flag
    [SEC_NODAT]), or a data header and the payload of method 0, 1 or 2. *)
Inductive payload : Type :=
| NoData
| Raw (data : list byte)
| Pair (lo hi b1 b2 : byte)
| Blocks (bs : list block).

(** A sector of the file: the fields of [struct sector_header], the
    offset field of [struct data_header] and the payload. *)
Record sector : Type := mkSector {
  Scylinder : byte;
  Sside : byte;
  Ssector : byte;
  Ssize : byte;
  Sflags : byte;
  Scrc : byte;
  Doffset : byte * byte;
  Spayload : payload
}.

Definition sector_size (x : sector) : Z := Z.shiftl 128 (byte_val (Ssize x)).

Definition sector_bytes (x : sector) : list byte :=
  [Scylinder x; Sside x; Ssector x; Ssize x; Sflags x; Scrc x]
  ++ match Spayload x with
     | NoData => []
     | Raw data => [fst (Doffset x); snd (Doffset x); x00] ++ data
     | Pair lo hi b1 b2 =>
         [fst (Doffset x); snd (Doffset x); x01; lo; hi; b1; b2]
     | Blocks bs =>
         [fst (Doffset x); snd (Doffset x); x02] ++ flat_map block_bytes bs
     end.

(** The cells the sector adds to the output file. *)
Definition sector_cells (x : sector) : list cell :=
  match Spayload x with
  | NoData => []
  | Raw data => map Some data
  | Pair lo hi b1 b2 =>
      pairs_then_garbage b1 b2
        (Z.to_nat (Z.min (byte_val lo + 256 * byte_val hi)
                         (Z.shiftl 64 (byte_val (Ssize x)))))
        (Z.to_nat (sector_size x))
  | Blocks bs => map Some (flat_map block_data bs)
  end.

(** The sectors the decoder takes without an error: a size code of at
    most 6, the flag [SEC_NODAT] set exactly when there is no data, and a
    payload that fills the sector. *)
Definition sector_wf (x : sector) : Prop :=
  byte_val (Ssize x) <= 6 /\
  match Spayload x with
  | NoData => Z.land (byte_val (Sflags x)) SEC_NODAT <> 0
  | Raw data =>
      Z.land (byte_val (Sflags x)) SEC_NODAT = 0 /\
      Z.of_nat (length data) = sector_size x
  | Pair _ _ _ _ => Z.land (byte_val (Sflags x)) SEC_NODAT = 0
  | Blocks bs =>
      Z.land (byte_val (Sflags x)) SEC_NODAT = 0 /\
      Forall block_wf bs /\
      Z.of_nat (length (flat_map block_data bs)) = sector_size x
  end.

(** A track of the file: the fields of [struct track_header] but the
    sector count, and the sectors. *)
Record track : Type := mkTrack {
  Tcylinder : byte;
  Tside : byte;
  Tcrc : byte;
  sectors : list sector
}.

Definition track_bytes (t : track) : list byte :=
  [byte_of_Z (Z.of_nat (length (sectors t))); Tcylinder t; Tside t; Tcrc t]
  ++ flat_map sector_bytes (sectors t).

Definition track_cells (t : track) : list cell :=
  flat_map sector_cells (sectors t).

Definition track_wf (t : track) : Prop :=
  (length (sectors t) < 255)%nat /\ Forall sector_wf (sectors t).

(** What may follow the last track: the end of the file, possibly after
    up to 3 stray bytes, or a track header with the sector count 0xFF and
    anything after it. *)
Definition ends_the_disk (tail : list byte) : Prop :=
  (length tail < 4)%nat \/ ((4 <= length tail)%nat /\ nth 0 tail x00 = xff).

(** The bit [j] of the stream; past its end the bits are 0, as [GetChar]
    supplies them. *)
Definition stream_bit (s : state) (j : nat) : bool := nth j (bit_stream s) false.

(** [bit from], [bit (from+1)], ..., [n] bits in all, shifted into [acc]
    from the right: the first bit ends up the most significant. *)
Fixpoint fold_bits (bit : nat -> bool) (from n : nat) (acc : Z) : Z :=
  match n with
  | O => acc
  | S m => fold_bits bit (S from) m (2 * acc + Z.b2z (bit from))
  end.

(** The number the [n] bits of the stream from the bit [from] on spell,
    the first bit being the most significant. *)
Definition stream_value (s : state) (from n : nat) : Z :=
  fold_bits (stream_bit s) from n 0.

(** * Properties *)

(** ** Arrays *)

Lemma aget_nil i : aget [] i = 0.
Proof. reflexivity. Qed.

Lemma alen_nonneg a : 0 <= alen a.
Proof. unfold alen. lia. Qed.

Lemma alen_cons x a : alen (x :: a) = alen a + 1.
Proof. unfold alen. cbn [length]. lia. Qed.

Lemma alen_aset a : forall i v, alen (aset a i v) = alen a.
Proof.
  induction a as [|x a IH]; intros i v; cbn [aset]; [reflexivity|].
  destruct (i =? 0); rewrite !alen_cons; [reflexivity|].
  now rewrite IH.
Qed.

Lemma aget_aset_eq a : forall i v, 0 <= i < alen a -> aget (aset a i v) i = v.
Proof.
  induction a as [|x a IH]; intros i v Hi.
  - unfold alen in Hi. cbn in Hi. lia.
  - rewrite alen_cons in Hi. cbn [aset aget].
    destruct (i =? 0) eqn:E; cbn [aget]; rewrite E; [reflexivity|].
    apply IH. apply Z.eqb_neq in E. lia.
Qed.

Lemma aget_aset_ne a : forall i j v, i <> j -> aget (aset a i v) j = aget a j.
Proof.
  induction a as [|x a IH]; intros i j v Hij; [reflexivity|].
  cbn [aset aget].
  destruct (i =? 0) eqn:Ei; cbn [aget]; destruct (j =? 0) eqn:Ej; try reflexivity.
  - apply Z.eqb_eq in Ei. apply Z.eqb_eq in Ej. lia.
  - apply IH. lia.
Qed.

Lemma aget_aset a i j v :
  0 <= i < alen a -> aget (aset a i v) j = if j =? i then v else aget a j.
Proof.
  intros Hi. destruct (j =? i) eqn:E.
  - apply Z.eqb_eq in E. subst. now apply aget_aset_eq.
  - apply Z.eqb_neq in E. apply aget_aset_ne. lia.
Qed.

Lemma aget_outside a : forall i, i < 0 \/ alen a <= i -> aget a i = 0.
Proof.
  induction a as [|x a IH]; intros i Hi; [reflexivity|].
  rewrite alen_cons in Hi. cbn [aget].
  pose proof (alen_nonneg a).
  destruct (i =? 0) eqn:E; [apply Z.eqb_eq in E; lia|].
  apply IH. apply Z.eqb_neq in E. lia.
Qed.

Lemma aget_In a : forall i, 0 <= i < alen a -> In (aget a i) a.
Proof.
  induction a as [|x a IH]; intros i Hi.
  - unfold alen in Hi. cbn in Hi. lia.
  - rewrite alen_cons in Hi. cbn [aget].
    destruct (i =? 0) eqn:E; [now left|].
    right. apply IH. apply Z.eqb_neq in E. lia.
Qed.

Lemma aget_Forall (P : Z -> Prop) a i :
  Forall P a -> 0 <= i < alen a -> P (aget a i).
Proof.
  intros HP Hi. rewrite Forall_forall in HP. apply HP. now apply aget_In.
Qed.

(** ** Machine integers *)

Lemma u32_range x : 0 <= u32 x < 2 ^ 32.
Proof. unfold u32. apply Z.mod_pos_bound. lia. Qed.

Lemma u32_small x : 0 <= x < 2 ^ 32 -> u32 x = x.
Proof. unfold u32. apply Z.mod_small. Qed.

Lemma land_mask_range x n : 0 <= n -> 0 <= Z.land x (2 ^ n - 1) < 2 ^ n.
Proof.
  intros Hn. replace (2 ^ n - 1) with (Z.ones n) by (rewrite Z.ones_equiv; lia).
  rewrite Z.land_ones by lia. apply Z.mod_pos_bound. lia.
Qed.

Lemma land_SBSIZE_range x : 0 <= Z.land x (SBSIZE - 1) < SBSIZE.
Proof. apply (land_mask_range x 12). lia. Qed.

Lemma land_SBSIZE_u32 x : Z.land (u32 x) (SBSIZE - 1) = x mod SBSIZE.
Proof.
  change (SBSIZE - 1) with (Z.ones 12). rewrite Z.land_ones by lia.
  unfold u32, SBSIZE. apply Z.mod_mod_divide. exists (2 ^ 20). reflexivity.
Qed.

Lemma byte_val_range b : 0 <= byte_val b < 256.
Proof.
  unfold byte_val. pose proof (Byte.to_N_bounded b) as H.
  lia.
Qed.

Lemma Done_inj {A : Type} (a b : A) : Done a = Done b -> a = b.
Proof.
  intros E.
  exact (f_equal (fun r => match r with Done x => x | _ => a end) E).
Qed.

(** ** The bit reader leaves the LZSS fields alone *)

Lemma GetChar_lz s : lz_fields (snd (GetChar s)) = lz_fields s.
Proof. unfold GetChar. destruct (fpi s); reflexivity. Qed.

Lemma GetBit_lz s : lz_fields (snd (GetBit s)) = lz_fields s.
Proof.
  unfold GetBit. destruct (Bits s =? 0); [|reflexivity].
  pose proof (GetChar_lz s) as H. destruct (GetChar s) as [c s']. exact H.
Qed.

Lemma GetByte_lz s : lz_fields (snd (GetByte s)) = lz_fields s.
Proof.
  unfold GetByte. destruct (Bits s <? 8); [|reflexivity].
  pose proof (GetChar_lz s) as H. destruct (GetChar s) as [c s']. exact H.
Qed.

Lemma read_low_bits_lz n : forall i s,
  lz_fields (snd (read_low_bits n i s)) = lz_fields s.
Proof.
  induction n as [|n IH]; intros i s; [reflexivity|].
  cbn [read_low_bits]. pose proof (GetBit_lz s) as H.
  destruct (GetBit s) as [b s1]. rewrite IH. exact H.
Qed.

Lemma DecodePosition_lz s d s' :
  DecodePosition s = Done (d, s') -> lz_fields s' = lz_fields s.
Proof.
  unfold DecodePosition. pose proof (GetByte_lz s) as H1.
  destruct (GetByte s) as [i s1]. destruct (256 <=? i); [discriminate|].
  match goal with |- context [read_low_bits ?n ?i ?s] =>
    pose proof (read_low_bits_lz n i s) as H2; destruct (read_low_bits n i s) as [i1 s2] end.
  intros E. apply Done_inj, (f_equal snd) in E. cbn [snd] in E, H1, H2.
  subst s'. rewrite H2. exact H1.
Qed.

Lemma DecodeChar_walk_lz fuel : forall c s r s',
  DecodeChar_walk fuel c s = Done (r, s') -> lz_fields s' = lz_fields s.
Proof.
  induction fuel as [|fuel IH]; intros c s r s'; [discriminate|].
  cbn [DecodeChar_walk]. destruct ((c <? 0) || (TSIZE <=? c)); [discriminate|].
  destruct (aget (son (huff s)) c <? TSIZE).
  - pose proof (GetBit_lz s) as H. destruct (GetBit s) as [b s1].
    intros E. apply IH in E. cbn [snd] in H. congruence.
  - intros E. inversion E; subst. reflexivity.
Qed.

Lemma DecodeChar_lz fuel s c s' :
  DecodeChar fuel s = Done (c, s') -> lz_fields s' = lz_fields s.
Proof.
  unfold DecodeChar. destruct (DecodeChar_walk fuel ROOT s) as [[r s1]| |] eqn:W;
    try discriminate.
  destruct (update fuel (u32 (r - TSIZE)) (huff s1)); [|discriminate].
  intros E. inversion E; subst. apply DecodeChar_walk_lz in W. exact W.
Qed.

Lemma DecodeChar_value_range fuel s c s' :
  DecodeChar fuel s = Done (c, s') -> 0 <= c < 2 ^ 32.
Proof.
  unfold DecodeChar. destruct (DecodeChar_walk fuel ROOT s) as [[r s1]| |];
    try discriminate.
  destruct (update fuel (u32 (r - TSIZE)) (huff s1)); [|discriminate].
  intros E. inversion E; subst. apply u32_range.
Qed.

(** ** The bit reader and the position decoder *)

Lemma lor_range a b n :
  0 <= n -> 0 <= a < 2 ^ n -> 0 <= b < 2 ^ n -> 0 <= Z.lor a b < 2 ^ n.
Proof.
  intros Hn Ha Hb. split; [apply Z.lor_nonneg; lia|].
  destruct (Z.eq_dec (Z.lor a b) 0) as [E|E]; [rewrite E; lia|].
  assert (0 <= Z.lor a b) by (apply Z.lor_nonneg; lia).
  apply Z.log2_lt_pow2; [lia|].
  rewrite Z.log2_lor by lia.
  destruct (Z.eq_dec a 0) as [->|Ha0]; destruct (Z.eq_dec b 0) as [->|Hb0].
  - cbn in E. lia.
  - rewrite Z.max_r by (cbn; apply Z.log2_nonneg). apply Z.log2_lt_pow2; lia.
  - rewrite Z.max_l by (cbn; apply Z.log2_nonneg). apply Z.log2_lt_pow2; lia.
  - apply Z.max_lub_lt; apply Z.log2_lt_pow2; lia.
Qed.

Lemma d_code_entries : Forall (fun x => 0 <= x <= 63) d_code.
Proof.
  apply Forall_forall. intros x Hx.
  assert (H : forallb (fun x => (0 <=? x) && (x <=? 63)) d_code = true)
    by (vm_compute; reflexivity).
  rewrite forallb_forall in H. specialize (H x Hx). lia.
Qed.

Lemma d_len_entries : Forall (fun x => 2 <= x <= 7) d_len.
Proof. unfold d_len. repeat constructor; lia. Qed.

Lemma d_code_range i : 0 <= aget d_code i <= 63.
Proof.
  destruct (Z_lt_dec i 0) as [Hn|Hn]; [rewrite aget_outside; [lia|now left]|].
  destruct (Z_lt_dec i 256) as [Hl|Hl].
  - apply (aget_Forall (fun x => 0 <= x <= 63)); [exact d_code_entries|].
    change (alen d_code) with 256. lia.
  - rewrite aget_outside; [lia|]. right. change (alen d_code) with 256. lia.
Qed.

Lemma d_len_range i : 0 <= i < 256 -> 2 <= aget d_len (Z.shiftr i 4) <= 7.
Proof.
  intros Hi. apply (aget_Forall (fun x => 2 <= x <= 7)); [exact d_len_entries|].
  change (alen d_len) with 16. rewrite Z.shiftr_div_pow2 by lia.
  change (2 ^ 4) with 16. split.
  - apply Z.div_pos; lia.
  - apply Z.div_lt_upper_bound; lia.
Qed.

Lemma distance_range i1 dc :
  0 <= dc <= 63 -> 0 <= Z.lor (Z.land i1 0x3F) (Z.shiftl dc 6) < SBSIZE.
Proof.
  intros Hdc. apply (lor_range _ _ 12); [lia| |].
  - pose proof (land_mask_range i1 6 ltac:(lia)) as H.
    change (2 ^ 6 - 1) with 63 in H. change (2 ^ 6) with 64 in H.
    change (2 ^ 12) with 4096. lia.
  - rewrite Z.shiftl_mul_pow2 by lia. change (2 ^ 6) with 64.
    change (2 ^ 12) with 4096. lia.
Qed.

Lemma d_code_shift_u32 i : u32 (Z.shiftl (aget d_code i) 6) = Z.shiftl (aget d_code i) 6.
Proof.
  apply u32_small. pose proof (d_code_range i) as H.
  rewrite Z.shiftl_mul_pow2 by lia. change (2 ^ 6) with 64.
  change (2 ^ 32) with 4294967296. lia.
Qed.

(** Whenever [DecodePosition] returns, its result is a ring-buffer distance. *)
Lemma DecodePosition_range s d s' :
  DecodePosition s = Done (d, s') -> 0 <= d < SBSIZE.
Proof.
  unfold DecodePosition. destruct (GetByte s) as [i s1].
  destruct (256 <=? i); [discriminate|].
  match goal with |- context [read_low_bits ?n ?i ?s] =>
    destruct (read_low_bits n i s) as [i1 s2] end.
  intros E. apply Done_inj, (f_equal fst) in E. cbn [fst] in E. subst d.
  rewrite d_code_shift_u32. apply distance_range. apply d_code_range.
Qed.

Lemma GetChar_byte s : 0 <= fst (GetChar s) < 256.
Proof.
  unfold GetChar. destruct (fpi s) as [|b rest]; cbn [fst]; [lia|].
  apply byte_val_range.
Qed.

Lemma GetChar_Bitbuff s :
  Bitbuff (snd (GetChar s)) = Bitbuff s /\ Bits (snd (GetChar s)) = Bits s.
Proof. unfold GetChar. destruct (fpi s); split; reflexivity. Qed.

(** With a buffer that holds no bit above bit 15, [GetBit] yields a bit
    and [GetByte] a byte. *)
Lemma GetBit_of_16_bit_buffer s :
  0 <= Bitbuff s < 2 ^ 16 -> 0 <= fst (GetBit s) <= 1.
Proof.
  intros HB. unfold GetBit.
  assert (Hs1 : forall b, 0 <= b < 2 ^ 16 -> 0 <= Z.shiftr b 15 <= 1).
  { intros b H1. rewrite Z.shiftr_div_pow2 by lia. split.
    - apply Z.div_pos; lia.
    - assert (b / 2 ^ 15 < 2); [|lia].
      apply Z.div_lt_upper_bound; lia. }
  destruct (Bits s =? 0).
  - pose proof (GetChar_byte s) as Hc. pose proof (GetChar_Bitbuff s) as [Hb _].
    destruct (GetChar s) as [c s']. cbn [fst snd] in *.
    unfold set_Bits, set_Bitbuff. cbn [Bitbuff]. apply Hs1. rewrite Hb.
    apply (lor_range _ _ 16); [lia|exact HB|].
    rewrite Z.shiftl_mul_pow2 by lia.
    rewrite u32_small; change (2 ^ 8) with 256; change (2 ^ 32) with 4294967296;
      change (2 ^ 16) with 65536; lia.
  - cbn [fst]. unfold set_Bits. cbn [Bitbuff]. apply Hs1. exact HB.
Qed.

Lemma GetByte_of_16_bit_buffer s :
  0 <= Bitbuff s < 2 ^ 16 -> 0 <= Bits s -> 0 <= fst (GetByte s) < 256.
Proof.
  intros HB Hbits. unfold GetByte.
  assert (Hs1 : forall b, 0 <= b < 2 ^ 16 -> 0 <= Z.shiftr b 8 < 256).
  { intros b H1. rewrite Z.shiftr_div_pow2 by lia. split.
    - apply Z.div_pos; lia.
    - apply Z.div_lt_upper_bound; lia. }
  destruct (Bits s <? 8) eqn:EB.
  - apply Z.ltb_lt in EB.
    pose proof (GetChar_byte s) as Hc. pose proof (GetChar_Bitbuff s) as [Hb Hn].
    destruct (GetChar s) as [c s']. cbn [fst snd] in *.
    unfold set_Bitbuff. cbn [Bitbuff]. apply Hs1. rewrite Hb, Hn.
    apply (lor_range _ _ 16); [lia|exact HB|].
    rewrite Z.shiftl_mul_pow2 by lia.
    assert (0 < 2 ^ (8 - Bits s) <= 2 ^ 8)
      by (split; [apply Z.pow_pos_nonneg; lia|apply Z.pow_le_mono_r; lia]).
    change (2 ^ 8) with 256 in *. change (2 ^ 16) with 65536.
    rewrite u32_small; change (2 ^ 32) with 4294967296; nia.
  - cbn [fst]. unfold set_Bits. cbn [Bitbuff]. apply Hs1. exact HB.
Qed.

(** C4 (fails on the code). The bit buffer [Bitbuff] is a 32-bit [unsigned]
    and is never masked to 16 bits: bits shifted past bit 15 stay in the
    word and come back in later results. After the byte 0x80 the second
    [GetBit] returns 2, and after the bytes 0xFF 0xFF a [GetBit] followed by
    a [GetByte] returns 511. *)
Theorem GetBit_GetByte_keep_bits_above_15 :
  fst (GetBit (snd (GetBit (compressed_start [x80])))) = 2 /\
  fst (GetByte (snd (GetBit (compressed_start [xff; xff])))) = 511.
Proof. split; vm_compute; reflexivity. Qed.


(** [DecodePosition] when the value [GetByte] returns is at most 255: the
    number of further bits is between 1 and 6 and the result is in the
    range of the ring buffer. *)
Lemma DecodePosition_unfolds (s : state) :
  let i := fst (GetByte s) in
  let s1 := snd (GetByte s) in
  let n := aget d_len (Z.shiftr i 4) - 1 in
  let i1 := fst (read_low_bits (Z.to_nat n) i s1) in
  let s2 := snd (read_low_bits (Z.to_nat n) i s1) in
  let d := Z.lor (Z.land i1 0x3F) (Z.shiftl (aget d_code i) 6) in
  0 <= i < 256 ->
  1 <= n <= 6 /\ DecodePosition s = Done (d, s2) /\ 0 <= d < SBSIZE.
Proof.
  intros i s1 n i1 s2 d Hi.
  pose proof (d_len_range i Hi) as Hlen.
  split; [unfold n; lia|]. split.
  - unfold DecodePosition. fold i s1. rewrite (surjective_pairing (GetByte s)).
    fold i s1. destruct (256 <=? i) eqn:E; [apply Z.leb_le in E; lia|].
    rewrite u32_small by (change (2 ^ 32) with 4294967296; lia).
    fold n. rewrite (surjective_pairing (read_low_bits (Z.to_nat n) i s1)).
    fold i1 s2. rewrite d_code_shift_u32. reflexivity.
  - apply distance_range, d_code_range.
Qed.


(** ** The decompressor state machine *)

Lemma lz_fields_eq s s' :
  lz_fields s' = lz_fields s ->
  GBcheck s' = GBcheck s /\ GBr s' = GBr s /\ GBi s' = GBi s /\
  GBj s' = GBj s /\ GBk s' = GBk s /\ GBstate s' = GBstate s /\
  Advcomp s' = Advcomp s /\ ring_buff s' = ring_buff s.
Proof.
  unfold lz_fields. intros H. inversion H. repeat split; assumption.
Qed.

(** What [begin_match] leaves behind. *)
Lemma begin_match_Done c s sm :
  begin_match c s = Done sm ->
  exists d s2,
    DecodePosition (set_GBstate 255 s) = Done (d, s2) /\
    GBstate sm = 255 /\
    GBi sm = Z.land (u32 (GBr s - d - 1)) (SBSIZE - 1) /\
    GBj sm = u32 (c - 255 + THRESHOLD) /\
    GBk sm = 0 /\
    GBr sm = GBr s /\ ring_buff sm = ring_buff s /\
    Eof sm = Eof s2 /\ fpi sm = fpi s2.
Proof.
  unfold begin_match.
  destruct (DecodePosition (set_GBstate 255 s)) as [[d s2]| |] eqn:E;
    try discriminate.
  intros H. apply Done_inj in H. subst sm.
  apply DecodePosition_lz, lz_fields_eq in E.
  destruct E as (_ & Hr & _ & _ & _ & Hst & _ & Hring).
  exists d, s2. cbn in Hr, Hst, Hring. cbn.
  rewrite Hr. repeat split; auto.
Qed.

Lemma push_byte_GBr c s : 0 <= GBr (push_byte c s) < SBSIZE.
Proof. unfold push_byte. cbn [GBr set_GBr]. apply land_SBSIZE_range. Qed.

Lemma push_byte_ring c s :
  ring_buff (push_byte c s) = aset (ring_buff s) (GBr s) (u8 c).
Proof. reflexivity. Qed.

Lemma ring_step_same s s1 s' :
  GBr s1 = GBr s -> ring_buff s1 = ring_buff s -> ring_step s1 s' -> ring_step s s'.
Proof. unfold ring_step. intros -> ->. exact id. Qed.

Lemma copy_step_ring s : ring_step s (snd (copy_step s)).
Proof.
  right. unfold copy_step. cbn [snd]. split; [apply push_byte_GBr|].
  rewrite push_byte_ring. cbn. eexists. reflexivity.
Qed.

Lemma getbyte_loop_ring fuel n : forall s c s',
  getbyte_loop fuel n s = Done (c, s') -> ring_step s s'.
Proof.
  induction n as [|n IH]; intros s c s'; [discriminate|].
  cbn [getbyte_loop].
  destruct (negb (Eof s =? 0)).
  { intros H. apply Done_inj in H. inversion H; subst. left. split; reflexivity. }
  destruct (GBstate s =? 0).
  - destruct (DecodeChar fuel s) as [[ch s1]| |] eqn:ED; try discriminate.
    apply DecodeChar_lz, lz_fields_eq in ED.
    destruct ED as (_ & Hr & _ & _ & _ & _ & _ & Hring).
    destruct (ch <? 256).
    + intros H. apply Done_inj in H. inversion H; subst.
      right. split; [apply push_byte_GBr|]. rewrite push_byte_ring.
      rewrite Hr, Hring. eexists. reflexivity.
    + destruct (begin_match ch s1) as [sm| |] eqn:EB; try discriminate.
      apply begin_match_Done in EB.
      destruct EB as (d & s2 & _ & _ & _ & _ & _ & Hr2 & Hring2 & _).
      destruct (GBk sm <? GBj sm).
      * intros H. apply Done_inj in H.
        apply (ring_step_same s sm); [congruence|congruence|].
        replace s' with (snd (copy_step sm)) by (rewrite H; reflexivity).
        apply copy_step_ring.
      * intros H. apply IH in H.
        apply (ring_step_same s (set_GBstate 0 sm)); cbn; [congruence|congruence|].
        exact H.
  - destruct (GBk s <? GBj s).
    + intros H. apply Done_inj in H.
      replace s' with (snd (copy_step s)) by (rewrite H; reflexivity).
      apply copy_step_ring.
    + intros H. apply IH in H.
      apply (ring_step_same s (set_GBstate 0 s)); cbn; auto.
Qed.

Lemma getbyte_ring fuel s c s' :
  getbyte fuel s = Done (c, s') -> ring_step s s'.
Proof.
  unfold getbyte.
  set (s1 := set_GBcheck (u32 (GBcheck s - 1)) s).
  destruct (Advcomp s1 =? 0).
  - destruct (fpi s1); intros H; apply Done_inj in H; inversion H; subst;
      left; split; reflexivity.
  - intros H. apply getbyte_loop_ring in H.
    apply (ring_step_same s s1); auto.
Qed.

(** C9. [init_decompress] puts the ring-buffer cursor [GBr] at
    [SBSIZE - LASIZE], and every call of [getbyte] that starts with [GBr]
    in [0 .. SBSIZE-1] ends with [GBr] in that range, having left
    [ring_buff] alone or stored one byte at the old cursor, an index
    strictly below [SBSIZE]. *)
Theorem getbyte_keeps_GBr_in_ring :
  (forall s0, GBr (init_decompress s0) = SBSIZE - LASIZE /\
              0 <= GBr (init_decompress s0) < SBSIZE) /\
  (forall fuel s c s',
      0 <= GBr s < SBSIZE ->
      getbyte fuel s = Done (c, s') ->
      0 <= GBr s' < SBSIZE /\
      (ring_buff s' = ring_buff s \/
       exists v, ring_buff s' = aset (ring_buff s) (GBr s) v)).
Proof.
  split.
  - intros s0. cbn. unfold SBSIZE, LASIZE. lia.
  - intros fuel s c s' Hr H. apply getbyte_ring in H.
    destruct H as [[H1 H2]|[H1 [v H2]]].
    + split; [lia|now left].
    + split; [exact H1|]. right. now exists v.
Qed.

Lemma getbyte_keeps_GBr_in_ring_witness :
  0 <= GBr (state_of (getbyte 700 (compressed_start [x00; x00]))
                     (compressed_start [])) < SBSIZE.
Proof.
  apply (proj2 getbyte_keeps_GBr_in_ring 700%nat
           (compressed_start [x00; x00]) 116
           (state_of (getbyte 700 (compressed_start [x00; x00]))
                     (compressed_start []))).
  - apply (proj1 getbyte_keeps_GBr_in_ring (initial_state [x00; x00])).
  - vm_compute. reflexivity.
Defined.

(** The cursor stays in the ring along any number of calls. *)
Lemma getbyte_run_GBr fuel (n : nat) : forall s l s',
  0 <= GBr s < SBSIZE ->
  getbyte_run fuel n s = Done (l, s') -> 0 <= GBr s' < SBSIZE.
Proof.
  induction n as [|n IH]; intros s l s' Hs.
  - cbn. intros H. apply Done_inj in H. inversion H; subst. exact Hs.
  - cbn [getbyte_run].
    destruct (getbyte fuel s) as [[c1 s1]| |] eqn:E; try discriminate.
    destruct (getbyte_run fuel n s1) as [[l1 s2]| |] eqn:E2; try discriminate.
    intros H. apply Done_inj in H. inversion H; subst.
    apply (IH s1 l1 s'); [|exact E2].
    apply getbyte_ring in E. destruct E as [[E1 _]|[E1 _]]; [lia|exact E1].
Qed.

(** C6. With compression enabled and the [Eof] flag raised, [getbyte]
    returns -1 at once, whatever the state of the match copy: the input
    file is not read, no byte of a pending match is copied and nothing but
    the counter [GBcheck] changes, so the flag stays raised for every
    later call. [GetChar] raises the flag when the file is exhausted. *)
Theorem getbyte_after_Eof (fuel : nat) (s : state) :
  Advcomp s <> 0 -> Eof s <> 0 ->
  getbyte (S fuel) s = Done (-1, set_GBcheck (u32 (GBcheck s - 1)) s) /\
  (forall n : nat,
     let sn := Nat.iter n (fun x => set_GBcheck (u32 (GBcheck x - 1)) x) s in
     getbyte (S fuel) sn = Done (-1, set_GBcheck (u32 (GBcheck sn - 1)) sn) /\
     fpi sn = fpi s /\ Eof sn = Eof s /\ Advcomp sn = Advcomp s /\
     GBstate sn = GBstate s /\ GBk sn = GBk s /\ GBr sn = GBr s /\
     ring_buff sn = ring_buff s) /\
  (forall s0, fpi s0 = [] -> Eof (snd (GetChar s0)) = 255).
Proof.
  intros Hadv Heof.
  assert (Hone : forall x, Advcomp x <> 0 -> Eof x <> 0 ->
            getbyte (S fuel) x = Done (-1, set_GBcheck (u32 (GBcheck x - 1)) x)).
  { intros x Ha He. unfold getbyte. cbn [Advcomp set_GBcheck].
    destruct (Advcomp x =? 0) eqn:E; [apply Z.eqb_eq in E; contradiction|].
    destruct (Eof x =? 0) eqn:E2; [apply Z.eqb_eq in E2; contradiction|].
    cbn [getbyte_loop].
    change (Eof (set_GBcheck (u32 (GBcheck x - 1)) x)) with (Eof x).
    rewrite E2. reflexivity. }
  split; [now apply Hone|]. split.
  - intros n. induction n as [|n IH].
    + cbn. split; [now apply Hone|]. repeat split; reflexivity.
    + cbn [Nat.iter]. cbv zeta in IH.
      destruct IH as (_ & H1 & H2 & H3 & H4 & H5 & H6 & H7).
      set (sn := Nat.iter n _ s) in *.
      split;
        [apply Hone; [change (Advcomp sn <> 0)|change (Eof sn <> 0)]; congruence|].
      unfold set_GBcheck. cbn [fpi Eof Advcomp GBstate GBk GBr ring_buff].
      repeat split; assumption.
  - intros s0 H0. unfold GetChar. rewrite H0. reflexivity.
Qed.

Lemma getbyte_after_Eof_witness :
  value_of (getbyte 1 (state_of (getbyte 700 (compressed_start []))
                                (compressed_start []))) = Some (-1).
Proof.
  destruct (getbyte_after_Eof 0
              (state_of (getbyte 700 (compressed_start [])) (compressed_start [])))
    as (H & _).
  - vm_compute. discriminate.
  - vm_compute. discriminate.
  - rewrite H. reflexivity.
Defined.

Lemma copy_step_first sm :
  GBk sm = 0 -> 0 <= GBi sm < SBSIZE ->
  fst (copy_step sm) = aget (ring_buff sm) (GBi sm) /\
  GBk (snd (copy_step sm)) = 1.
Proof.
  intros Hk Hi. unfold copy_step. cbn [fst snd]. rewrite Hk. split.
  - rewrite land_SBSIZE_u32. cbn [Z.add]. now rewrite Z.mod_small.
  - reflexivity.
Qed.

(** C2 (as stated, fails). After one literal decoded from an all-zero
    input, the Idle state decodes the symbol 313 and sets the match length
    [GBj] to 60 = 313 - 255 + THRESHOLD; the claim's
    [result - 256 + THRESHOLD] is 59. *)
Lemma match_length_is_result_minus_255_plus_THRESHOLD :
  match_begun 700 (state_of (getbyte 700 (compressed_start [x00; x00; x00; x00]))
                            (compressed_start []))
    = Some (313, 255, 4036, 60, 0) /\
  match_length_as_specified 313 = 59.
Proof. split; vm_compute; reflexivity. Qed.

(** C2 (amended). When [getbyte], in the Idle state with compression
    enabled and no end of file, decodes a symbol [c >= 256], it enters the
    match state with [GBj = c - 255 + THRESHOLD],
    [GBi = (GBr - DecodePosition() - 1) mod SBSIZE] and [GBk = 0]; the same
    call then copies the first byte of the match, so that it returns
    [ring_buff[GBi]] and leaves [GBk = 1]. *)
Theorem getbyte_begins_match (fuel : nat) (s s1 s2 : state) (c d : Z) :
  Advcomp s <> 0 -> Eof s = 0 -> GBstate s = 0 ->
  DecodeChar (S fuel) (set_GBcheck (u32 (GBcheck s - 1)) s) = Done (c, s1) ->
  256 <= c ->
  DecodePosition (set_GBstate 255 s1) = Done (d, s2) ->
  exists sm,
    begin_match c s1 = Done sm /\
    GBstate sm = 255 /\
    GBj sm = c - 255 + THRESHOLD /\
    GBi sm = (GBr s - d - 1) mod SBSIZE /\
    GBk sm = 0 /\
    getbyte (S fuel) s = Done (copy_step sm) /\
    fst (copy_step sm) = aget (ring_buff s) (GBi sm) /\
    GBk (snd (copy_step sm)) = 1.
Proof.
  intros Hadv Heof Hst HD Hc HP.
  pose proof (DecodeChar_value_range _ _ _ _ HD) as Hrange.
  pose proof (DecodeChar_lz _ _ _ _ HD) as Hlz1. apply lz_fields_eq in Hlz1.
  destruct Hlz1 as (_ & Hr1 & _ & _ & _ & _ & _ & Hring1).
  cbn [GBr ring_buff set_GBcheck] in Hr1, Hring1.
  destruct (begin_match c s1) as [sm| |] eqn:EB;
    try (unfold begin_match in EB; rewrite HP in EB; discriminate).
  pose proof (begin_match_Done _ _ _ EB) as (d' & s2' & HP' & Hs & Hi & Hj & Hk & Hr & Hring & _).
  rewrite HP in HP'. apply Done_inj in HP'.
  assert (d' = d) by (now inversion HP'). subst d'.
  assert (Hj' : GBj sm = c - 255 + THRESHOLD).
  { rewrite Hj. apply u32_small. unfold THRESHOLD. lia. }
  assert (Hi' : GBi sm = (GBr s - d - 1) mod SBSIZE).
  { rewrite Hi, land_SBSIZE_u32. now rewrite Hr1. }
  assert (Hirange : 0 <= GBi sm < SBSIZE).
  { rewrite Hi'. apply Z.mod_pos_bound. unfold SBSIZE. lia. }
  destruct (copy_step_first sm Hk Hirange) as [Hfst Hk1].
  exists sm. repeat split; auto.
  - unfold getbyte. change (Advcomp (set_GBcheck (u32 (GBcheck s - 1)) s)) with (Advcomp s).
    destruct (Advcomp s =? 0) eqn:E; [apply Z.eqb_eq in E; contradiction|].
    cbn [getbyte_loop].
    change (Eof (set_GBcheck (u32 (GBcheck s - 1)) s)) with (Eof s).
    change (GBstate (set_GBcheck (u32 (GBcheck s - 1)) s)) with (GBstate s).
    rewrite Heof, Hst. cbn [Z.eqb negb]. rewrite HD.
    destruct (c <? 256) eqn:E2; [apply Z.ltb_lt in E2; lia|].
    rewrite EB, Hk, Hj'.
    destruct (0 <? c - 255 + THRESHOLD) eqn:E3; [reflexivity|].
    apply Z.ltb_ge in E3. unfold THRESHOLD in E3. lia.
  - rewrite Hfst. congruence.
Qed.

Lemma getbyte_begins_match_witness :
  exists sm,
    GBj sm = 313 - 255 + THRESHOLD /\ GBk sm = 0 /\ GBk (snd (copy_step sm)) = 1.
Proof.
  pose (s := state_of (getbyte 700 (compressed_start [x00; x00; x00; x00]))
                      (compressed_start [])).
  pose (s1 := state_of (DecodeChar 700 (set_GBcheck (u32 (GBcheck s - 1)) s)) s).
  pose (s2 := state_of (DecodePosition (set_GBstate 255 s1)) s).
  destruct (getbyte_begins_match 699 s s1 s2 313 0)
    as (sm & _ & _ & Hj & _ & Hk & _ & _ & Hk1).
  - vm_compute. discriminate.
  - vm_compute. reflexivity.
  - vm_compute. reflexivity.
  - vm_compute. reflexivity.
  - lia.
  - vm_compute. reflexivity.
  - exists sm. repeat split; assumption.
Defined.

(** ** The sector decoder *)

Lemma fread1_zero s : fread1 0 s = ([], false, s).
Proof. reflexivity. Qed.

(** A successful [fread] of [size > 0] bytes takes them from the file. *)
Lemma fread1_ok size s bs rest :
  fpi s = bs ++ rest -> Z.of_nat (length bs) = size -> 0 < size ->
  fread1 size s = (bs, true, set_fpi rest (fpi_eof s) s).
Proof.
  intros Hf Hl Hs. unfold fread1.
  destruct (size =? 0) eqn:E0; [apply Z.eqb_eq in E0; lia|].
  rewrite Hf, length_app.
  destruct (Z.of_nat (length bs + length rest) <? size) eqn:E1;
    [apply Z.ltb_lt in E1; lia|].
  assert (Hn : Z.to_nat size = length bs) by lia.
  rewrite Hn, firstn_app, Nat.sub_diag, firstn_all, skipn_app, Nat.sub_diag,
    skipn_all. cbn [firstn skipn]. now rewrite app_nil_r.
Qed.

Lemma fread1_decoder size s :
  decoder_fields (snd (fread1 size s)) = decoder_fields s.
Proof.
  unfold fread1. destruct (size =? 0); [reflexivity|].
  destruct (_ <? size); reflexivity.
Qed.

(** C10. In a method-2 literal block a count byte of 0 with bytes still to
    decode makes [fread(p, 0, 1, fpi)] return 0, which the source reports
    as the fatal "Error reading RLE block data"; the block is not skipped
    and nothing is added to the output file. *)
Theorem zero_count_literal_is_fatal (fuel : nat) (out buf : list cell)
  (p remain : Z) (s : state) (rest : list byte) :
  0 < remain ->
  fpi s = x00 :: x00 :: rest ->
  rle_blocks (S fuel) out p remain buf s = Exit ERLEBlockData out /\
  (forall s0, fread1 0 s0 = ([], false, s0)).
Proof.
  intros Hr Hf. split; [|exact fread1_zero].
  cbn [rle_blocks]. destruct (remain <=? 0) eqn:E; [apply Z.leb_le in E; lia|].
  rewrite (fread1_ok 1 s [x00] (x00 :: rest) Hf) by (cbn; lia).
  cbn [negb hd]. change (byte_val x00 =? 0) with true. cbv iota.
  unfold rle_literal.
  rewrite (fread1_ok 1 _ [x00] rest) by (try reflexivity; cbn; lia).
  cbn [negb hd]. change (byte_val x00) with 0.
  destruct (0 >? remain) eqn:E2; [lia|].
  rewrite fread1_zero. reflexivity.
Qed.

Lemma zero_count_literal_is_fatal_witness :
  rle_blocks 1 imd_header 0 128 (repeat None 128)
    (initial_state [x00; x00; x01; x02]) = Exit ERLEBlockData imd_header.
Proof.
  apply (zero_count_literal_is_fatal 0 imd_header (repeat None 128) 0 128
           (initial_state [x00; x00; x01; x02]) [x01; x02]).
  - lia.
  - reflexivity.
Defined.

(** C8. A sector header with a size code above 6 ends the program with
    "Invalid sector size", and a data header with a method other than 0, 1
    and 2 ends it with "Unknown compression method"; in both cases the
    output file holds exactly what it held before the sector. *)
Theorem invalid_size_and_unknown_method_are_fatal :
  (forall (fuel : nat) (out : list cell) (s : state) (sh rest : list byte),
      fpi s = sh ++ rest -> length sh = 6%nat ->
      6 < byte_val (nth 3 sh x00) ->
      process_sector fuel out s
        = Exit (EInvalidSectorSize (byte_val (nth 3 sh x00))) out) /\
  (forall (fuel : nat) (out : list cell) (s : state) (sh dh rest : list byte),
      fpi s = sh ++ dh ++ rest -> length sh = 6%nat -> length dh = 3%nat ->
      byte_val (nth 3 sh x00) <= 6 ->
      Z.land (byte_val (nth 4 sh x00)) SEC_NODAT = 0 ->
      2 < byte_val (nth 2 dh x00) ->
      process_sector fuel out s
        = Exit (EUnknownMethod (byte_val (nth 2 dh x00))) out).
Proof.
  split.
  - intros fuel out s sh rest Hf Hl Hsz. unfold process_sector.
    rewrite (fread1_ok 6 s sh rest Hf) by lia. cbn [negb].
    destruct (byte_val (nth 3 sh x00) >? 6) eqn:E; [reflexivity|lia].
  - intros fuel out s sh dh rest Hf Hl Hd Hsz Hfl Hm. unfold process_sector.
    rewrite (fread1_ok 6 s sh (dh ++ rest) Hf) by lia. cbn [negb].
    destruct (byte_val (nth 3 sh x00) >? 6) eqn:E; [lia|].
    rewrite Hfl. cbn [Z.eqb].
    rewrite (fread1_ok 3 _ dh rest) by (try reflexivity; lia). cbn [negb].
    unfold read_sector_data.
    destruct (byte_val (nth 2 dh x00) =? 0) eqn:E0; [lia|].
    destruct (byte_val (nth 2 dh x00) =? 1) eqn:E1; [lia|].
    destruct (byte_val (nth 2 dh x00) =? 2) eqn:E2; [lia|].
    reflexivity.
Qed.

Lemma invalid_size_and_unknown_method_are_fatal_witness :
  process_sector 1 imd_header
      (initial_state [x00; x00; x01; x07; x00; x00; x00])
    = Exit (EInvalidSectorSize 7) imd_header /\
  process_sector 1 imd_header
      (initial_state [x00; x00; x01; x02; x00; x00; x05; x00; x03; x00])
    = Exit (EUnknownMethod 3) imd_header.
Proof.
  split.
  - apply (proj1 invalid_size_and_unknown_method_are_fatal 1%nat imd_header
             (initial_state [x00; x00; x01; x07; x00; x00; x00])
             [x00; x00; x01; x07; x00; x00] [x00]).
    + reflexivity.
    + reflexivity.
    + vm_compute. reflexivity.
  - apply (proj2 invalid_size_and_unknown_method_are_fatal 1%nat imd_header
             (initial_state [x00; x00; x01; x02; x00; x00; x05; x00; x03; x00])
             [x00; x00; x01; x02; x00; x00] [x05; x00; x03] [x00]).
    + reflexivity.
    + reflexivity.
    + reflexivity.
    + vm_compute. discriminate.
    + vm_compute. reflexivity.
    + vm_compute. reflexivity.
Defined.

Lemma fread1_decoder_eq size s bs ok s1 :
  fread1 size s = (bs, ok, s1) -> decoder_fields s1 = decoder_fields s.
Proof.
  intros H. pose proof (fread1_decoder size s) as F. now rewrite H in F.
Qed.

(** *** The fragment run of method 2 *)

Lemma cset_length buf : forall i b, length (cset buf i b) = length buf.
Proof.
  induction buf as [|x r IH]; intros i b; [reflexivity|].
  cbn [cset]. destruct (i =? 0); cbn [length]; [reflexivity|].
  now rewrite IH.
Qed.

Lemma store_app bs1 : forall bs2 buf p,
  store buf p (bs1 ++ bs2) = store (store buf p bs1) (p + Z.of_nat (length bs1)) bs2.
Proof.
  induction bs1 as [|b r IH]; intros bs2 buf p.
  - cbn. now rewrite Z.add_0_r.
  - cbn [app store length]. rewrite IH. f_equal. lia.
Qed.

(** The copy loop of a fragment run: the fragment is stored
    [min count (remain / frag_size)] times, one after the other, and
    [remain] decreases by [frag_size] for each copy. *)
Lemma copy_fragment_copies (n : nat) (frag : list byte) (frag_size : Z) :
  0 < frag_size -> Z.of_nat (length frag) = frag_size ->
  forall p remain buf, 0 <= remain ->
    copy_fragment n frag frag_size p remain buf
      = (store buf p
           (concat (repeat frag (Z.to_nat (Z.min (Z.of_nat n) (remain / frag_size))))),
         p + Z.min (Z.of_nat n) (remain / frag_size) * frag_size,
         remain - Z.min (Z.of_nat n) (remain / frag_size) * frag_size).
Proof.
  intros Hfs Hlen. induction n as [|n IH]; intros p remain buf Hrem.
  - pose proof (Z.div_pos remain frag_size Hrem Hfs) as Hq.
    change (Z.of_nat 0) with 0. rewrite Z.min_l by lia.
    cbn [copy_fragment Z.to_nat repeat concat store].
    now rewrite Z.mul_0_l, Z.add_0_r, Z.sub_0_r.
  - cbn [copy_fragment]. destruct (frag_size <=? remain) eqn:E.
    + apply Z.leb_le in E. rewrite IH by lia.
      assert (Hdiv : remain / frag_size = (remain - frag_size) / frag_size + 1).
      { replace remain with ((remain - frag_size) + 1 * frag_size) at 1 by lia.
        rewrite Z.div_add by lia. reflexivity. }
      assert (Hq : 0 <= (remain - frag_size) / frag_size) by (apply Z.div_pos; lia).
      rewrite Hdiv.
      set (q := (remain - frag_size) / frag_size) in *.
      replace (Z.min (Z.of_nat (S n)) (q + 1)) with (Z.min (Z.of_nat n) q + 1) by lia.
      set (m := Z.min (Z.of_nat n) q).
      assert (0 <= m) by (unfold m; lia).
      replace (Z.to_nat (m + 1)) with (S (Z.to_nat m)) by lia.
      cbn [repeat concat]. rewrite store_app, Hlen.
      replace (p + (m + 1) * frag_size) with (p + frag_size + m * frag_size) by lia.
      replace (remain - (m + 1) * frag_size)
        with (remain - frag_size - m * frag_size) by lia.
      reflexivity.
    + apply Z.leb_gt in E.
      assert (Hz : remain / frag_size = 0) by (apply Z.div_small; lia).
      rewrite Hz, Z.min_r by lia.
      cbn [Z.to_nat repeat concat store].
      now rewrite Z.mul_0_l, Z.add_0_r, Z.sub_0_r.
Qed.

(** For the block types 1 to 8 a fragment run reads the count byte and the
    [1 << blocktype] bytes of the fragment, nothing more, and then runs the
    copy loop. *)
Lemma rle_fragment_run (out buf : list cell) (blocktype p remain : Z)
  (s : state) (cnt : byte) (frag rest : list byte) :
  1 <= blocktype <= 8 ->
  fpi s = cnt :: frag ++ rest ->
  Z.of_nat (length frag) = Z.shiftl 1 blocktype ->
  rle_fragment out blocktype p remain buf s
    = let '(buf1, p1, remain1) :=
        copy_fragment (Z.to_nat (byte_val cnt)) frag (Z.shiftl 1 blocktype)
          p remain buf in
      Ret (buf1, p1, remain1, set_fpi rest (fpi_eof s) s).
Proof.
  intros Hbt Hf Hlen. unfold rle_fragment.
  destruct (31 <=? blocktype) eqn:E; [apply Z.leb_le in E; lia|].
  rewrite (fread1_ok 1 s [cnt] (frag ++ rest) Hf) by (cbn; lia).
  cbn [negb hd].
  assert (Hpow : 2 <= Z.shiftl 1 blocktype <= 256).
  { rewrite Z.shiftl_mul_pow2 by lia. rewrite Z.mul_1_l. split.
    - change 2 with (2 ^ 1) at 1. apply Z.pow_le_mono_r; lia.
    - change 256 with (2 ^ 8). apply Z.pow_le_mono_r; lia. }
  rewrite (fread1_ok (Z.shiftl 1 blocktype) _ frag rest)
    by (try reflexivity; lia).
  destruct (256 <? Z.of_nat (length frag)) eqn:E2; [apply Z.ltb_lt in E2; lia|].
  cbn [negb]. reflexivity.
Qed.

(** The example of the specification: the block stream 01 02 FF EE with a
    target size of 4 decodes to FF EE FF EE. *)
Lemma fragment_example :
  output_of (read_sector_data 8 [] 2 4 (repeat None 4)
               (initial_state [x01; x02; xff; xee]))
    = Some [Some xff; Some xee; Some xff; Some xee].
Proof. vm_compute. reflexivity. Qed.

(** A fragment run of a block type from 9 to 30 with more than 256 bytes
    left in the file stores past the end of [fragment[256]]. *)
Lemma rle_fragment_overrun (out buf : list cell) (blocktype p remain : Z)
  (s : state) (cnt : byte) (rest : list byte) :
  9 <= blocktype <= 30 ->
  fpi s = cnt :: rest -> (256 < length rest)%nat ->
  rle_fragment out blocktype p remain buf s = Undef.
Proof.
  intros Hbt Hf Hlen. unfold rle_fragment.
  destruct (31 <=? blocktype) eqn:E; [reflexivity|].
  rewrite (fread1_ok 1 s [cnt] rest Hf) by (cbn; lia).
  cbn [negb hd].
  assert (Hpow : 512 <= Z.shiftl 1 blocktype).
  { rewrite Z.shiftl_mul_pow2 by lia. rewrite Z.mul_1_l.
    change 512 with (2 ^ 9). apply Z.pow_le_mono_r; lia. }
  destruct (fread1 (Z.shiftl 1 blocktype) (set_fpi rest (fpi_eof s) s))
    as [[frag ok2] s2] eqn:EF.
  assert (Hfrag : frag = firstn (Z.to_nat (Z.shiftl 1 blocktype)) rest).
  { unfold fread1 in EF. cbn [fpi set_fpi] in EF.
    destruct (Z.shiftl 1 blocktype =? 0) eqn:E0; [apply Z.eqb_eq in E0; lia|].
    destruct (_ <? _) in EF; inversion EF; reflexivity. }
  assert (Hl : (256 < length frag)%nat).
  { rewrite Hfrag, length_firstn. lia. }
  destruct (256 <? Z.of_nat (length frag)) eqn:E2; [reflexivity|].
  apply Z.ltb_ge in E2. lia.
Qed.

(** C7 (fails on the code). A method-2 block of type 9 announces a
    fragment of [1 << 9 = 512] bytes; the source reads them into the local
    array [fragment[256]], so the sector of [fragment9_container] is not
    decoded as the claim says: the program stores past the end of the
    array. *)
Theorem fragment_block_type_9_overruns_fragment :
  main 100 fragment9_container = Undef.
Proof. vm_compute. reflexivity. Qed.

(** *** [main] never pulls a byte through the decompressor *)

Lemma rle_literal_decoder out p remain buf s buf1 p1 remain1 s1 :
  rle_literal out p remain buf s = Ret (buf1, p1, remain1, s1) ->
  decoder_fields s1 = decoder_fields s.
Proof.
  unfold rle_literal.
  destruct (fread1 1 s) as [[cb ok] sa] eqn:E1.
  destruct ok; cbn [negb]; [|discriminate].
  cbv zeta.
  destruct (fread1 _ sa) as [[data ok2] sb] eqn:E2.
  destruct ok2; cbn [negb]; [|discriminate].
  intros H. inversion H; subst.
  apply fread1_decoder_eq in E1. apply fread1_decoder_eq in E2. congruence.
Qed.

Lemma rle_fragment_decoder out blocktype p remain buf s buf1 p1 remain1 s1 :
  rle_fragment out blocktype p remain buf s = Ret (buf1, p1, remain1, s1) ->
  decoder_fields s1 = decoder_fields s.
Proof.
  unfold rle_fragment. destruct (31 <=? blocktype); [discriminate|].
  cbv zeta.
  destruct (fread1 1 s) as [[cb ok] sa] eqn:E1.
  destruct ok; cbn [negb]; [|discriminate].
  destruct (fread1 _ sa) as [[frag ok2] sb] eqn:E2.
  destruct (256 <? Z.of_nat (length frag)); [discriminate|].
  destruct ok2; cbn [negb]; [|discriminate].
  destruct (copy_fragment _ _ _ _ _ _) as [[b1 q1] r1].
  intros H. inversion H; subst.
  apply fread1_decoder_eq in E1. apply fread1_decoder_eq in E2. congruence.
Qed.

Lemma rle_blocks_decoder fuel out : forall p remain buf s buf1 s1,
  rle_blocks fuel out p remain buf s = Ret (buf1, s1) ->
  decoder_fields s1 = decoder_fields s.
Proof.
  induction fuel as [|fuel IH]; intros p remain buf s buf1 s1; cbn [rle_blocks];
    destruct (remain <=? 0);
    try (intros H; inversion H; subst; reflexivity); try discriminate.
  destruct (fread1 1 s) as [[bt ok] sa] eqn:E1.
  destruct ok; cbn [negb]; [|discriminate].
  apply fread1_decoder_eq in E1.
  destruct (byte_val (hd x00 bt) =? 0).
  - destruct (rle_literal out p remain buf sa) as [[[[b q] r] sb]| | |] eqn:E2;
      try discriminate.
    apply rle_literal_decoder in E2. intros H. apply IH in H. congruence.
  - destruct (rle_fragment out _ p remain buf sa) as [[[[b q] r] sb]| | |] eqn:E2;
      try discriminate.
    apply rle_fragment_decoder in E2. intros H. apply IH in H. congruence.
Qed.

Lemma read_sector_data_decoder fuel out method sector_size buf s buf1 s1 :
  read_sector_data fuel out method sector_size buf s = Ret (buf1, s1) ->
  decoder_fields s1 = decoder_fields s.
Proof.
  unfold read_sector_data.
  destruct (method =? 0).
  { destruct (fread1 sector_size s) as [[data ok] sa] eqn:E1.
    destruct ok; cbn [negb]; [|discriminate].
    intros H. inversion H; subst. now apply fread1_decoder_eq in E1. }
  destruct (method =? 1).
  { destruct (fread1 2 s) as [[cb ok] sa] eqn:E1.
    destruct ok; cbn [negb]; [|discriminate]. cbv zeta.
    destruct (fread1 1 sa) as [[b1 ok1] sb] eqn:E2.
    destruct ok1; cbn [negb]; [|discriminate].
    destruct (fread1 1 sb) as [[b2 ok2] sc] eqn:E3.
    destruct ok2; cbn [negb]; [|discriminate].
    intros H. inversion H; subst.
    apply fread1_decoder_eq in E1. apply fread1_decoder_eq in E2.
    apply fread1_decoder_eq in E3. congruence. }
  destruct (method =? 2); [apply rle_blocks_decoder|discriminate].
Qed.

Lemma process_sector_decoder fuel out s out1 s1 :
  process_sector fuel out s = Ret (out1, s1) ->
  decoder_fields s1 = decoder_fields s.
Proof.
  unfold process_sector.
  destruct (fread1 6 s) as [[sh ok] sa] eqn:E1.
  destruct ok; cbn [negb]; [|discriminate]. cbv zeta.
  apply fread1_decoder_eq in E1.
  destruct (_ >? 6); [discriminate|].
  destruct (Z.land _ SEC_NODAT =? 0).
  - destruct (fread1 3 sa) as [[dh ok1] sb] eqn:E2.
    destruct ok1; cbn [negb]; [|discriminate].
    apply fread1_decoder_eq in E2.
    destruct (read_sector_data _ _ _ _ _ sb) as [[data sc]| | |] eqn:E3;
      try discriminate.
    apply read_sector_data_decoder in E3.
    intros H. inversion H; subst. congruence.
  - intros H. inversion H; subst. exact E1.
Qed.

Lemma process_sectors_decoder fuel n : forall out s out1 s1,
  process_sectors fuel n out s = Ret (out1, s1) ->
  decoder_fields s1 = decoder_fields s.
Proof.
  induction n as [|n IH]; intros out s out1 s1; cbn [process_sectors].
  - intros H. inversion H; subst. reflexivity.
  - destruct (process_sector fuel out s) as [[o sa]| | |] eqn:E; try discriminate.
    apply process_sector_decoder in E. intros H. apply IH in H. congruence.
Qed.

Lemma process_tracks_decoder fuel n : forall out s out1 s1,
  process_tracks fuel n out s = Ret (out1, s1) ->
  decoder_fields s1 = decoder_fields s.
Proof.
  induction n as [|n IH]; intros out s out1 s1; cbn [process_tracks];
    destruct (fpi_eof s);
    try (intros H; inversion H; subst; reflexivity); try discriminate.
  destruct (fread1 4 s) as [[th ok] sa] eqn:E1.
  apply fread1_decoder_eq in E1.
  destruct ok; cbn [negb]; [|intros H; inversion H; subst; exact E1].
  destruct (_ =? 255); [intros H; inversion H; subst; exact E1|].
  destruct (process_sectors _ _ _ sa) as [[o sb]| | |] eqn:E2; try discriminate.
  apply process_sectors_decoder in E2. intros H. apply IH in H. congruence.
Qed.

Ltac state_fields :=
  cbn [huff Bits Bitbuff GBcheck GBr GBi GBj GBk GBstate Eof Advcomp ring_buff
       fpi fpi_eof set_huff set_Bits set_Bitbuff set_GBcheck set_GBr set_GBi
       set_GBj set_GBk set_GBstate set_Eof set_Advcomp set_ring_buff set_fpi] in *.

Lemma init_decompress_decoder s s' :
  decoder_fields s = decoder_fields s' ->
  decoder_fields (init_decompress s) = decoder_fields (init_decompress s').
Proof.
  destruct s, s'. unfold decoder_fields, lz_fields, init_decompress.
  state_fields. intros H. inversion H; subst. reflexivity.
Qed.

(** Whatever the signature of the container, [main] ends with the
    decompressor as [init_decompress] (or the program start) left it: the
    call counter [GBcheck] of [getbyte] is still 0 and neither the bit
    buffer, the tree nor the ring buffer has moved. *)
Lemma main_leaves_decompressor_alone fuel input out s :
  main fuel input = Ret (out, s) ->
  GBcheck s = 0 /\
  (decoder_fields s = decoder_fields (compressed_start []) \/
   decoder_fields s = decoder_fields (initial_state [])).
Proof.
  unfold main.
  destruct (fread1 12 (initial_state input)) as [[hd ok] s1] eqn:E1.
  destruct ok; cbn [negb]; [|discriminate]. cbv zeta.
  apply fread1_decoder_eq in E1.
  destruct (negb _ && negb _); [discriminate|].
  intros H. apply process_tracks_decoder in H.
  assert (Hd : decoder_fields s = decoder_fields (compressed_start []) \/
               decoder_fields s = decoder_fields (initial_state [])).
  { destruct (_ =? 17508).
    - left. rewrite H. unfold compressed_start. now apply init_decompress_decoder.
    - right. rewrite H. exact E1. }
  split; [|exact Hd].
  assert (G : forall x y, decoder_fields x = decoder_fields y -> GBcheck x = GBcheck y).
  { intros x y Hxy. unfold decoder_fields, lz_fields in Hxy. now inversion Hxy. }
  destruct Hd as [Hd|Hd]; apply G in Hd; rewrite Hd; reflexivity.
Qed.

(** C1 (fails on the code). For the compressed container
    [compressed_container], [main] writes the 128 payload bytes exactly as
    they stand in the file and never calls [getbyte] ([GBcheck] is still
    0), although [Advcomp] is set; read through [getblock], that is
    through the decompressor, the same payload is 128 times the byte 116. *)
Theorem compressed_payload_is_read_raw :
  output_of (main 100 compressed_container)
    = Some (imd_header ++ repeat (Some x00) 128) /\
  GBcheck (final_state (main 100 compressed_container) (initial_state [])) = 0 /\
  Advcomp (final_state (main 100 compressed_container) (initial_state [])) = 255 /\
  block_of (getblock 700 128
              (compressed_start (repeat x00 128 ++ [xff; x00; x00; x00])))
    = Some (repeat 116 128).
Proof. repeat split; vm_compute; reflexivity. Qed.

(** ** Sums, bounded quantifiers and block moves *)

Lemma zsum_ext n : forall lo g h,
  (forall i, lo <= i < lo + Z.of_nat n -> g i = h i) ->
  zsum lo n g = zsum lo n h.
Proof.
  induction n as [|n IH]; intros lo g h H; [reflexivity|].
  cbn [zsum]. rewrite (H lo) by lia. f_equal. apply IH.
  intros i Hi. apply H. lia.
Qed.

Lemma zsum_upd n : forall lo g h c,
  lo <= c < lo + Z.of_nat n ->
  (forall i, lo <= i < lo + Z.of_nat n -> i <> c -> h i = g i) ->
  zsum lo n h = zsum lo n g - g c + h c.
Proof.
  induction n as [|n IH]; intros lo g h c Hc H; [lia|].
  cbn [zsum]. destruct (Z.eq_dec c lo) as [->|Hne].
  - rewrite (zsum_ext n (lo + 1) h g); [lia|].
    intros i Hi. apply H; lia.
  - rewrite (IH (lo + 1) g h c) by (try lia; intros i Hi Hi'; apply H; lia).
    rewrite (H lo) by lia. lia.
Qed.

Lemma zsum_app n : forall m lo g,
  zsum lo (n + m) g = zsum lo n g + zsum (lo + Z.of_nat n) m g.
Proof.
  induction n as [|n IH]; intros m lo g.
  - cbn [zsum Nat.add]. now rewrite Z.add_0_r.
  - cbn [zsum Nat.add]. rewrite IH.
    replace (lo + 1 + Z.of_nat n) with (lo + Z.of_nat (S n)) by lia. lia.
Qed.

Lemma zsum_shift n : forall lo g,
  zsum lo n (fun i => g (i + 1)) = zsum (lo + 1) n g.
Proof.
  induction n as [|n IH]; intros lo g; [reflexivity|].
  cbn [zsum]. now rewrite IH.
Qed.

Lemma zsum_ge n : forall lo g b,
  (forall i, lo <= i < lo + Z.of_nat n -> b <= g i) ->
  b * Z.of_nat n <= zsum lo n g.
Proof.
  induction n as [|n IH]; intros lo g b H; [cbn; lia|].
  cbn [zsum]. specialize (IH (lo + 1) g b).
  assert (b <= g lo) by (apply H; lia).
  assert (b * Z.of_nat n <= zsum (lo + 1) n g) by (apply IH; intros; apply H; lia).
  lia.
Qed.

Lemma zsum_le n : forall lo g h,
  (forall i, lo <= i < lo + Z.of_nat n -> g i <= h i) ->
  zsum lo n g <= zsum lo n h.
Proof.
  induction n as [|n IH]; intros lo g h H; [reflexivity|].
  cbn [zsum]. assert (g lo <= h lo) by (apply H; lia).
  assert (zsum (lo + 1) n g <= zsum (lo + 1) n h)
    by (apply IH; intros; apply H; lia).
  lia.
Qed.

Lemma zsum_add n : forall lo g h,
  zsum lo n (fun i => g i + h i) = zsum lo n g + zsum lo n h.
Proof.
  induction n as [|n IH]; intros lo g h; [reflexivity|].
  cbn [zsum]. rewrite IH. lia.
Qed.

Lemma zsum_const n : forall lo b, zsum lo n (fun _ => b) = b * Z.of_nat n.
Proof.
  induction n as [|n IH]; intros lo b; [cbn; lia|].
  cbn [zsum]. rewrite IH. lia.
Qed.

Lemma allz_spec n : forall lo P,
  allz lo n P = true <-> (forall i, lo <= i < lo + Z.of_nat n -> P i = true).
Proof.
  induction n as [|n IH]; intros lo P.
  - cbn. split; [intros _ i Hi; lia|reflexivity].
  - cbn [allz]. rewrite andb_true_iff, IH. split.
    + intros [H0 H] i Hi. destruct (Z.eq_dec i lo) as [->|Hne]; [exact H0|].
      apply H. lia.
    + intros H. split; [apply H; lia|]. intros i Hi. apply H. lia.
Qed.

Lemma alen_amove_at orig a : forall p dst src n,
  alen (amove_at orig a p dst src n) = alen a.
Proof.
  induction a as [|x a IH]; intros p dst src n; [reflexivity|].
  cbn [amove_at]. rewrite !alen_cons. now rewrite IH.
Qed.

Lemma alen_amove a dst src n : alen (amove a dst src n) = alen a.
Proof. apply alen_amove_at. Qed.

Lemma aget_amove_at orig a : forall p dst src n q,
  0 <= q < alen a ->
  aget (amove_at orig a p dst src n) q
    = if (dst <=? p + q) && (p + q <? dst + n)
      then aget orig (src + (p + q - dst)) else aget a q.
Proof.
  induction a as [|x a IH]; intros p dst src n q Hq.
  - unfold alen in Hq. cbn in Hq. lia.
  - rewrite alen_cons in Hq. cbn [amove_at aget].
    destruct (q =? 0) eqn:E.
    + apply Z.eqb_eq in E. subst q. now rewrite Z.add_0_r.
    + apply Z.eqb_neq in E. rewrite IH by lia.
      replace (p + 1 + (q - 1)) with (p + q) by lia. reflexivity.
Qed.

(** [amove a dst src n] copies the [n] elements from [src] on to [dst] on. *)
Lemma aget_amove a dst src n q :
  0 <= q < alen a ->
  aget (amove a dst src n) q
    = if (dst <=? q) && (q <? dst + n) then aget a (src + (q - dst)) else aget a q.
Proof.
  intros Hq. unfold amove. rewrite aget_amove_at by exact Hq.
  now rewrite Z.add_0_l.
Qed.

(** ** The decision procedure is sound *)

Lemma tree_okb_sound t : tree_okb t = true -> tree_ok t.
Proof.
  unfold tree_okb. cbv zeta. rewrite !andb_true_iff.
  intros ((((((((((((H1 & H2) & H3) & H4) & H5) & H6) & H7) & H8) & H9) & H10)
             & H11) & H12) & H13).
  rewrite allz_spec in H6, H7, H8, H9, H12.
  apply Z.eqb_eq in H1, H2, H3, H4, H5, H10, H11. apply Z.leb_le in H13.
  change (Z.of_nat (Z.to_nat TSIZE)) with TSIZE in *.
  change (Z.of_nat (Z.to_nat ROOT)) with ROOT in *.
  change (Z.of_nat (Z.to_nat N_CHAR)) with N_CHAR in *.
  split; [|split; [|exact H13]].
  - split; try assumption.
    + intros i Hi. specialize (H6 i ltac:(lia)). lia.
    + intros i Hi Hl. specialize (H7 i ltac:(lia)). cbv beta in H7.
      destruct (TSIZE <=? aget (son t) i) eqn:E; [|apply Z.leb_gt in E; lia].
      rewrite andb_true_iff in H7. destruct H7 as [Ha Hb].
      apply Z.ltb_lt in Ha. apply Z.eqb_eq in Hb. now split.
    + intros i Hi Hl. specialize (H7 i ltac:(lia)). cbv beta in H7.
      destruct (TSIZE <=? aget (son t) i) eqn:E; [apply Z.leb_le in E; lia|].
      rewrite !andb_true_iff in H7. destruct H7 as ((((Ha & Hb) & Hc) & Hd) & He).
      apply Z.leb_le in Ha. apply Z.ltb_lt in Hb.
      apply Z.eqb_eq in Hc, Hd, He.
      destruct (i =? -1) eqn:E1; [apply Z.eqb_eq in E1; lia|].
      repeat split; try assumption; lia.
    + intros x Hx. specialize (H8 x ltac:(lia)). cbv beta in H8.
      rewrite !andb_true_iff, orb_true_iff in H8.
      destruct H8 as (((Ha & Hb) & Hc) & Hd).
      apply Z.ltb_lt in Ha, Hc. apply Z.leb_le in Hb.
      rewrite !Z.eqb_eq in Hd. repeat split; assumption.
    + intros c Hc. specialize (H9 c ltac:(lia)). cbv beta in H9.
      rewrite !andb_true_iff in H9. destruct H9 as ((Ha & Hb) & Hd).
      apply Z.leb_le in Ha. apply Z.ltb_lt in Hb. apply Z.eqb_eq in Hd.
      repeat split; assumption.
    + rewrite H10. cbn. lia.
  - intros i Hi. specialize (H12 i ltac:(lia)). cbv beta in H12. lia.
Qed.

Lemma init_tree_ok : tree_ok (init_tree zero_tree).
Proof. apply tree_okb_sound. vm_compute. reflexivity. Qed.

(** ** [update]: the frequency increment keeps the invariant *)

Lemma TSIZE_val : TSIZE = 627. Proof. reflexivity. Qed.
Lemma ROOT_val : ROOT = 626. Proof. reflexivity. Qed.
Lemma N_CHAR_val : N_CHAR = 314. Proof. reflexivity. Qed.
Lemma MAX_FREQ_val : MAX_FREQ = 32768. Proof. reflexivity. Qed.

Ltac consts :=
  pose proof TSIZE_val; pose proof ROOT_val; pose proof N_CHAR_val;
  pose proof MAX_FREQ_val.

Lemma sorted_le t : sorted t ->
  forall x y, 0 <= x -> x <= y -> y <= ROOT ->
  aget (freq t) x <= aget (freq t) y.
Proof.
  intros Hs x y Hx Hxy Hy.
  replace y with (x + Z.of_nat (Z.to_nat (y - x))) in * by lia.
  induction (Z.to_nat (y - x)) as [|n IH]; [rewrite Z.add_0_r; lia|].
  assert (aget (freq t) x <= aget (freq t) (x + Z.of_nat n)) by (apply IH; lia).
  specialize (Hs (x + Z.of_nat n) ltac:(lia)).
  replace (x + Z.of_nat (S n)) with (x + Z.of_nat n + 1) by lia. lia.
Qed.

Lemma leaf_total_set_freq t c v :
  alen (freq t) = TSIZE + 1 -> 0 <= c < TSIZE ->
  leaf_total (set_freq c v t)
    = leaf_total t + (if is_leaf t c then v - aget (freq t) c else 0).
Proof.
  intros Hl Hc. unfold leaf_total. consts.
  rewrite (zsum_upd _ 0 (fun i => if is_leaf t i then aget (freq t) i else 0) _ c).
  - cbv beta. unfold is_leaf, set_freq. cbn [son freq].
    rewrite aget_aset_eq by lia. destruct (TSIZE <=? aget (son t) c); lia.
  - lia.
  - intros i Hi Hne. unfold is_leaf, set_freq. cbn [son freq].
    now rewrite aget_aset_ne by lia.
Qed.

Lemma leaf_count_set_freq t c v : leaf_count (set_freq c v t) = leaf_count t.
Proof. reflexivity. Qed.

Lemma root_is_internal d t : tree_inv d t -> aget (son t) ROOT < TSIZE.
Proof.
  intros Hinv. consts.
  destruct (inv_up _ _ Hinv (ROOT - 1) ltac:(lia)) as (Hp & Hs & _).
  replace (aget (parent t) (ROOT - 1)) with ROOT in Hs by lia. exact Hs.
Qed.

Section Increment.
Variable t : tree.
Variables c d : Z.
Hypothesis Hinv : tree_inv d t.
Hypothesis Hsorted : sorted t.
Hypothesis Hc : 0 <= c < TSIZE.
Hypothesis Hmode :
  (d = -1 /\ TSIZE <= aget (son t) c) \/ (d = c /\ aget (son t) c < TSIZE).

Let k := aget (freq t) c + 1.
Let t1 := set_freq c k t.
Let d1 := if c =? ROOT then -1 else aget (parent t) c.

Lemma incr_freq x :
  aget (freq t1) x = if x =? c then k else aget (freq t) x.
Proof.
  unfold t1, set_freq. cbn [freq]. consts.
  apply aget_aset. rewrite (inv_len_freq _ _ Hinv). lia.
Qed.

Lemma incr_mode_leaf_not_root : TSIZE <= aget (son t) c -> c <> ROOT.
Proof.
  intros Hl E. subst c. pose proof (root_is_internal _ _ Hinv). lia.
Qed.

Lemma incr_inv : tree_inv d1 t1.
Proof.
  consts. pose proof (root_is_internal _ _ Hinv) as Hri.
  split.
  - exact (inv_len_parent _ _ Hinv).
  - exact (inv_len_son _ _ Hinv).
  - unfold t1, set_freq. cbn [freq]. rewrite alen_aset.
    exact (inv_len_freq _ _ Hinv).
  - rewrite incr_freq. destruct (TSIZE =? c) eqn:E; [apply Z.eqb_eq in E; lia|].
    exact (inv_sentinel _ _ Hinv).
  - exact (inv_root _ _ Hinv).
  - intros i Hi. rewrite incr_freq. pose proof (inv_pos _ _ Hinv i Hi).
    pose proof (inv_pos _ _ Hinv c Hc). destruct (i =? c); unfold k; lia.
  - exact (inv_leaf _ _ Hinv).
  - intros i Hi Hs. change (son t1) with (son t) in *.
    change (parent t1) with (parent t).
    destruct (inv_node _ _ Hinv i Hi Hs) as (A & B & C & D & E).
    repeat split; try assumption.
    rewrite !incr_freq. unfold d1, k.
    destruct (Z.eq_dec (aget (son t) i) c) as [E1|E1].
    { rewrite E1 in *.
      destruct (c =? ROOT) eqn:ER; [apply Z.eqb_eq in ER; lia|].
      rewrite C, !Z.eqb_refl.
      destruct (i =? c) eqn:E2; [apply Z.eqb_eq in E2; lia|].
      destruct (c + 1 =? c) eqn:E3; [apply Z.eqb_eq in E3; lia|].
      destruct (i =? d) eqn:E4; [apply Z.eqb_eq in E4; lia|]. lia. }
    destruct (Z.eq_dec (aget (son t) i + 1) c) as [E1'|E1'].
    { rewrite E1' in *.
      destruct (c =? ROOT) eqn:ER; [apply Z.eqb_eq in ER; lia|].
      rewrite D, !Z.eqb_refl.
      destruct (i =? c) eqn:E2; [apply Z.eqb_eq in E2; lia|].
      destruct (aget (son t) i =? c) eqn:E3; [apply Z.eqb_eq in E3; lia|].
      destruct (i =? d) eqn:E4; [apply Z.eqb_eq in E4; lia|]. lia. }
    destruct (aget (son t) i =? c) eqn:E3; [apply Z.eqb_eq in E3; lia|].
    destruct (aget (son t) i + 1 =? c) eqn:E3'; [apply Z.eqb_eq in E3'; lia|].
    destruct (i =? c) eqn:E2.
    + apply Z.eqb_eq in E2. subst i.
      assert (d = c) by (destruct Hmode as [[_ ?]|[? _]]; [lia|assumption]).
      subst d. rewrite Z.eqb_refl in E.
      destruct (c =? ROOT) eqn:ER.
      * destruct (c =? -1) eqn:E5; [apply Z.eqb_eq in E5; lia|]. lia.
      * apply Z.eqb_neq in ER.
        destruct (inv_up _ _ Hinv c ltac:(lia)) as (U1 & _).
        destruct (c =? aget (parent t) c) eqn:E5; [apply Z.eqb_eq in E5; lia|].
        lia.
    + apply Z.eqb_neq in E2.
      assert (Hid : (i =? d) = false).
      { apply Z.eqb_neq. destruct Hmode as [[? _]|[? _]]; lia. }
      rewrite Hid in E.
      destruct (c =? ROOT) eqn:ER.
      * destruct (i =? -1) eqn:E5; [apply Z.eqb_eq in E5; lia|]. lia.
      * apply Z.eqb_neq in ER.
        destruct (inv_up _ _ Hinv c ltac:(lia)) as (U1 & U2 & U3).
        destruct (i =? aget (parent t) c) eqn:E5; [|lia].
        apply Z.eqb_eq in E5. subst i. exfalso. lia.
  - exact (inv_up _ _ Hinv).
  - exact (inv_sym _ _ Hinv).
  - unfold t1. rewrite leaf_total_set_freq
      by (try exact (inv_len_freq _ _ Hinv); exact Hc).
    rewrite (inv_total _ _ Hinv). rewrite incr_freq. unfold is_leaf, d1, k.
    destruct Hmode as [[Hd Hl]|[Hd Hl]].
    + pose proof (incr_mode_leaf_not_root Hl) as Hnr. subst d.
      destruct (TSIZE <=? aget (son t) c) eqn:E; [|apply Z.leb_gt in E; lia].
      destruct (c =? ROOT) eqn:ER; [apply Z.eqb_eq in ER; lia|].
      destruct (ROOT =? c) eqn:ER'; [apply Z.eqb_eq in ER'; lia|].
      destruct (inv_up _ _ Hinv c ltac:(lia)) as (U1 & _).
      destruct (0 <=? aget (parent t) c) eqn:E6; [|apply Z.leb_gt in E6; lia].
      cbn. lia.
    + subst d.
      destruct (TSIZE <=? aget (son t) c) eqn:E; [apply Z.leb_le in E; lia|].
      destruct (0 <=? c) eqn:E0; [|apply Z.leb_gt in E0; lia].
      destruct (c =? ROOT) eqn:ER.
      * apply Z.eqb_eq in ER. subst c. rewrite Z.eqb_refl. cbn. lia.
      * apply Z.eqb_neq in ER.
        destruct (ROOT =? c) eqn:ER'; [apply Z.eqb_eq in ER'; lia|].
        destruct (inv_up _ _ Hinv c ltac:(lia)) as (U1 & _).
        destruct (0 <=? aget (parent t) c) eqn:E6; [|apply Z.leb_gt in E6; lia].
        lia.
  - exact (inv_count _ _ Hinv).
Qed.

Lemma incr_sorted :
  forall i, 0 <= i < ROOT -> i <> c ->
            aget (freq t1) i <= aget (freq t1) (i + 1).
Proof.
  intros i Hi Hne. rewrite !incr_freq.
  destruct (i =? c) eqn:E; [apply Z.eqb_eq in E; lia|].
  specialize (Hsorted i Hi).
  destruct (i + 1 =? c) eqn:E2; [|exact Hsorted].
  apply Z.eqb_eq in E2. rewrite E2 in *. unfold k. lia.
Qed.
End Increment.

Lemma zsum_upd2 n lo g h c l :
  c <> l -> lo <= c < lo + Z.of_nat n -> lo <= l < lo + Z.of_nat n ->
  (forall x, lo <= x < lo + Z.of_nat n -> x <> c -> x <> l -> h x = g x) ->
  zsum lo n h = zsum lo n g - g c - g l + h c + h l.
Proof.
  intros Hne Hc Hl H.
  rewrite (zsum_upd n lo (fun x => if x =? c then h c else g x) h l Hl).
  - rewrite (zsum_upd n lo g (fun x => if x =? c then h c else g x) c Hc).
    + cbv beta. rewrite Z.eqb_refl.
      destruct (l =? c) eqn:E; [apply Z.eqb_eq in E; lia|]. lia.
    + intros x Hx Hxc. cbv beta.
      destruct (x =? c) eqn:E; [apply Z.eqb_eq in E; lia|]. reflexivity.
  - intros x Hx Hxl. cbv beta.
    destruct (x =? c) eqn:E; [apply Z.eqb_eq in E; now subst|].
    apply Z.eqb_neq in E. now apply H.
Qed.

Section Exchange.
Variable t : tree.
Variables c l k : Z.
Hypothesis Hinv : tree_inv (aget (parent t) c) t.
Hypothesis Hc : 0 <= c < ROOT.
Hypothesis Hl : c < l.
Hypothesis Hk : aget (freq t) c = k.
Hypothesis Hrun : forall x, c < x <= l -> aget (freq t) x = k - 1.
Hypothesis Hhigh : k <= aget (freq t) (l + 1).
Hypothesis Hprev : forall x, 0 <= x < c -> aget (freq t) x <= k - 1.
Hypothesis Hs : forall x, 0 <= x < ROOT -> x <> c ->
                          aget (freq t) x <= aget (freq t) (x + 1).

Let i := aget (son t) c.
Let j := aget (son t) l.
Let p := aget (parent t) c.
Let q := aget (parent t) l.
Let t2 := exchange c l k t.

Lemma ex_p : c < p <= ROOT /\ aget (son t) p < TSIZE /\
             (aget (son t) p = c \/ aget (son t) p + 1 = c) /\
             k <= aget (freq t) p.
Proof.
  consts. destruct (inv_up _ _ Hinv c Hc) as (U1 & U2 & U3). fold p in U1, U2, U3.
  repeat split; try assumption; try lia.
  destruct (inv_node _ _ Hinv p ltac:(lia) U2) as (A & B & _ & _ & E).
  fold p in E. rewrite Z.eqb_refl in E.
  pose proof (inv_pos _ _ Hinv (aget (son t) p) ltac:(lia)).
  pose proof (inv_pos _ _ Hinv (aget (son t) p + 1) ltac:(lia)).
  destruct U3 as [U3|U3]; rewrite U3 in *; lia.
Qed.

Lemma ex_l_lt_p : l < p.
Proof.
  destruct ex_p as (P1 & _ & _ & P4).
  destruct (Z_lt_dec l p) as [|Hn]; [assumption|].
  specialize (Hrun p ltac:(lia)). lia.
Qed.

Lemma ex_l : c < l < ROOT.
Proof. pose proof ex_l_lt_p. destruct ex_p as (P1 & _). lia. Qed.

Lemma ex_q : l < q <= ROOT /\ aget (son t) q < TSIZE /\
             (aget (son t) q = l \/ aget (son t) q + 1 = l).
Proof.
  pose proof ex_l. destruct (inv_up _ _ Hinv l ltac:(lia)) as (U1 & U2 & U3).
  fold q in U1, U2, U3. repeat split; try assumption; lia.
Qed.

(** The sons of [c]. *)
Lemma ex_i :
  (TSIZE <= i /\ i < TSIZE + N_CHAR /\ aget (parent t) i = c) \/
  (0 <= i /\ i + 1 < c /\ aget (parent t) i = c /\
   aget (parent t) (i + 1) = c /\
   k = aget (freq t) i + aget (freq t) (i + 1)).
Proof.
  consts. destruct (Z_le_dec TSIZE i) as [Hi|Hi].
  - left. destruct (inv_leaf _ _ Hinv c ltac:(lia) Hi) as (A & B). fold i in A, B.
    repeat split; assumption.
  - right. destruct (inv_node _ _ Hinv c ltac:(lia) ltac:(fold i; lia))
      as (A & B & C & D & E). fold i in A, B, C, D, E.
    destruct ex_p as (P1 & _). fold p in E.
    destruct (c =? p) eqn:E1; [apply Z.eqb_eq in E1; lia|].
    repeat split; try assumption. lia.
Qed.

(** The sons of [l]; they lie below [c]. *)
Lemma ex_j :
  (TSIZE <= j /\ j < TSIZE + N_CHAR /\ aget (parent t) j = l) \/
  (0 <= j /\ j + 1 < c /\ aget (parent t) j = l /\
   aget (parent t) (j + 1) = l /\
   k - 1 = aget (freq t) j + aget (freq t) (j + 1)).
Proof.
  consts. pose proof ex_l as Hl'. pose proof ex_l_lt_p as Hlp.
  destruct (Z_le_dec TSIZE j) as [Hj|Hj].
  - left. destruct (inv_leaf _ _ Hinv l ltac:(lia) Hj) as (A & B). fold j in A, B.
    repeat split; assumption.
  - right. destruct (inv_node _ _ Hinv l ltac:(lia) ltac:(fold j; lia))
      as (A & B & C & D & E). fold j in A, B, C, D, E. fold p in E.
    destruct (l =? p) eqn:E1; [apply Z.eqb_eq in E1; lia|].
    rewrite (Hrun l ltac:(lia)) in E.
    pose proof (inv_pos _ _ Hinv j ltac:(lia)).
    pose proof (inv_pos _ _ Hinv (j + 1) ltac:(lia)).
    assert (j + 1 < c).
    { destruct (Z_lt_dec (j + 1) c) as [|Hn]; [assumption|].
      destruct (Z.eq_dec (j + 1) c) as [E2|E2]; [rewrite E2 in *; lia|].
      specialize (Hrun (j + 1) ltac:(lia)). lia. }
    repeat split; try assumption; lia.
Qed.

Lemma ex_son x :
  aget (son t2) x = if x =? c then j else if x =? l then i else aget (son t) x.
Proof.
  consts. pose proof ex_l as Hl'.
  assert (Hlen : alen (son t) = TSIZE) by exact (inv_len_son _ _ Hinv).
  unfold t2, exchange. cbv zeta. cbn [son parent freq set_parent set_son set_freq].
  fold i. destruct (i <? TSIZE); cbn [son parent freq set_parent set_son set_freq]; fold j;
    destruct (j <? TSIZE); cbn [son parent freq set_parent set_son set_freq];
    rewrite aget_aset by (rewrite alen_aset; lia);
    rewrite aget_aset by lia; reflexivity.
Qed.

Lemma ex_freq x :
  aget (freq t2) x
    = if x =? l then k else if x =? c then k - 1 else aget (freq t) x.
Proof.
  consts. pose proof ex_l as Hl'.
  assert (Hlen : alen (freq t) = TSIZE + 1) by exact (inv_len_freq _ _ Hinv).
  unfold t2, exchange. cbv zeta. cbn [son parent freq set_parent set_son set_freq].
  fold i. destruct (i <? TSIZE); cbn [son parent freq set_parent set_son set_freq]; fold j;
    destruct (j <? TSIZE); cbn [son parent freq set_parent set_son set_freq];
    rewrite aget_aset by (rewrite alen_aset; lia);
    rewrite aget_aset by lia; rewrite (Hrun l ltac:(lia)); reflexivity.
Qed.

Lemma ex_parent x :
  aget (parent t2) x
    = if (x =? j) || ((j <? TSIZE) && (x =? j + 1)) then c
      else if (x =? i) || ((i <? TSIZE) && (x =? i + 1)) then l
      else aget (parent t) x.
Proof.
  consts. pose proof ex_l as Hl'.
  assert (Hlen : alen (parent t) = TSIZE + N_CHAR) by exact (inv_len_parent _ _ Hinv).
  unfold t2, exchange. cbv zeta. cbn [son parent freq set_parent set_son set_freq].
  fold i.
  destruct ex_i as [(I1 & I2 & I3)|(I1 & I2 & I3 & I4 & I5)];
  destruct ex_j as [(J1 & J2 & J3)|(J1 & J2 & J3 & J4 & J5)].
  - destruct (i <? TSIZE) eqn:Ei; [apply Z.ltb_lt in Ei; lia|].
    cbn [son parent freq set_parent set_son set_freq]. fold j.
    destruct (j <? TSIZE) eqn:Ej; [apply Z.ltb_lt in Ej; lia|].
    cbn [son parent freq set_parent set_son set_freq]. rewrite !andb_false_l, !orb_false_r.
    rewrite aget_aset by (rewrite alen_aset; lia).
    rewrite aget_aset by lia. reflexivity.
  - destruct (i <? TSIZE) eqn:Ei; [apply Z.ltb_lt in Ei; lia|].
    cbn [son parent freq set_parent set_son set_freq]. fold j.
    destruct (j <? TSIZE) eqn:Ej; [|apply Z.ltb_ge in Ej; lia].
    cbn [son parent freq set_parent set_son set_freq]. rewrite andb_false_l, andb_true_l, orb_false_r.
    rewrite aget_aset by (rewrite !alen_aset; lia).
    rewrite aget_aset by (rewrite !alen_aset; lia).
    rewrite aget_aset by lia.
    destruct (x =? j + 1); destruct (x =? j); reflexivity.
  - destruct (i <? TSIZE) eqn:Ei; [|apply Z.ltb_ge in Ei; lia].
    cbn [son parent freq set_parent set_son set_freq]. fold j.
    destruct (j <? TSIZE) eqn:Ej; [apply Z.ltb_lt in Ej; lia|].
    cbn [son parent freq set_parent set_son set_freq]. rewrite andb_false_l, andb_true_l, orb_false_r.
    rewrite aget_aset by (rewrite !alen_aset; lia).
    rewrite aget_aset by (rewrite !alen_aset; lia).
    rewrite aget_aset by lia.
    destruct (x =? j); destruct (x =? i + 1); destruct (x =? i); reflexivity.
  - destruct (i <? TSIZE) eqn:Ei; [|apply Z.ltb_ge in Ei; lia].
    cbn [son parent freq set_parent set_son set_freq]. fold j.
    destruct (j <? TSIZE) eqn:Ej; [|apply Z.ltb_ge in Ej; lia].
    cbn [son parent freq set_parent set_son set_freq]. rewrite !andb_true_l.
    rewrite aget_aset by (rewrite !alen_aset; lia).
    rewrite aget_aset by (rewrite !alen_aset; lia).
    rewrite aget_aset by (rewrite !alen_aset; lia).
    rewrite aget_aset by lia.
    destruct (x =? j + 1); destruct (x =? j); destruct (x =? i + 1);
      destruct (x =? i); reflexivity.
Qed.

Ltac ex_facts :=
  consts; pose proof ex_l as Hl'; pose proof ex_q as (Q1 & Q2 & Q3);
  pose proof ex_p as (P1 & P2 & P3 & P4);
  pose proof ex_i as HI; pose proof ex_j as HJ.

Ltac split_tests :=
  repeat match goal with
    | |- context [Z.eqb ?a ?b] => destruct (Z.eqb_spec a b)
    | |- context [Z.ltb ?a ?b] => destruct (Z.ltb_spec a b)
    | |- context [Z.leb ?a ?b] => destruct (Z.leb_spec a b)
    end; cbn [orb andb].

Lemma ex_lengths :
  alen (parent t2) = TSIZE + N_CHAR /\ alen (son t2) = TSIZE /\
  alen (freq t2) = TSIZE + 1.
Proof.
  unfold t2, exchange. cbv zeta.
  cbn [son parent freq set_parent set_son set_freq].
  destruct (_ <? TSIZE); cbn [son parent freq set_parent set_son set_freq];
    destruct (_ <? TSIZE); cbn [son parent freq set_parent set_son set_freq];
    rewrite !alen_aset;
    (split; [exact (inv_len_parent _ _ Hinv)|
             split; [exact (inv_len_son _ _ Hinv)|exact (inv_len_freq _ _ Hinv)]]).
Qed.

Ltac by_rewriting :=
  try lia; try congruence;
  match goal with
  | e : _ = _ |- _ => rewrite e in *; lia
  | e : _ = _ |- _ => rewrite <- e in *; lia
  end.

(** The sons of [c] and the sons of [l] are four different nodes. *)
Lemma ex_sons_apart :
  i <> j /\ (i < TSIZE -> i + 1 <> j) /\ (j < TSIZE -> i <> j + 1).
Proof.
  ex_facts.
  destruct HI as [(I1 & I2 & I3)|(I1 & I2 & I3 & I4 & I5)];
  destruct HJ as [(J1 & J2 & J3)|(J1 & J2 & J3 & J4 & J5)];
    repeat split; intros; try lia; intros E; rewrite ?E in *; try lia;
    try (rewrite <- E in *; lia).
Qed.

Lemma ex_parent_i : aget (parent t2) i = l.
Proof.
  ex_facts. destruct ex_sons_apart as (A1 & A2 & A3). rewrite ex_parent.
  destruct (i =? j) eqn:E1; [apply Z.eqb_eq in E1; lia|].
  destruct ((j <? TSIZE) && (i =? j + 1)) eqn:E2.
  { apply andb_true_iff in E2. destruct E2 as [E2 E3].
    apply Z.ltb_lt in E2. apply Z.eqb_eq in E3. specialize (A3 E2). lia. }
  cbn [orb]. now rewrite Z.eqb_refl.
Qed.

Lemma ex_parent_i1 : i < TSIZE -> aget (parent t2) (i + 1) = l.
Proof.
  ex_facts. destruct ex_sons_apart as (A1 & A2 & A3). intros Hi.
  rewrite ex_parent.
  destruct (i + 1 =? j) eqn:E1; [apply Z.eqb_eq in E1; specialize (A2 Hi); lia|].
  destruct ((j <? TSIZE) && (i + 1 =? j + 1)) eqn:E2.
  { apply andb_true_iff in E2. destruct E2 as [E2 E3].
    apply Z.eqb_eq in E3. lia. }
  cbn [orb]. destruct (i <? TSIZE) eqn:E3; [|apply Z.ltb_ge in E3; lia].
  rewrite Z.eqb_refl. now rewrite orb_true_r.
Qed.

Lemma ex_parent_j : aget (parent t2) j = c.
Proof. rewrite ex_parent. now rewrite Z.eqb_refl. Qed.

Lemma ex_parent_j1 : j < TSIZE -> aget (parent t2) (j + 1) = c.
Proof.
  intros Hj. rewrite ex_parent.
  destruct (j <? TSIZE) eqn:E3; [|apply Z.ltb_ge in E3; lia].
  rewrite Z.eqb_refl. now rewrite orb_true_r.
Qed.

(** The parent of every other node is unchanged. *)
Lemma ex_parent_other x :
  x <> i -> x <> j -> (i < TSIZE -> x <> i + 1) -> (j < TSIZE -> x <> j + 1) ->
  aget (parent t2) x = aget (parent t) x.
Proof.
  intros H1 H2 H3 H4. rewrite ex_parent.
  destruct (x =? j) eqn:E1; [apply Z.eqb_eq in E1; lia|].
  destruct (x =? i) eqn:E2; [apply Z.eqb_eq in E2; lia|].
  destruct (j <? TSIZE) eqn:E3.
  - apply Z.ltb_lt in E3. specialize (H4 E3).
    destruct (x =? j + 1) eqn:E4; [apply Z.eqb_eq in E4; lia|].
    destruct (i <? TSIZE) eqn:E5; [|reflexivity].
    apply Z.ltb_lt in E5. specialize (H3 E5).
    destruct (x =? i + 1) eqn:E6; [apply Z.eqb_eq in E6; lia|]. reflexivity.
  - destruct (i <? TSIZE) eqn:E5; [|reflexivity].
    apply Z.ltb_lt in E5. specialize (H3 E5).
    destruct (x =? i + 1) eqn:E6; [apply Z.eqb_eq in E6; lia|]. reflexivity.
Qed.

(** A slot other than [c] and [l] keeps its sons, and they are not among
    the sons of [c] and [l]. *)
Lemma ex_other_son x :
  0 <= x < TSIZE -> x <> c -> x <> l ->
  aget (son t) x <> i /\ aget (son t) x <> j /\
  (i < TSIZE -> aget (son t) x <> i + 1) /\
  (j < TSIZE -> aget (son t) x <> j + 1) /\
  (aget (son t) x < TSIZE ->
   aget (son t) x + 1 <> i /\ aget (son t) x + 1 <> j /\
   (i < TSIZE -> aget (son t) x + 1 <> i + 1) /\
   (j < TSIZE -> aget (son t) x + 1 <> j + 1)).
Proof.
  ex_facts. intros Hx Hxc Hxl.
  destruct (Z_le_dec TSIZE (aget (son t) x)) as [Hleaf|Hnode].
  - destruct (inv_leaf _ _ Hinv x Hx Hleaf) as (A & B).
    destruct HI as [(I1 & I2 & I3)|(I1 & I2 & I3 & I4 & I5)];
    destruct HJ as [(J1 & J2 & J3)|(J1 & J2 & J3 & J4 & J5)];
      repeat split; intros; try lia; intros E; rewrite E in *; lia.
  - destruct (inv_node _ _ Hinv x Hx ltac:(lia)) as (A & B & C & D & _).
    destruct HI as [(I1 & I2 & I3)|(I1 & I2 & I3 & I4 & I5)];
    destruct HJ as [(J1 & J2 & J3)|(J1 & J2 & J3 & J4 & J5)];
      repeat split; intros; try lia; intros E;
      try (rewrite E in *; lia);
      try (assert (E' : aget (son t) x = i) by lia; rewrite E' in *; lia);
      try (assert (E' : aget (son t) x = j) by lia; rewrite E' in *; lia).
Qed.

Lemma ex_freq_low x : 0 <= x < c -> aget (freq t2) x = aget (freq t) x.
Proof.
  intros Hx. rewrite ex_freq.
  destruct (x =? l) eqn:E1; [apply Z.eqb_eq in E1; lia|].
  destruct (x =? c) eqn:E2; [apply Z.eqb_eq in E2; lia|]. reflexivity.
Qed.

Lemma ex_inv_leaf x :
  0 <= x < TSIZE -> TSIZE <= aget (son t2) x ->
  aget (son t2) x < TSIZE + N_CHAR /\ aget (parent t2) (aget (son t2) x) = x.
Proof.
  ex_facts. intros Hx. rewrite !ex_son.
  destruct (Z.eq_dec x c) as [->|Hxc]; [|destruct (Z.eq_dec x l) as [->|Hxl]].
  - rewrite Z.eqb_refl. intros Hleaf. rewrite ex_parent_j.
    destruct HJ as [(J1 & J2 & J3)|(J1 & J2 & J3 & J4 & J5)]; [|lia].
    split; [lia|reflexivity].
  - destruct (l =? c) eqn:E; [apply Z.eqb_eq in E; lia|]. rewrite Z.eqb_refl.
    intros Hleaf. rewrite ex_parent_i.
    destruct HI as [(I1 & I2 & I3)|(I1 & I2 & I3 & I4 & I5)]; [|lia].
    split; [lia|reflexivity].
  - destruct (x =? c) eqn:E; [apply Z.eqb_eq in E; lia|].
    destruct (x =? l) eqn:E'; [apply Z.eqb_eq in E'; lia|].
    intros Hleaf. destruct (inv_leaf _ _ Hinv x Hx Hleaf) as (A & B).
    destruct (ex_other_son x Hx Hxc Hxl) as (O1 & O2 & O3 & O4 & _).
    rewrite ex_parent_other by assumption. split; assumption.
Qed.

(** The arithmetic of the sum of the sons of a slot [x] other than [c]
    and [l]: [bp] and [bq] tell whether [x] is the parent of [c] and of
    [l]. *)
Lemma ex_sum_arith (s fx fs fs1 bp bq : Z) :
  c < l ->
  ((bp = 1 /\ (s = c \/ s + 1 = c)) \/ (bp = 0 /\ s <> c /\ s + 1 <> c)) ->
  ((bq = 1 /\ (s = l \/ s + 1 = l)) \/ (bq = 0 /\ s <> l /\ s + 1 <> l)) ->
  (s = c -> fs = k) -> (s + 1 = c -> fs1 = k) ->
  (s = l -> fs = k - 1) -> (s + 1 = l -> fs1 = k - 1) ->
  fx + bp = fs + fs1 ->
  fx + bq
    = (if s =? l then k else if s =? c then k - 1 else fs)
      + (if s + 1 =? l then k else if s + 1 =? c then k - 1 else fs1).
Proof.
  clear. intros Hcl Hp Hq F1 F2 F3 F4 S.
  destruct (Z.eqb_spec s l); destruct (Z.eqb_spec s c);
    destruct (Z.eqb_spec (s + 1) l); destruct (Z.eqb_spec (s + 1) c);
    try lia.
Qed.

Lemma ex_inv_node x :
  0 <= x < TSIZE -> aget (son t2) x < TSIZE ->
  0 <= aget (son t2) x /\ aget (son t2) x + 1 < x /\
  aget (parent t2) (aget (son t2) x) = x /\
  aget (parent t2) (aget (son t2) x + 1) = x /\
  aget (freq t2) x + (if x =? q then 1 else 0)
    = aget (freq t2) (aget (son t2) x) + aget (freq t2) (aget (son t2) x + 1).
Proof.
  ex_facts. intros Hx. rewrite !ex_son.
  destruct (Z.eq_dec x c) as [->|Hxc]; [|destruct (Z.eq_dec x l) as [->|Hxl]].
  - rewrite Z.eqb_refl. intros Hnode.
    destruct HJ as [(J1 & J2 & J3)|(J1 & J2 & J3 & J4 & J5)]; [lia|].
    rewrite ex_parent_j, ex_parent_j1 by lia.
    rewrite (ex_freq_low j), (ex_freq_low (j + 1)) by lia. rewrite ex_freq.
    destruct (c =? l) eqn:E1; [apply Z.eqb_eq in E1; lia|].
    rewrite Z.eqb_refl.
    destruct (c =? q) eqn:E2; [apply Z.eqb_eq in E2; lia|].
    repeat split; lia.
  - destruct (l =? c) eqn:E; [apply Z.eqb_eq in E; lia|]. rewrite Z.eqb_refl.
    intros Hnode.
    destruct HI as [(I1 & I2 & I3)|(I1 & I2 & I3 & I4 & I5)]; [lia|].
    rewrite ex_parent_i, ex_parent_i1 by lia.
    rewrite (ex_freq_low i), (ex_freq_low (i + 1)) by lia.
    rewrite ex_freq. rewrite Z.eqb_refl.
    destruct (l =? q) eqn:E2; [apply Z.eqb_eq in E2; lia|].
    repeat split; lia.
  - destruct (x =? c) eqn:E; [apply Z.eqb_eq in E; lia|].
    destruct (x =? l) eqn:E'; [apply Z.eqb_eq in E'; lia|].
    intros Hnode.
    destruct (inv_node _ _ Hinv x Hx Hnode) as (A & B & C & D & S).
    destruct (ex_other_son x Hx Hxc Hxl) as (O1 & O2 & O3 & O4 & O5).
    destruct (O5 Hnode) as (O6 & O7 & O8 & O9).
    rewrite !ex_parent_other by assumption.
    clear O1 O2 O3 O4 O5 O6 O7 O8 O9 HI HJ.
    repeat split; try assumption.
    fold p in S. rewrite !ex_freq. rewrite E, E'.
    apply (ex_sum_arith (aget (son t) x) (aget (freq t) x)
             (aget (freq t) (aget (son t) x))
             (aget (freq t) (aget (son t) x + 1))
             (if x =? p then 1 else 0) (if x =? q then 1 else 0)).
    + exact Hl.
    + destruct (Z.eqb_spec x p) as [Ep|Ep].
      * left. split; [reflexivity|]. rewrite Ep. exact P3.
      * right. split; [reflexivity|]. split; intros E1; apply Ep.
        -- rewrite E1 in C. unfold p. now rewrite C.
        -- rewrite E1 in D. unfold p. now rewrite D.
    + destruct (Z.eqb_spec x q) as [Eq|Eq].
      * left. split; [reflexivity|]. rewrite Eq. exact Q3.
      * right. split; [reflexivity|]. split; intros E1; apply Eq.
        -- rewrite E1 in C. unfold q. now rewrite C.
        -- rewrite E1 in D. unfold q. now rewrite D.
    + intros E1. rewrite E1. exact Hk.
    + intros E1. rewrite E1. exact Hk.
    + intros E1. rewrite E1. apply Hrun. lia.
    + intros E1. rewrite E1. apply Hrun. lia.
    + exact S.
Qed.

Lemma ex_inv_up x :
  0 <= x < ROOT ->
  x < aget (parent t2) x <= ROOT /\
  aget (son t2) (aget (parent t2) x) < TSIZE /\
  (aget (son t2) (aget (parent t2) x) = x \/
   aget (son t2) (aget (parent t2) x) + 1 = x).
Proof.
  ex_facts. intros Hx.
  assert (Sc : aget (son t2) c = j) by (rewrite ex_son; now rewrite Z.eqb_refl).
  assert (Sl : aget (son t2) l = i).
  { rewrite ex_son. destruct (l =? c) eqn:E; [apply Z.eqb_eq in E; lia|].
    now rewrite Z.eqb_refl. }
  destruct (Z.eq_dec x i) as [Ei|Ei].
  { rewrite Ei, ex_parent_i, Sl.
    destruct HI as [(I1 & I2 & I3)|(I1 & I2 & I3 & I4 & I5)]; lia. }
  destruct (Z.eq_dec x j) as [Ej|Ej].
  { rewrite Ej, ex_parent_j, Sc.
    destruct HJ as [(J1 & J2 & J3)|(J1 & J2 & J3 & J4 & J5)]; lia. }
  destruct (Z_lt_dec i TSIZE) as [Hi|Hi]; [destruct (Z.eq_dec x (i + 1)) as [Ei1|Ei1]|].
  { rewrite Ei1, ex_parent_i1, Sl by exact Hi.
    destruct HI as [(I1 & I2 & I3)|(I1 & I2 & I3 & I4 & I5)]; lia. }
  - destruct (Z_lt_dec j TSIZE) as [Hj|Hj];
      [destruct (Z.eq_dec x (j + 1)) as [Ej1|Ej1]|].
    { rewrite Ej1, ex_parent_j1, Sc by exact Hj.
      destruct HJ as [(J1 & J2 & J3)|(J1 & J2 & J3 & J4 & J5)]; lia. }
    + rewrite ex_parent_other by (intros; assumption).
      destruct (inv_up _ _ Hinv x Hx) as (U1 & U2 & U3).
      rewrite ex_son.
      destruct (Z.eqb_spec (aget (parent t) x) c) as [E1|E1];
        [rewrite E1 in U3; fold i in U3; lia|].
      destruct (Z.eqb_spec (aget (parent t) x) l) as [E2|E2];
        [rewrite E2 in U3; fold j in U3; lia|].
      repeat split; assumption || lia.
    + rewrite ex_parent_other by (intros; assumption || lia).
      destruct (inv_up _ _ Hinv x Hx) as (U1 & U2 & U3).
      rewrite ex_son.
      destruct (Z.eqb_spec (aget (parent t) x) c) as [E1|E1];
        [rewrite E1 in U3; fold i in U3; lia|].
      destruct (Z.eqb_spec (aget (parent t) x) l) as [E2|E2];
        [rewrite E2 in U2, U3; fold j in U2, U3; lia|].
      repeat split; assumption || lia.
  - destruct (Z_lt_dec j TSIZE) as [Hj|Hj];
      [destruct (Z.eq_dec x (j + 1)) as [Ej1|Ej1]|].
    { rewrite Ej1, ex_parent_j1, Sc by exact Hj.
      destruct HJ as [(J1 & J2 & J3)|(J1 & J2 & J3 & J4 & J5)]; lia. }
    + rewrite ex_parent_other by (intros; assumption || lia).
      destruct (inv_up _ _ Hinv x Hx) as (U1 & U2 & U3).
      rewrite ex_son.
      destruct (Z.eqb_spec (aget (parent t) x) c) as [E1|E1];
        [rewrite E1 in U2, U3; fold i in U2, U3; lia|].
      destruct (Z.eqb_spec (aget (parent t) x) l) as [E2|E2];
        [rewrite E2 in U3; fold j in U3; lia|].
      repeat split; assumption || lia.
    + rewrite ex_parent_other by (intros; assumption || lia).
      destruct (inv_up _ _ Hinv x Hx) as (U1 & U2 & U3).
      rewrite ex_son.
      destruct (Z.eqb_spec (aget (parent t) x) c) as [E1|E1];
        [rewrite E1 in U2, U3; fold i in U2, U3; lia|].
      destruct (Z.eqb_spec (aget (parent t) x) l) as [E2|E2];
        [rewrite E2 in U2, U3; fold j in U2, U3; lia|].
      repeat split; assumption || lia.
Qed.

Lemma ex_inv_sym s :
  0 <= s < N_CHAR ->
  0 <= aget (parent t2) (s + TSIZE) < TSIZE /\
  aget (son t2) (aget (parent t2) (s + TSIZE)) = s + TSIZE.
Proof.
  ex_facts. intros Hs'.
  assert (Sc : aget (son t2) c = j) by (rewrite ex_son; now rewrite Z.eqb_refl).
  assert (Sl : aget (son t2) l = i).
  { rewrite ex_son. destruct (l =? c) eqn:E; [apply Z.eqb_eq in E; lia|].
    now rewrite Z.eqb_refl. }
  destruct (Z.eq_dec (s + TSIZE) i) as [Ei|Ei].
  { rewrite Ei, ex_parent_i, Sl. lia. }
  destruct (Z.eq_dec (s + TSIZE) j) as [Ej|Ej].
  { rewrite Ej, ex_parent_j, Sc. lia. }
  assert (Hi1 : i < TSIZE -> s + TSIZE <> i + 1).
  { destruct HI as [(I1 & I2 & I3)|(I1 & I2 & I3 & I4 & I5)]; lia. }
  assert (Hj1 : j < TSIZE -> s + TSIZE <> j + 1).
  { destruct HJ as [(J1 & J2 & J3)|(J1 & J2 & J3 & J4 & J5)]; lia. }
  rewrite ex_parent_other by assumption.
  destruct (inv_sym _ _ Hinv s Hs') as (Y1 & Y2).
  rewrite ex_son.
  destruct (Z.eqb_spec (aget (parent t) (s + TSIZE)) c) as [E1|E1];
    [rewrite E1 in Y2; fold i in Y2; lia|].
  destruct (Z.eqb_spec (aget (parent t) (s + TSIZE)) l) as [E2|E2];
    [rewrite E2 in Y2; fold j in Y2; lia|].
  split; assumption.
Qed.

Lemma ex_leaf_total : leaf_total t2 = leaf_total t.
Proof.
  ex_facts. unfold leaf_total.
  rewrite (zsum_upd2 _ 0 (fun x => if is_leaf t x then aget (freq t) x else 0)
             _ c l); try lia.
  - cbv beta. unfold is_leaf. rewrite !ex_son, !ex_freq.
    rewrite !Z.eqb_refl.
    destruct (c =? l) eqn:E1; [apply Z.eqb_eq in E1; lia|].
    destruct (l =? c) eqn:E2; [apply Z.eqb_eq in E2; lia|].
    fold i j. rewrite Hk, (Hrun l) by lia. lia.
  - intros x Hx Hxc Hxl. unfold is_leaf. rewrite ex_son, ex_freq.
    destruct (x =? c) eqn:E1; [apply Z.eqb_eq in E1; lia|].
    destruct (x =? l) eqn:E2; [apply Z.eqb_eq in E2; lia|]. reflexivity.
Qed.

Lemma ex_leaf_count : leaf_count t2 = leaf_count t.
Proof.
  ex_facts. unfold leaf_count.
  rewrite (zsum_upd2 _ 0 (fun x => if is_leaf t x then 1 else 0) _ c l); try lia.
  - cbv beta. unfold is_leaf. rewrite !ex_son.
    rewrite !Z.eqb_refl.
    destruct (l =? c) eqn:E2; [apply Z.eqb_eq in E2; lia|].
    fold i j. lia.
  - intros x Hx Hxc Hxl. unfold is_leaf. rewrite ex_son.
    destruct (x =? c) eqn:E1; [apply Z.eqb_eq in E1; lia|].
    destruct (x =? l) eqn:E2; [apply Z.eqb_eq in E2; lia|]. reflexivity.
Qed.

Lemma exchange_parent_l : aget (parent t2) l = q.
Proof.
  ex_facts. apply ex_parent_other.
  - destruct HI as [(I1 & I2 & I3)|(I1 & I2 & I3 & I4 & I5)]; lia.
  - destruct HJ as [(J1 & J2 & J3)|(J1 & J2 & J3 & J4 & J5)]; [lia|].
    destruct (inv_node _ _ Hinv l ltac:(lia) ltac:(fold j; lia)) as (_ & B & _).
    fold j in B. lia.
  - destruct HI as [(I1 & I2 & I3)|(I1 & I2 & I3 & I4 & I5)]; lia.
  - destruct HJ as [(J1 & J2 & J3)|(J1 & J2 & J3 & J4 & J5)]; lia.
Qed.

Lemma exchange_root_freq : aget (freq t2) ROOT = aget (freq t) ROOT.
Proof.
  ex_facts. rewrite ex_freq.
  destruct (ROOT =? l) eqn:E1; [apply Z.eqb_eq in E1; lia|].
  destruct (ROOT =? c) eqn:E2; [apply Z.eqb_eq in E2; lia|]. reflexivity.
Qed.

Lemma exchange_inv : tree_inv q t2.
Proof.
  ex_facts. destruct ex_lengths as (L1 & L2 & L3).
  split; try assumption.
  - rewrite ex_freq.
    destruct (TSIZE =? l) eqn:E1; [apply Z.eqb_eq in E1; lia|].
    destruct (TSIZE =? c) eqn:E2; [apply Z.eqb_eq in E2; lia|].
    exact (inv_sentinel _ _ Hinv).
  - rewrite ex_parent_other.
    + exact (inv_root _ _ Hinv).
    + destruct HI as [(I1 & I2 & I3)|(I1 & I2 & I3 & I4 & I5)]; lia.
    + destruct HJ as [(J1 & J2 & J3)|(J1 & J2 & J3 & J4 & J5)]; lia.
    + destruct HI as [(I1 & I2 & I3)|(I1 & I2 & I3 & I4 & I5)]; lia.
    + destruct HJ as [(J1 & J2 & J3)|(J1 & J2 & J3 & J4 & J5)]; lia.
  - intros x Hx. rewrite ex_freq.
    pose proof (inv_pos _ _ Hinv x Hx). pose proof (inv_pos _ _ Hinv c ltac:(lia)).
    pose proof (inv_pos _ _ Hinv l ltac:(lia)) as Hpl.
    rewrite (Hrun l) in Hpl by lia.
    destruct (x =? l); [lia|]. destruct (x =? c); lia.
  - exact ex_inv_leaf.
  - exact ex_inv_node.
  - exact ex_inv_up.
  - exact ex_inv_sym.
  - rewrite ex_leaf_total, exchange_root_freq, (inv_total _ _ Hinv).
    fold p. destruct (0 <=? p) eqn:E1; [|apply Z.leb_gt in E1; lia].
    destruct (0 <=? q) eqn:E2; [|apply Z.leb_gt in E2; lia]. reflexivity.
  - rewrite ex_leaf_count. exact (inv_count _ _ Hinv).
Qed.

Lemma exchange_sorted : sorted t2.
Proof.
  ex_facts. clear HI HJ. intros x Hx. rewrite !ex_freq.
  pose proof (Hs x Hx) as S1.
  destruct (Z_lt_dec x c) as [Hxc|Hxc].
  - pose proof (Hprev x ltac:(lia)) as S2.
    destruct (x =? l) eqn:E1; [apply Z.eqb_eq in E1; lia|].
    destruct (x =? c) eqn:E2; [apply Z.eqb_eq in E2; lia|].
    destruct (x + 1 =? l) eqn:E3; [apply Z.eqb_eq in E3; lia|].
    destruct (x + 1 =? c) eqn:E4; [lia|]. apply S1. lia.
  - destruct (Z_le_dec x l) as [Hxl|Hxl].
    + destruct (x =? l) eqn:E1.
      * apply Z.eqb_eq in E1. subst x.
        destruct (l + 1 =? l) eqn:E3; [apply Z.eqb_eq in E3; lia|].
        destruct (l + 1 =? c) eqn:E4; [apply Z.eqb_eq in E4; lia|]. exact Hhigh.
      * apply Z.eqb_neq in E1.
        assert (Hx1 : aget (freq t) (x + 1) = k - 1) by (apply Hrun; lia).
        destruct (x =? c) eqn:E2.
        -- destruct (x + 1 =? l); [lia|].
           destruct (x + 1 =? c) eqn:E4; [apply Z.eqb_eq in E4; lia|]. lia.
        -- apply Z.eqb_neq in E2.
           rewrite (Hrun x) by lia.
           destruct (x + 1 =? l); [lia|].
           destruct (x + 1 =? c) eqn:E4; [apply Z.eqb_eq in E4; lia|]. lia.
    + destruct (x =? l) eqn:E1; [apply Z.eqb_eq in E1; lia|].
      destruct (x =? c) eqn:E2; [apply Z.eqb_eq in E2; lia|].
      destruct (x + 1 =? l) eqn:E3; [apply Z.eqb_eq in E3; lia|].
      destruct (x + 1 =? c) eqn:E4; [apply Z.eqb_eq in E4; lia|].
      apply S1. lia.
Qed.
End Exchange.

Lemma scan_up_spec fr k fuel : forall l hi,
  0 <= l -> l < hi -> hi < 2 ^ 32 -> k <= aget fr hi ->
  hi - l <= Z.of_nat fuel ->
  exists l1, scan_up fuel k l fr = Some l1 /\ l < l1 <= hi /\
             k <= aget fr l1 /\
             forall x, l < x < l1 -> aget fr x < k.
Proof.
  induction fuel as [|fuel IH]; intros l hi Hl Hlh Hhi Hk Hf; [lia|].
  cbn [scan_up]. rewrite u32_small by lia.
  destruct (k >? aget fr (l + 1)) eqn:E.
  - assert (l + 1 <> hi) by (intros E'; rewrite E' in E; lia).
    destruct (IH (l + 1) hi) as (l1 & H1 & H2 & H3 & H4); try lia.
    exists l1. repeat split; try assumption; try lia.
    intros x Hx. destruct (Z.eq_dec x (l + 1)) as [->|Hne]; [lia|].
    apply H4. lia.
  - exists (l + 1). repeat split; lia.
Qed.

(** One pass of the loop of [update]: the node [c] gains one and, where
    the order demands it, changes places with the last node of its
    frequency; the invariant then holds with the parent of the node the
    pass ends on as the node still to be incremented. *)
Lemma bump_node_spec fuel c d t :
  tree_inv d t -> sorted t -> 0 <= c < TSIZE ->
  (d = -1 /\ TSIZE <= aget (son t) c) \/ (d = c /\ aget (son t) c < TSIZE) ->
  aget (freq t) ROOT < MAX_FREQ ->
  (Z.to_nat TSIZE <= fuel)%nat ->
  exists c1 t1,
    bump_node fuel c t = Some (c1, t1) /\ c <= c1 < TSIZE /\ sorted t1 /\
    ((c1 = ROOT /\ tree_inv (-1) t1 /\
      aget (freq t1) ROOT = aget (freq t) ROOT + 1) \/
     (c1 < ROOT /\ tree_inv (aget (parent t1) c1) t1 /\
      aget (freq t1) ROOT = aget (freq t) ROOT)).
Proof.
  intros Hinv Hsorted Hc Hmode Hroot Hfuel. consts.
  pose proof (sorted_le t Hsorted c ROOT ltac:(lia) ltac:(lia) ltac:(lia)) as Hcr.
  pose proof (inv_pos _ _ Hinv c Hc) as Hcpos.
  pose proof (incr_inv t c d Hinv Hc Hmode) as Hinv1.
  pose proof (incr_sorted t c d Hinv Hsorted Hc) as Hs1.
  pose proof (incr_freq t c d Hinv Hc) as Hf1.
  unfold bump_node. cbv zeta.
  rewrite (u32_small (aget (freq t) c + 1)) by lia.
  rewrite (u32_small (c + 1)) by lia.
  set (k := aget (freq t) c + 1) in *.
  set (t1 := set_freq c k t) in *.
  destruct (k >? aget (freq t1) (c + 1)) eqn:Etest.
  - (* the node changes places *)
    assert (Hcr' : c < ROOT).
    { destruct (Z.eq_dec c ROOT) as [E|E]; [|lia].
      rewrite Hf1 in Etest.
      destruct (c + 1 =? c) eqn:E1; [apply Z.eqb_eq in E1; lia|].
      replace (c + 1) with TSIZE in Etest by lia.
      rewrite (inv_sentinel _ _ Hinv) in Etest. lia. }
    destruct (c =? ROOT) eqn:ER; [apply Z.eqb_eq in ER; lia|].
    assert (Hk1 : aget (freq t1) c = k) by (rewrite Hf1; now rewrite Z.eqb_refl).
    change (parent t) with (parent t1) in Hinv1.
    destruct (ex_p t1 c 0 k Hinv1 ltac:(lia) Hk1) as (P1 & P2 & P3 & P4).
    destruct (scan_up_spec (freq t1) k fuel (c + 1) (aget (parent t1) c))
      as (l1 & Hscan & Hl1 & Hk2 & Hbelow); try lia.
    { destruct (Z.eq_dec (aget (parent t1) c) (c + 1)) as [E|E]; [|lia].
      rewrite E in P4. lia. }
    rewrite Hscan. rewrite (u32_small (l1 - 1)) by lia.
    set (l := l1 - 1) in *.
    assert (Hrun : forall x, c < x <= l -> aget (freq t1) x = k - 1).
    { intros x Hx.
      assert (aget (freq t1) x < k).
      { destruct (Z.eq_dec x (c + 1)) as [->|Hne]; [lia|]. apply Hbelow. lia. }
      pose proof (sorted_le t Hsorted c x ltac:(lia) ltac:(lia) ltac:(lia)).
      rewrite Hf1 in *. destruct (x =? c) eqn:E; [apply Z.eqb_eq in E; lia|].
      unfold k in *. lia. }
    assert (Hhigh : k <= aget (freq t1) (l + 1))
      by (replace (l + 1) with l1 by (unfold l; lia); exact Hk2).
    assert (Hprev : forall x, 0 <= x < c -> aget (freq t1) x <= k - 1).
    { intros x Hx. rewrite Hf1.
      destruct (x =? c) eqn:E; [apply Z.eqb_eq in E; lia|].
      pose proof (sorted_le t Hsorted x c ltac:(lia) ltac:(lia) ltac:(lia)).
      unfold k. lia. }
    assert (Hcl : c < l) by (unfold l; lia).
    pose proof (ex_l t1 c l k Hinv1 ltac:(lia) Hcl Hk1 Hrun) as Hl'.
    exists l, (exchange c l k t1). split; [reflexivity|]. split; [lia|].
    split; [apply exchange_sorted; assumption || lia|].
    right. split; [lia|].
    rewrite (exchange_parent_l t1 c l k) by (assumption || lia).
    split; [apply exchange_inv; assumption || lia|].
    rewrite (exchange_root_freq t1 c l k) by (assumption || lia).
    rewrite Hf1. destruct (ROOT =? c) eqn:E; [apply Z.eqb_eq in E; lia|].
    reflexivity.
  - (* the node stays *)
    exists c, t1. split; [reflexivity|]. split; [lia|].
    assert (Hsorted1 : sorted t1).
    { intros x Hx. destruct (Z.eq_dec x c) as [->|Hne]; [|now apply Hs1].
      rewrite (Hf1 c), Z.eqb_refl. fold k. lia. }
    split; [exact Hsorted1|].
    destruct (Z.eq_dec c ROOT) as [E|E].
    + left. split; [exact E|].
      destruct (c =? ROOT) eqn:ER; [|apply Z.eqb_neq in ER; lia].
      split; [exact Hinv1|]. rewrite Hf1, E, Z.eqb_refl. unfold k. now rewrite E.
    + right. split; [lia|].
      destruct (c =? ROOT) eqn:ER; [apply Z.eqb_eq in ER; lia|].
      split; [exact Hinv1|]. rewrite Hf1.
      destruct (ROOT =? c) eqn:E'; [apply Z.eqb_eq in E'; lia|]. reflexivity.
Qed.

(** The whole loop: it ends, the invariant holds again and the root has
    gained one. *)
Lemma bump_spec fuel n : forall c d t,
  tree_inv d t -> sorted t -> 0 <= c < TSIZE ->
  (d = -1 /\ TSIZE <= aget (son t) c) \/ (d = c /\ aget (son t) c < TSIZE) ->
  aget (freq t) ROOT < MAX_FREQ ->
  (Z.to_nat TSIZE <= fuel)%nat -> ROOT - c < Z.of_nat n ->
  exists t', bump fuel n c t = Some t' /\ tree_inv (-1) t' /\ sorted t' /\
             aget (freq t') ROOT = aget (freq t) ROOT + 1.
Proof.
  induction n as [|n IH]; intros c d t Hinv Hsorted Hc Hmode Hroot Hfuel Hn;
    [consts; lia|].
  cbn [bump].
  destruct (bump_node_spec fuel c d t Hinv Hsorted Hc Hmode Hroot Hfuel)
    as (c1 & t1 & Hb & Hc1 & Hs1 & Hcase).
  rewrite Hb. consts.
  destruct Hcase as [(E & Hinv1 & Hr)|(E & Hinv1 & Hr)].
  - rewrite E, (inv_root _ _ Hinv1). cbn [Z.eqb]. exists t1.
    split; [reflexivity|]. split; [exact Hinv1|]. split; [exact Hs1|exact Hr].
  - destruct (inv_up _ _ Hinv1 c1 ltac:(lia)) as (U1 & U2 & U3).
    destruct (aget (parent t1) c1 =? 0) eqn:E0; [apply Z.eqb_eq in E0; lia|].
    destruct (IH (aget (parent t1) c1) (aget (parent t1) c1) t1)
      as (t' & B1 & B2 & B3 & B4); try assumption; try lia.
    exists t'. split; [exact B1|]. split; [exact B2|]. split; [exact B3|lia].
Qed.

(** [update] below the threshold [MAX_FREQ]. *)
Lemma update_spec fuel c t :
  tree_ok t -> 0 <= c < N_CHAR -> aget (freq t) ROOT < MAX_FREQ ->
  (Z.to_nat TSIZE <= fuel)%nat ->
  exists t', update fuel c t = Some t' /\ tree_ok t' /\
             aget (freq t') ROOT = aget (freq t) ROOT + 1.
Proof.
  intros (Hinv & Hsorted & _) Hc Hroot Hfuel. consts. unfold update.
  destruct (aget (freq t) ROOT =? MAX_FREQ) eqn:E; [apply Z.eqb_eq in E; lia|].
  destruct (inv_sym _ _ Hinv c Hc) as (Y1 & Y2).
  destruct (bump_spec fuel fuel (aget (parent t) (c + TSIZE)) (-1) t)
    as (t' & B1 & B2 & B3 & B4); try assumption; try lia.
  exists t'. split; [exact B1|]. split; [|exact B4].
  split; [exact B2|]. split; [exact B3|]. lia.
Qed.

(** ** [update]: the rebuild at [MAX_FREQ] *)

(** *** Inserting a node into the sorted prefix *)

Lemma zsum_inserted (g g' : Z -> Z) (k j : Z) :
  0 <= k <= j ->
  (forall x, 0 <= x < k -> g' x = g x) ->
  (forall x, k < x <= j -> g' x = g (x - 1)) ->
  forall lo, 0 <= lo <= k ->
  zsum lo (Z.to_nat (j + 1 - lo)) g' = zsum lo (Z.to_nat (j - lo)) g + g' k.
Proof.
  intros Hk Hlow Hhigh lo Hlo.
  replace (Z.to_nat (j + 1 - lo))
    with (Z.to_nat (k - lo) + (1 + Z.to_nat (j - k)))%nat by lia.
  replace (Z.to_nat (j - lo)) with (Z.to_nat (k - lo) + Z.to_nat (j - k))%nat by lia.
  rewrite !zsum_app. cbn [zsum Nat.add].
  replace (lo + Z.of_nat (Z.to_nat (k - lo))) with k by lia.
  rewrite (zsum_ext _ lo g' g) by (intros x Hx; apply Hlow; lia).
  rewrite <- (zsum_shift _ k g' ).
  rewrite (zsum_ext _ k (fun x => g' (x + 1)) g).
  - lia.
  - intros x Hx. rewrite Hhigh by lia. f_equal. lia.
Qed.

Section Insert.
Variables (hs : Z -> Z) (total j k : Z) (F S F' S' : Z -> Z).
Hypothesis Hj : N_CHAR <= j < TSIZE.
Hypothesis Hinv : build_inv hs total j F S.

Let i := 2 * (j - N_CHAR).
Let f := F i + F (i + 1).

Hypothesis Hk : i + 2 <= k <= j.
Hypothesis Hbelow : 0 < k -> F (k - 1) <= f.
Hypothesis Habove : k < j -> f < F k.
Hypothesis HF : inserted F F' k j f.
Hypothesis HS : inserted S S' k j i.

(** The slot a slot of the old arrays has moved to. *)
Let up (x : Z) : Z := if x <? k then x else x + 1.

Lemma ins_up x :
  0 <= x < j -> 0 <= up x < j + 1 /\ up x <> k /\
                F' (up x) = F x /\ S' (up x) = S x.
Proof.
  intros Hx. destruct HF as (F1 & F2 & F3). destruct HS as (S1 & S2 & S3).
  unfold up. destruct (Z.ltb_spec x k).
  - rewrite F1, S1 by lia. repeat split; lia.
  - rewrite F3, S3 by lia. replace (x + 1 - 1) with x by lia.
    repeat split; lia.
Qed.

(** Every slot of the new arrays is the new node or an old slot. *)
Lemma ins_down y :
  0 <= y < j + 1 -> y = k \/ exists x, 0 <= x < j /\ up x = y.
Proof.
  intros Hy. destruct (Z.eq_dec y k) as [E|E]; [now left|]. right.
  destruct (Z_lt_dec y k).
  - exists y. unfold up. destruct (Z.ltb_spec y k); lia.
  - exists (y - 1). unfold up. destruct (Z.ltb_spec (y - 1) k); lia.
Qed.

Lemma ins_low x : 0 <= x < i + 2 -> F' x = F x /\ S' x = S x.
Proof.
  intros Hx. destruct HF as (F1 & _). destruct HS as (S1 & _).
  rewrite F1, S1 by lia. now split.
Qed.

Lemma ins_up_mono x y : x < y -> up x < up y.
Proof.
  unfold up. destruct (Z.ltb_spec x k); destruct (Z.ltb_spec y k); lia.
Qed.

Lemma ins_f_bound : 2 <= f.
Proof.
  consts. pose proof (bi_pos _ _ _ _ _ Hinv i ltac:(unfold i; lia)).
  pose proof (bi_pos _ _ _ _ _ Hinv (i + 1) ltac:(unfold i; lia)).
  unfold f. lia.
Qed.

Lemma ins_sorted x : 0 <= x -> x + 1 < j + 1 -> F' x <= F' (x + 1).
Proof.
  intros Hx Hx1. destruct HF as (F1 & F2 & F3).
  pose proof (bi_sorted _ _ _ _ _ Hinv) as Hsorted.
  destruct (Z_lt_dec (x + 1) k) as [H1|H1].
  - rewrite !F1 by lia. apply Hsorted; lia.
  - destruct (Z.eq_dec (x + 1) k) as [H2|H2].
    + rewrite H2, F2, F1 by lia. replace x with (k - 1) by lia. apply Hbelow. lia.
    + destruct (Z.eq_dec x k) as [H3|H3].
      * rewrite H3, F2, F3 by lia. replace (k + 1 - 1) with k by lia.
        assert (f < F k) by (apply Habove; lia). lia.
      * rewrite !F3 by lia. replace (x + 1 - 1) with (x - 1 + 1) by lia.
        apply Hsorted; lia.
Qed.

Lemma ins_inv : build_inv hs total (j + 1) F' S'.
Proof.
  consts. pose proof ins_f_bound as Hf2.
  destruct HF as (F1 & F2 & F3). destruct HS as (S1 & S2 & S3).
  split.
  - exact ins_sorted.
  - intros y Hy. destruct (ins_down y Hy) as [->|(x & Hx & <-)].
    + rewrite F2. lia.
    + destruct (ins_up x Hx) as (_ & _ & E & _). rewrite E.
      apply (bi_pos _ _ _ _ _ Hinv). lia.
  - pose proof (bi_window _ _ _ _ _ Hinv) as W. fold i in W.
    replace (2 * (j + 1 - N_CHAR)) with (i + 2) by (unfold i; lia).
    replace (Z.to_nat (2 * N_CHAR - (j + 1))) with (Z.to_nat (j + 1 - (i + 2)))
      by (unfold i; lia).
    rewrite (zsum_inserted F F' k j) by (assumption || lia).
    rewrite F2.
    replace (Z.to_nat (2 * N_CHAR - j)) with (2 + Z.to_nat (j - (i + 2)))%nat in W
      by (unfold i; lia).
    cbn [zsum Nat.add] in W. replace (i + 1 + 1) with (i + 2) in W by lia.
    unfold f. lia.
  - intros c Hc. destruct (bi_sym _ _ _ _ _ Hinv c Hc) as (x & Hx & E1 & E2).
    destruct (ins_up x Hx) as (U1 & _ & U3 & U4).
    exists (up x). rewrite U3, U4. repeat split; assumption || lia.
  - intros y Hy. destruct (ins_down y Hy) as [->|(x & Hx & <-)].
    + rewrite S2. unfold i. lia.
    + destruct (ins_up x Hx) as (_ & _ & _ & E). rewrite E.
      apply (bi_leaf _ _ _ _ _ Hinv). lia.
  - intros y1 y2 Hy1 Hy2.
    destruct (ins_down y1 Hy1) as [->|(x1 & Hx1 & <-)];
    destruct (ins_down y2 Hy2) as [->|(x2 & Hx2 & <-)].
    + reflexivity.
    + destruct (ins_up x2 Hx2) as (_ & _ & _ & E). rewrite S2, E. intros E'.
      exfalso. destruct (Z_le_dec TSIZE (S x2)) as [Hl|Hl]; [unfold i in E'; lia|].
      destruct (bi_node _ _ _ _ _ Hinv x2 Hx2 ltac:(lia)) as (m & M1 & M2 & M3 & _).
      unfold i in E'. lia.
    + destruct (ins_up x1 Hx1) as (_ & _ & _ & E). rewrite S2, E. intros E'.
      exfalso. destruct (Z_le_dec TSIZE (S x1)) as [Hl|Hl]; [unfold i in E'; lia|].
      destruct (bi_node _ _ _ _ _ Hinv x1 Hx1 ltac:(lia)) as (m & M1 & M2 & M3 & _).
      unfold i in E'. lia.
    + destruct (ins_up x1 Hx1) as (_ & _ & _ & E1).
      destruct (ins_up x2 Hx2) as (_ & _ & _ & E2). rewrite E1, E2. intros E.
      now rewrite (bi_inj _ _ _ _ _ Hinv x1 x2 Hx1 Hx2 E).
  - intros y Hy. destruct (ins_down y Hy) as [->|(x & Hx & <-)].
    + rewrite S2, F2. intros _. exists (j - N_CHAR).
      destruct (ins_low i ltac:(unfold i; lia)) as (L1 & _).
      destruct (ins_low (i + 1) ltac:(unfold i; lia)) as (L2 & _).
      fold i. rewrite L1, L2. unfold f, i in *. repeat split; lia.
    + destruct (ins_up x Hx) as (U1 & U2 & U3 & U4). rewrite U3, U4. intros Hn.
      destruct (bi_node _ _ _ _ _ Hinv x Hx Hn) as (m & M1 & M2 & M3 & M4 & M5).
      exists m.
      destruct (ins_low (2 * m) ltac:(unfold i; lia)) as (L1 & _).
      destruct (ins_low (2 * m + 1) ltac:(unfold i; lia)) as (L2 & _).
      rewrite L1, L2. repeat split; try assumption; try lia.
      unfold up. destruct (Z.ltb_spec x k); lia.
  - intros m Hm. destruct (Z.eq_dec m (j - N_CHAR)) as [E|E].
    + exists k. rewrite S2. unfold i. split; lia.
    + destruct (bi_cover _ _ _ _ _ Hinv m ltac:(lia)) as (x & Hx & E1).
      destruct (ins_up x Hx) as (U1 & _ & _ & U4).
      exists (up x). rewrite U4. split; assumption.
  - replace (Z.to_nat (j + 1)) with (Z.to_nat (j + 1 - 0)) by lia.
    rewrite (zsum_inserted (fun x => if TSIZE <=? S x then 1 else 0)
               (fun x => if TSIZE <=? S' x then 1 else 0) k j); try lia.
    + cbv beta. rewrite S2.
      destruct (TSIZE <=? i) eqn:E; [apply Z.leb_le in E; unfold i in E; lia|].
      replace (j - 0) with j by lia.
      rewrite (bi_count _ _ _ _ _ Hinv). lia.
    + intros x Hx. cbv beta. now rewrite S1 by lia.
    + intros x Hx. cbv beta. now rewrite S3 by lia.
  - replace (Z.to_nat (j + 1)) with (Z.to_nat (j + 1 - 0)) by lia.
    rewrite (zsum_inserted (fun x => if TSIZE <=? S x then F x else 0)
               (fun x => if TSIZE <=? S' x then F' x else 0) k j); try lia.
    + cbv beta. rewrite S2.
      destruct (TSIZE <=? i) eqn:E; [apply Z.leb_le in E; unfold i in E; lia|].
      replace (j - 0) with j by lia.
      rewrite (bi_total _ _ _ _ _ Hinv). lia.
    + intros x Hx. cbv beta. now rewrite S1, F1 by lia.
    + intros x Hx. cbv beta. now rewrite S3, F3 by lia.
Qed.
End Insert.

(** *** The first loop: the leaves move to the front *)

Lemma rank_0 t : rank t 0 = 0.
Proof. reflexivity. Qed.

Lemma rank_succ t i :
  0 <= i -> rank t (i + 1) = rank t i + (if is_leaf t i then 1 else 0).
Proof.
  intros Hi. unfold rank.
  replace (Z.to_nat (i + 1)) with (Z.to_nat i + 1)%nat by lia.
  rewrite zsum_app. cbn [zsum]. replace (0 + Z.of_nat (Z.to_nat i)) with i by lia.
  lia.
Qed.

Lemma rank_bounds t i : 0 <= i -> 0 <= rank t i <= i.
Proof.
  intros Hi. replace i with (Z.of_nat (Z.to_nat i)) by lia.
  induction (Z.to_nat i) as [|n IH]; [cbn; lia|].
  replace (Z.of_nat (S n)) with (Z.of_nat n + 1) by lia.
  rewrite rank_succ by lia. destruct (is_leaf t (Z.of_nat n)); lia.
Qed.

Lemma rank_mono t x y : 0 <= x <= y -> rank t x <= rank t y.
Proof.
  intros Hxy. replace y with (x + Z.of_nat (Z.to_nat (y - x))) by lia.
  induction (Z.to_nat (y - x)) as [|n IH]; [rewrite Z.add_0_r; lia|].
  replace (x + Z.of_nat (S n)) with (x + Z.of_nat n + 1) by lia.
  rewrite rank_succ by lia. destruct (is_leaf t (x + Z.of_nat n)); lia.
Qed.

Lemma rank_lt t x y :
  0 <= x < y -> is_leaf t x = true -> rank t x < rank t y.
Proof.
  intros Hxy Hl. pose proof (rank_mono t (x + 1) y ltac:(lia)) as H.
  rewrite rank_succ, Hl in H by lia. lia.
Qed.

Lemma rank_onto t i m :
  0 <= i -> 0 <= m < rank t i ->
  exists x, 0 <= x < i /\ is_leaf t x = true /\ rank t x = m.
Proof.
  intros Hi. replace i with (Z.of_nat (Z.to_nat i)) by lia.
  induction (Z.to_nat i) as [|n IH]; [cbn; lia|].
  replace (Z.of_nat (S n)) with (Z.of_nat n + 1) by lia.
  rewrite rank_succ by lia. intros Hm.
  destruct (Z_lt_dec m (rank t (Z.of_nat n))) as [H|H].
  - destruct (IH ltac:(lia)) as (x & Hx & H1 & H2). exists x. repeat split; auto; lia.
  - destruct (is_leaf t (Z.of_nat n)) eqn:E; [|lia].
    exists (Z.of_nat n). repeat split; auto; lia.
Qed.

Lemma rank_TSIZE t : rank t TSIZE = leaf_count t.
Proof. reflexivity. Qed.

Lemma collect_leaves_spec t n : forall i t',
  alen (freq t) = TSIZE + 1 -> alen (son t) = TSIZE ->
  (forall x, 0 <= x < TSIZE -> 0 <= aget (freq t) x < 2 ^ 31) ->
  0 <= i -> i + Z.of_nat n <= TSIZE ->
  collected t i t' ->
  collected t (i + Z.of_nat n) (collect_leaves n i (rank t i) t').
Proof.
  induction n as [|n IH]; intros i t' Hlf Hls Hb Hi Hn Hc.
  - cbn [collect_leaves]. now rewrite Z.add_0_r.
  - cbn [collect_leaves]. consts.
    destruct Hc as (C1 & C2 & C3 & C4 & C5).
    destruct (C4 i ltac:(lia)) as (Ef & Es).
    pose proof (rank_bounds t i Hi) as Hr.
    replace (i + Z.of_nat (S n)) with (i + 1 + Z.of_nat n) by lia.
    pose proof (rank_succ t i Hi) as Hrs. unfold is_leaf in Hrs.
    rewrite Es. destruct (TSIZE <=? aget (son t) i) eqn:El.
    + replace (rank t i + 1) with (rank t (i + 1)) by lia.
      apply IH; try assumption; try lia.
      unfold collected, set_son, set_freq. cbn [freq son parent].
      rewrite Ef, Es. rewrite u32_small by (specialize (Hb i ltac:(lia)); lia).
      split; [now rewrite alen_aset|]. split; [now rewrite alen_aset|].
      split; [exact C3|]. split.
      * intros x Hx. rewrite !aget_aset_ne by lia. apply C4. lia.
      * intros x Hx Hl. destruct (Z.eq_dec x i) as [->|Hne].
        -- rewrite !aget_aset_eq by lia. now split.
        -- pose proof (rank_lt t x i ltac:(lia) Hl).
           rewrite !aget_aset_ne by lia. apply C5; [lia|exact Hl].
    + replace (rank t i) with (rank t (i + 1)) by lia.
      apply IH; try assumption; try lia.
      split; [exact C1|]. split; [exact C2|]. split; [exact C3|]. split.
      * intros x Hx. apply C4. lia.
      * intros x Hx Hl. destruct (Z.eq_dec x i) as [->|Hne].
        -- unfold is_leaf in Hl. congruence.
        -- replace (rank t (i + 1)) with (rank t i) in * by lia.
           apply C5; [lia|exact Hl].
Qed.

Lemma zsum_snoc n lo g :
  zsum lo (S n) g = zsum lo n g + g (lo + Z.of_nat n).
Proof.
  replace (S n) with (n + 1)%nat by lia. rewrite zsum_app. cbn [zsum]. lia.
Qed.

(** The sum over the moved leaves is the sum over the leaves. *)
Lemma zsum_rank t (F1 h : Z -> Z) (n : nat) :
  (forall x, 0 <= x < Z.of_nat n -> is_leaf t x = true -> F1 (rank t x) = h x) ->
  zsum 0 (Z.to_nat (rank t (Z.of_nat n))) F1
    = zsum 0 n (fun x => if is_leaf t x then h x else 0).
Proof.
  induction n as [|n IH]; intros H; [reflexivity|].
  rewrite zsum_snoc. replace (Z.of_nat (S n)) with (Z.of_nat n + 1) by lia.
  rewrite rank_succ by lia. pose proof (rank_bounds t (Z.of_nat n) ltac:(lia)).
  rewrite <- IH by (intros x Hx; apply H; lia). cbn [Z.add].
  destruct (is_leaf t (Z.of_nat n)) eqn:E.
  - replace (Z.to_nat (rank t (Z.of_nat n) + 1))
      with (S (Z.to_nat (rank t (Z.of_nat n)))) by lia.
    rewrite zsum_snoc. rewrite <- (H (Z.of_nat n)) by (lia || assumption).
    f_equal. f_equal. lia.
  - rewrite Z.add_0_r. lia.
Qed.

Section Collected.
Variables t t1 : tree.
Hypothesis Hok : tree_ok t.
Hypothesis Hcol : collected t TSIZE t1.

Let F1 := aget (freq t1).
Let S1 := aget (son t1).
Let total := zsum 0 (Z.to_nat N_CHAR) F1.

Lemma col_inv : tree_inv (-1) t.
Proof. exact (proj1 Hok). Qed.

Lemma col_slot m :
  0 <= m < N_CHAR ->
  exists x, 0 <= x < TSIZE /\ is_leaf t x = true /\ rank t x = m /\
            F1 m = (aget (freq t) x + 1) / 2 /\ S1 m = aget (son t) x.
Proof.
  intros Hm. consts.
  destruct (rank_onto t TSIZE m ltac:(lia)) as (x & Hx & Hl & Hr).
  { rewrite rank_TSIZE, (inv_count _ _ col_inv). lia. }
  destruct Hcol as (_ & _ & _ & _ & C5).
  destruct (C5 x Hx Hl) as (E1 & E2). rewrite Hr in E1, E2.
  exists x. repeat split; assumption || lia.
Qed.

Lemma col_freq_bound x : 0 <= x < TSIZE -> 1 <= aget (freq t) x <= MAX_FREQ.
Proof.
  intros Hx. consts. destruct Hok as (Hinv & Hs & Hr).
  pose proof (inv_pos _ _ Hinv x Hx).
  pose proof (sorted_le t Hs x ROOT ltac:(lia) ltac:(lia) ltac:(lia)). lia.
Qed.

Lemma col_total :
  total = zsum 0 (Z.to_nat TSIZE)
            (fun x => if is_leaf t x then (aget (freq t) x + 1) / 2 else 0).
Proof.
  consts. unfold total.
  rewrite <- (zsum_rank t F1 (fun x => (aget (freq t) x + 1) / 2)).
  - replace (Z.of_nat (Z.to_nat TSIZE)) with TSIZE by lia.
    now rewrite rank_TSIZE, (inv_count _ _ col_inv).
  - intros x Hx Hl. destruct Hcol as (_ & _ & _ & _ & C5).
    apply C5; [lia|exact Hl].
Qed.

Lemma col_total_bound : N_CHAR <= total /\ 2 * total <= MAX_FREQ + N_CHAR.
Proof.
  consts. destruct Hok as (Hinv & Hs & Hr). rewrite col_total. split.
  - rewrite <- (inv_count _ _ Hinv). unfold leaf_count.
    apply zsum_le. intros x Hx. destruct (is_leaf t x); [|lia].
    pose proof (col_freq_bound x ltac:(lia)).
    apply Z.div_le_lower_bound; lia.
  - assert (Hdbl : 2 * zsum 0 (Z.to_nat TSIZE)
              (fun x => if is_leaf t x then (aget (freq t) x + 1) / 2 else 0)
            <= leaf_total t + leaf_count t).
    { unfold leaf_total, leaf_count. rewrite <- zsum_add.
      replace (2 * zsum 0 (Z.to_nat TSIZE)
                     (fun x => if is_leaf t x then (aget (freq t) x + 1) / 2 else 0))
        with (zsum 0 (Z.to_nat TSIZE)
                (fun x => (if is_leaf t x then (aget (freq t) x + 1) / 2 else 0)
                          + (if is_leaf t x then (aget (freq t) x + 1) / 2 else 0)))
        by (rewrite zsum_add; lia).
      apply zsum_le. intros x Hx. destruct (is_leaf t x); [|lia].
      pose proof (Z.mul_div_le (aget (freq t) x + 1) 2 ltac:(lia)). lia. }
    rewrite (inv_total _ _ Hinv), (inv_count _ _ Hinv) in Hdbl.
    cbn [Z.leb Z.compare] in Hdbl. lia.
Qed.

Lemma col_build_inv : build_inv (halved t) total N_CHAR F1 S1.
Proof.
  consts. destruct Hok as (Hinv & Hs & Hr).
  assert (Hleaf : forall m, 0 <= m < N_CHAR -> (TSIZE <=? S1 m) = true).
  { intros m Hm. destruct (col_slot m Hm) as (x & Hx & Hl & _ & _ & E).
    rewrite E. exact Hl. }
  split.
  - intros m Hm Hm1.
    destruct (col_slot m ltac:(lia)) as (x & Hx & Hl & Hrk & E & _).
    destruct (col_slot (m + 1) ltac:(lia)) as (y & Hy & Hl' & Hrk' & E' & _).
    rewrite E, E'.
    assert (x < y).
    { destruct (Z_lt_dec x y) as [|Hn]; [assumption|].
      pose proof (rank_mono t y x ltac:(lia)). lia. }
    apply Z.div_le_mono; [lia|].
    pose proof (sorted_le t Hs x y ltac:(lia) ltac:(lia) ltac:(lia)). lia.
  - intros m Hm. destruct (col_slot m Hm) as (x & Hx & _ & _ & E & _).
    rewrite E. pose proof (col_freq_bound x Hx).
    apply Z.div_le_lower_bound; lia.
  - replace (2 * (N_CHAR - N_CHAR)) with 0 by lia.
    replace (2 * N_CHAR - N_CHAR) with N_CHAR by lia. reflexivity.
  - intros c Hc. destruct (inv_sym _ _ Hinv c Hc) as (Y1 & Y2).
    set (x := aget (parent t) (c + TSIZE)) in *.
    assert (Hl : is_leaf t x = true) by (unfold is_leaf; rewrite Y2; lia).
    pose proof (rank_lt t x TSIZE ltac:(lia) Hl) as Hrk.
    rewrite rank_TSIZE, (inv_count _ _ Hinv) in Hrk.
    pose proof (rank_bounds t x ltac:(lia)).
    destruct Hcol as (_ & _ & _ & _ & C5).
    destruct (C5 x ltac:(lia) Hl) as (E1 & E2).
    exists (rank t x). unfold F1, S1, halved. fold x.
    rewrite E1, E2. repeat split; lia.
  - intros m Hm _. destruct (col_slot m Hm) as (x & Hx & Hl & _ & _ & E).
    rewrite E. unfold is_leaf in Hl.
    apply (inv_leaf _ _ Hinv x Hx). lia.
  - intros m m' Hm Hm' E.
    destruct (col_slot m Hm) as (x & Hx & Hl & Hrk & _ & E1).
    destruct (col_slot m' Hm') as (y & Hy & Hl' & Hrk' & _ & E2).
    rewrite E1, E2 in E. unfold is_leaf in Hl, Hl'.
    destruct (inv_leaf _ _ Hinv x Hx ltac:(lia)) as (_ & Px).
    destruct (inv_leaf _ _ Hinv y Hy ltac:(lia)) as (_ & Py).
    rewrite E in Px. assert (x = y) by lia. subst y. lia.
  - intros m Hm Hn. specialize (Hleaf m Hm). lia.
  - intros m Hm. lia.
  - rewrite (zsum_ext _ 0 _ (fun _ => 1)).
    + rewrite zsum_const. lia.
    + intros m Hm. now rewrite Hleaf by lia.
  - unfold total. apply zsum_ext. intros m Hm. now rewrite Hleaf by lia.
Qed.
End Collected.

(** *** The second loop: the internal nodes are built and inserted *)

Lemma scan_down_spec fr f fuel : forall start lo,
  0 <= lo <= start -> start < 2 ^ 32 -> aget fr lo <= f ->
  start - lo < Z.of_nat fuel ->
  exists k0, scan_down fuel f start fr = Some k0 /\ lo <= k0 <= start /\
             aget fr k0 <= f /\
             forall x, k0 < x <= start -> f < aget fr x.
Proof.
  induction fuel as [|fuel IH]; intros start lo Hlo Hst Hf Hfuel; [lia|].
  cbn [scan_down]. destruct (f <? aget fr start) eqn:E.
  - apply Z.ltb_lt in E.
    assert (start <> lo) by (intros ->; lia).
    rewrite u32_small by lia.
    destruct (IH (start - 1) lo) as (k0 & H1 & H2 & H3 & H4); try lia.
    exists k0. repeat split; try assumption; try lia.
    intros x Hx. destruct (Z.eq_dec x start) as [->|Hne]; [exact E|].
    apply H4. lia.
  - apply Z.ltb_ge in E. exists start. repeat split; lia.
Qed.

Lemma zsum_window_ge F lo n :
  (2 <= n)%nat -> (forall x, lo <= x < lo + Z.of_nat n -> 0 <= F x) ->
  F lo + F (lo + 1) <= zsum lo n F.
Proof.
  intros Hn Hpos. destruct n as [|[|n]]; try lia. cbn [zsum].
  pose proof (zsum_ge n (lo + 1 + 1) F 0) as H.
  assert (0 * Z.of_nat n <= zsum (lo + 1 + 1) n F)
    by (apply H; intros x Hx; apply Hpos; lia).
  lia.
Qed.

Lemma build_nodes_spec hs total fuel n : forall j t',
  alen (freq t') = TSIZE + 1 -> alen (son t') = TSIZE ->
  N_CHAR <= j -> j + Z.of_nat n <= TSIZE -> total < 2 ^ 31 ->
  (Z.to_nat TSIZE <= fuel)%nat ->
  build_inv hs total j (aget (freq t')) (aget (son t')) ->
  exists t'', build_nodes fuel n (2 * (j - N_CHAR)) j t' = Some t'' /\
    build_inv hs total (j + Z.of_nat n) (aget (freq t'')) (aget (son t'')) /\
    framed t' t''.
Proof.
  induction n as [|n IH]; intros j t' Hlf Hls Hj Hn Htot Hfuel Hinv.
  - cbn [build_nodes]. exists t'. rewrite Z.add_0_r.
    split; [reflexivity|]. split; [exact Hinv|]. repeat split; reflexivity.
  - cbn [build_nodes]. consts.
    set (i := 2 * (j - N_CHAR)) in *.
    set (F := aget (freq t')) in *. set (S := aget (son t')) in *.
    assert (Hpos : forall x, 0 <= x < j -> 1 <= F x)
      by exact (bi_pos _ _ _ _ _ Hinv).
    assert (Hf : F i + F (i + 1) <= total).
    { rewrite <- (bi_window _ _ _ _ _ Hinv). fold i.
      apply zsum_window_ge; [lia|]. intros x Hx.
      specialize (Hpos x ltac:(unfold i in *; lia)). lia. }
    pose proof (Hpos i ltac:(unfold i; lia)) as Hpi.
    pose proof (Hpos (i + 1) ltac:(unfold i; lia)) as Hpi1.
    rewrite (u32_small (F i + F (i + 1))) by lia.
    set (f := F i + F (i + 1)) in *.
    unfold set_freq at 1. cbn [freq].
    assert (Hfr1 : forall x, x <> j -> aget (aset (freq t') j f) x = F x)
      by (intros x Hx; now rewrite aget_aset_ne by lia).
    destruct (scan_down_spec (aset (freq t') j f) f fuel (j - 1) (i + 1))
      as (k0 & Hscan & Hk0 & Hle & Hgt); try (unfold i; lia).
    { rewrite Hfr1 by (unfold i; lia). lia. }
    rewrite Hscan. rewrite (u32_small (k0 + 1)) by lia.
    rewrite (u32_small (j - (k0 + 1))) by lia.
    set (k := k0 + 1) in *. unfold set_freq. cbn [freq son parent].
    set (fr := aset (amove (aset (freq t') j f) (k + 1) k (j - k)) k f).
    set (sn := aset (amove (son t') (k + 1) k (j - k)) k i).
    assert (HF : inserted F (aget fr) k j f).
    { unfold fr. repeat split.
      - intros x Hx. rewrite aget_aset_ne by lia.
        rewrite aget_amove by (rewrite alen_aset; lia).
        destruct ((k + 1 <=? x) && (x <? k + 1 + (j - k))) eqn:E;
          [apply andb_true_iff in E; lia|]. apply Hfr1. lia.
      - apply aget_aset_eq. rewrite alen_amove, alen_aset. lia.
      - intros x Hx. rewrite aget_aset_ne by lia.
        rewrite aget_amove by (rewrite alen_aset; lia).
        destruct ((k + 1 <=? x) && (x <? k + 1 + (j - k))) eqn:E.
        + replace (k + (x - (k + 1))) with (x - 1) by lia. apply Hfr1. lia.
        + apply andb_false_iff in E. lia. }
    assert (HS : inserted S (aget sn) k j i).
    { unfold sn. repeat split.
      - intros x Hx. rewrite aget_aset_ne by lia.
        rewrite aget_amove by lia.
        destruct ((k + 1 <=? x) && (x <? k + 1 + (j - k))) eqn:E;
          [apply andb_true_iff in E; lia|]. reflexivity.
      - apply aget_aset_eq. rewrite alen_amove. lia.
      - intros x Hx. rewrite aget_aset_ne by lia.
        rewrite aget_amove by lia.
        destruct ((k + 1 <=? x) && (x <? k + 1 + (j - k))) eqn:E.
        + replace (k + (x - (k + 1))) with (x - 1) by lia. reflexivity.
        + apply andb_false_iff in E. lia. }
    assert (Hinv' : build_inv hs total (j + 1) (aget fr) (aget sn)).
    { apply (ins_inv hs total j k F S (aget fr) (aget sn)); try assumption.
      - lia.
      - fold i. unfold k. lia.
      - intros _. fold i. fold f. replace (k - 1) with k0 by (unfold k; lia).
        rewrite Hfr1 in Hle by lia. exact Hle.
      - intros Hkj. fold i. fold f. specialize (Hgt k ltac:(unfold k in *; lia)).
        rewrite Hfr1 in Hgt by lia. exact Hgt. }
    replace (i + 2) with (2 * (j + 1 - N_CHAR)) by (unfold i; lia).
    destruct (IH (j + 1) (mkTree (parent t') sn fr)) as (t'' & B1 & B2 & B3);
      try assumption; try lia.
    + cbn [freq]. unfold fr. now rewrite alen_aset, alen_amove, alen_aset.
    + cbn [son]. unfold sn. now rewrite alen_aset, alen_amove.
    + exists t''. split; [exact B1|]. split.
      * replace (j + Z.of_nat (Datatypes.S n)) with (j + 1 + Z.of_nat n) by lia.
        exact B2.
      * destruct B3 as (G1 & G2 & G3 & G4). cbn [freq son parent] in G1, G2, G3, G4.
        unfold framed. rewrite G1, G2, G3, G4. unfold fr, sn.
        rewrite !alen_aset, !alen_amove, alen_aset.
        repeat split; try reflexivity.
        rewrite aget_aset_ne by lia.
        rewrite aget_amove by (rewrite alen_aset; lia).
        destruct ((k + 1 <=? TSIZE) && (TSIZE <? k + 1 + (j - k))) eqn:E;
          [apply andb_true_iff in E; lia|].
        apply aget_aset_ne. lia.
Qed.

(** *** The third loop: the parent links *)

Section Link.
Variables (hs : Z -> Z) (total : Z) (t2 : tree).
Hypothesis Hinv : build_inv hs total TSIZE (aget (freq t2)) (aget (son t2)).
Hypothesis Hlen : alen (parent t2) = TSIZE + N_CHAR.

Let S := aget (son t2).

(** The sons of a slot are ids of the [parent] array. *)
Lemma link_son_range x :
  0 <= x < TSIZE ->
  (TSIZE <= S x /\ S x < TSIZE + N_CHAR) \/
  (exists m, S x = 2 * m /\ 0 <= m /\ 2 * m + 1 < x /\ 2 * m + 1 < ROOT).
Proof.
  intros Hx. consts. destruct (Z_le_dec TSIZE (S x)) as [Hl|Hl].
  - left. split; [exact Hl|]. now apply (bi_leaf _ _ _ _ _ Hinv).
  - right. destruct (bi_node _ _ _ _ _ Hinv x Hx ltac:(fold S; lia))
      as (m & M1 & M2 & M3 & M4 & _).
    exists m. repeat split; try assumption; lia.
Qed.

(** The sons of two different slots are four different ids. *)
Lemma link_apart x y :
  0 <= x < TSIZE -> 0 <= y < TSIZE -> x <> y ->
  S x <> S y /\ (S y < TSIZE -> S x <> S y + 1) /\
  (S x < TSIZE -> S x + 1 <> S y) /\
  (S x < TSIZE -> S y < TSIZE -> S x + 1 <> S y + 1).
Proof.
  intros Hx Hy Hne. consts.
  assert (S x <> S y)
    by (intros E; apply Hne; exact (bi_inj _ _ _ _ _ Hinv x y Hx Hy E)).
  destruct (link_son_range x Hx) as [Lx|(m & M1 & M2 & M3 & M4)];
  destruct (link_son_range y Hy) as [Ly|(m' & M1' & M2' & M3' & M4')];
    repeat split; intros; lia.
Qed.

Lemma link_parents_spec n : forall i t',
  0 <= i -> i + Z.of_nat n <= TSIZE ->
  linked t2 i t' -> linked t2 (i + Z.of_nat n) (link_parents n i t').
Proof.
  induction n as [|n IH]; intros i t' Hi Hn Hl.
  - cbn [link_parents]. now rewrite Z.add_0_r.
  - cbn [link_parents]. consts.
    replace (i + Z.of_nat (Datatypes.S n)) with (i + 1 + Z.of_nat n) by lia.
    destruct Hl as (L1 & L2 & L3 & L4 & L5). rewrite L1. fold S.
    assert (Hstep : forall pa',
      alen pa' = alen (parent t2) ->
      aget pa' (S i) = i ->
      (S i < TSIZE -> aget pa' (S i + 1) = i) ->
      (forall id, id <> S i -> (S i < TSIZE -> id <> S i + 1) ->
                  aget pa' id = aget (parent t') id) ->
      linked t2 (i + 1) (mkTree pa' (son t') (freq t'))).
    { intros pa' P1 P2 P3 P4. unfold linked. cbn [son freq parent].
      split; [exact L1|]. split; [exact L2|]. split; [exact P1|]. split.
      - intros x Hx. fold S. destruct (Z.eq_dec x i) as [->|Hne].
        + split; assumption.
        + destruct (link_apart x i ltac:(lia) ltac:(lia) Hne) as (A1 & A2 & A3 & A4).
          destruct (L4 x ltac:(lia)) as (Q1 & Q2). fold S in Q1, Q2. split.
          * rewrite P4 by assumption. exact Q1.
          * intros Hs. rewrite P4 by auto. now apply Q2.
      - intros id Hid. destruct (Hid i ltac:(lia)) as (D1 & D2). fold S in D1, D2.
        rewrite P4;
          [|intros E'; apply D1; now rewrite E'
           |intros Hs E'; apply (D2 Hs); now rewrite E'].
        apply L5. intros x Hx. apply Hid. lia. }
    destruct (link_son_range i ltac:(lia)) as [(R1 & R2)|(m & M1 & M2 & M3 & M4)].
    + destruct (TSIZE <=? S i) eqn:E; [|apply Z.leb_gt in E; lia].
      apply IH; try lia. apply Hstep.
      * cbn [parent set_parent]. now rewrite alen_aset.
      * cbn [parent set_parent]. apply aget_aset_eq. lia.
      * intros Hs. lia.
      * intros id Hid _. cbn [parent set_parent]. apply aget_aset_ne. lia.
    + destruct (TSIZE <=? S i) eqn:E; [apply Z.leb_le in E; lia|].
      apply IH; try lia. apply Hstep.
      * cbn [parent set_parent]. now rewrite !alen_aset.
      * cbn [parent set_parent]. apply aget_aset_eq. rewrite alen_aset. lia.
      * intros Hs. cbn [parent set_parent]. rewrite aget_aset_ne by lia.
        apply aget_aset_eq. lia.
      * intros id Hid Hid'. cbn [parent set_parent].
        rewrite !aget_aset_ne by (try lia; specialize (Hid' ltac:(lia)); lia).
        reflexivity.
Qed.
End Link.

(** *** The rebuilt tree *)

Section Rebuilt.
Variables (t t2 t3 : tree) (total : Z).
Hypothesis Hok : tree_ok t.
Hypothesis Hinv : build_inv (halved t) total TSIZE (aget (freq t2)) (aget (son t2)).
Hypothesis Hlf : alen (freq t2) = TSIZE + 1.
Hypothesis Hls : alen (son t2) = TSIZE.
Hypothesis Hpa : parent t2 = parent t.
Hypothesis Hsent : aget (freq t2) TSIZE = aget (freq t) TSIZE.
Hypothesis Hlink : linked t2 TSIZE t3.
Hypothesis Htotal : 2 * total <= MAX_FREQ + N_CHAR.

Let F := aget (freq t2).
Let S := aget (son t2).

Lemma rb_arrays : son t3 = son t2 /\ freq t3 = freq t2.
Proof. destruct Hlink as (L1 & L2 & _). now split. Qed.

Lemma rb_parent_son x :
  0 <= x < TSIZE ->
  aget (parent t3) (S x) = x /\ (S x < TSIZE -> aget (parent t3) (S x + 1) = x).
Proof. intros Hx. destruct Hlink as (_ & _ & _ & L4 & _). now apply L4. Qed.

Lemma rb_root_freq : F ROOT = total.
Proof.
  pose proof (bi_window _ _ _ _ _ Hinv) as W.
  change (2 * (TSIZE - N_CHAR)) with ROOT in W.
  change (Z.to_nat (2 * N_CHAR - TSIZE)) with 1%nat in W.
  cbn [zsum] in W. fold F in W. lia.
Qed.

Lemma rb_inv : tree_inv (-1) t3.
Proof.
  consts. destruct rb_arrays as (As & Af).
  destruct Hok as (Hti & _ & _).
  destruct Hlink as (_ & _ & L3 & L4 & L5).
  split.
  - rewrite L3, Hpa. exact (inv_len_parent _ _ Hti).
  - now rewrite As.
  - now rewrite Af.
  - rewrite Af, Hsent. exact (inv_sentinel _ _ Hti).
  - rewrite L5.
    + rewrite Hpa. exact (inv_root _ _ Hti).
    + intros x Hx.
      destruct (link_son_range _ _ _ Hinv x Hx) as [(R1 & R2)|(m & M1 & M2 & M3 & M4)];
        split; intros; lia.
  - intros x Hx. rewrite Af. apply (bi_pos _ _ _ _ _ Hinv). lia.
  - intros x Hx. rewrite As. fold S. intros Hl.
    split; [now apply (bi_leaf _ _ _ _ _ Hinv)|]. now apply rb_parent_son.
  - intros x Hx. rewrite As, Af. fold S F. intros Hn.
    destruct (bi_node _ _ _ _ _ Hinv x Hx Hn) as (m & M1 & M2 & M3 & M4 & M5).
    destruct (rb_parent_son x Hx) as (P1 & P2). fold S F in M1, M5.
    destruct (x =? -1) eqn:E; [apply Z.eqb_eq in E; lia|].
    rewrite M1 in *. repeat split; try lia; auto.
  - intros x Hx. rewrite As. fold S.
    destruct (bi_cover _ _ _ _ _ Hinv (x / 2)) as (y & Hy & Ey).
    { pose proof (Z.div_pos x 2 ltac:(lia) ltac:(lia)).
      assert (x / 2 < 313) by (apply Z.div_lt_upper_bound; lia). lia. }
    fold S in Ey.
    destruct (bi_node _ _ _ _ _ Hinv y Hy ltac:(fold S; rewrite Ey;
      pose proof (Z.mul_div_le x 2 ltac:(lia)); lia))
      as (m & M1 & M2 & M3 & M4 & _). fold S in M1.
    destruct (rb_parent_son y Hy) as (P1 & P2).
    pose proof (Z.div_mod x 2 ltac:(lia)) as Hdm.
    pose proof (Z.mod_pos_bound x 2 ltac:(lia)) as Hmb.
    assert (Hx' : x = S y \/ x = S y + 1) by lia.
    destruct Hx' as [Hx'|Hx'].
    + clear Hdm Hmb Ey. subst x. fold S. rewrite P1. repeat split; lia.
    + clear Hdm Hmb Ey. subst x. fold S. rewrite P2 by lia. repeat split; lia.
  - intros c Hc. rewrite As. fold S.
    destruct (bi_sym _ _ _ _ _ Hinv c Hc) as (x & Hx & E1 & E2). fold S in E1.
    destruct (rb_parent_son x Hx) as (P1 & _). rewrite E1 in P1.
    rewrite P1. split; [lia|exact E1].
  - unfold leaf_total, is_leaf. rewrite As, Af.
    rewrite (bi_total _ _ _ _ _ Hinv). fold F. rewrite rb_root_freq.
    cbn [Z.leb Z.compare]. lia.
  - unfold leaf_count, is_leaf. rewrite As.
    exact (bi_count _ _ _ _ _ Hinv).
Qed.

Lemma rb_sorted : sorted t3.
Proof.
  consts. destruct rb_arrays as (_ & Af). intros x Hx. rewrite Af.
  apply (bi_sorted _ _ _ _ _ Hinv); lia.
Qed.

Lemma rb_ok : tree_ok t3.
Proof.
  consts. split; [exact rb_inv|]. split; [exact rb_sorted|].
  destruct rb_arrays as (_ & Af). rewrite Af. fold F. rewrite rb_root_freq. lia.
Qed.

(** Every leaf keeps its symbol, with its frequency halved. *)
Lemma rb_leaf c :
  0 <= c < N_CHAR ->
  aget (son t3) (aget (parent t3) (c + TSIZE)) = c + TSIZE /\
  aget (freq t3) (aget (parent t3) (c + TSIZE)) = halved t c.
Proof.
  intros Hc. destruct rb_arrays as (As & Af). rewrite As, Af.
  destruct (bi_sym _ _ _ _ _ Hinv c Hc) as (x & Hx & E1 & E2).
  destruct (rb_parent_son x Hx) as (P1 & _). unfold S in P1. rewrite E1 in P1.
  rewrite P1. now split.
Qed.
End Rebuilt.

(** The rebuild ends and yields a tree that satisfies the invariant, with
    every leaf at half its frequency and the root at their sum. *)
Lemma rebuild_spec fuel t :
  tree_ok t -> (Z.to_nat TSIZE <= fuel)%nat ->
  exists t3,
    rebuild fuel t = Some t3 /\ tree_ok t3 /\
    N_CHAR <= aget (freq t3) ROOT /\
    2 * aget (freq t3) ROOT <= MAX_FREQ + N_CHAR /\
    forall c, 0 <= c < N_CHAR ->
      aget (son t3) (aget (parent t3) (c + TSIZE)) = c + TSIZE /\
      aget (freq t3) (aget (parent t3) (c + TSIZE)) = halved t c.
Proof.
  intros Hok Hfuel. consts. pose proof Hok as (Hti & Hs & Hr).
  unfold rebuild.
  set (t1 := collect_leaves (Z.to_nat TSIZE) 0 0 t).
  assert (Hcol : collected t TSIZE t1).
  { pose proof (collect_leaves_spec t (Z.to_nat TSIZE) 0 t) as C.
    replace (0 + Z.of_nat (Z.to_nat TSIZE)) with TSIZE in C by lia.
    apply C; try lia.
    - exact (inv_len_freq _ _ Hti).
    - exact (inv_len_son _ _ Hti).
    - intros x Hx. pose proof (inv_pos _ _ Hti x Hx).
      pose proof (sorted_le t Hs x ROOT ltac:(lia) ltac:(lia) ltac:(lia)). lia.
    - repeat split; try reflexivity; lia. }
  pose proof (col_build_inv t t1 Hok Hcol) as Hb.
  destruct (col_total_bound t t1 Hok Hcol) as (Ht1 & Ht2).
  set (total := zsum 0 (Z.to_nat N_CHAR) (aget (freq t1))) in *.
  destruct Hcol as (C1 & C2 & C3 & C4 & C5).
  destruct (build_nodes_spec (halved t) total fuel (Z.to_nat (TSIZE - N_CHAR))
              N_CHAR t1)
    as (t2 & B1 & B2 & (G1 & G2 & G3 & G4)); try lia; try assumption.
  { rewrite C1. exact (inv_len_freq _ _ Hti). }
  { rewrite C2. exact (inv_len_son _ _ Hti). }
  change (2 * (N_CHAR - N_CHAR)) with 0 in B1. rewrite B1.
  replace (N_CHAR + Z.of_nat (Z.to_nat (TSIZE - N_CHAR))) with TSIZE in B2 by lia.
  set (t3 := link_parents (Z.to_nat TSIZE) 0 t2).
  assert (Hlen2 : alen (parent t2) = TSIZE + N_CHAR).
  { rewrite G3, C3. exact (inv_len_parent _ _ Hti). }
  assert (Hlink : linked t2 TSIZE t3).
  { pose proof (link_parents_spec (halved t) total t2 B2 Hlen2
                  (Z.to_nat TSIZE) 0 t2) as L.
    replace (0 + Z.of_nat (Z.to_nat TSIZE)) with TSIZE in L by lia.
    apply L; try lia.
    repeat split; try reflexivity; lia. }
  assert (Hlf2 : alen (freq t2) = TSIZE + 1).
  { rewrite G1, C1. exact (inv_len_freq _ _ Hti). }
  assert (Hls2 : alen (son t2) = TSIZE).
  { rewrite G2, C2. exact (inv_len_son _ _ Hti). }
  assert (Hpa2 : parent t2 = parent t) by (rewrite G3; exact C3).
  assert (Hsent2 : aget (freq t2) TSIZE = aget (freq t) TSIZE).
  { rewrite G4. apply C4. lia. }
  exists t3. split; [reflexivity|].
  split; [exact (rb_ok t t2 t3 total Hok B2 Hlf2 Hls2 Hpa2 Hsent2 Hlink Ht2)|].
  assert (Hroot3 : aget (freq t3) ROOT = total).
  { destruct (rb_arrays t2 t3 Hlink) as (_ & Af).
    rewrite Af. exact (rb_root_freq t t2 total B2). }
  rewrite Hroot3. split; [exact Ht1|]. split; [exact Ht2|].
  intros c Hc. exact (rb_leaf t t2 t3 total B2 Hlink c Hc).
Qed.

(** ** [update] as a whole *)

(** [update] keeps the invariant of the tree, with or without a rebuild. *)
Lemma update_ok fuel c t :
  tree_ok t -> 0 <= c < N_CHAR -> (Z.to_nat TSIZE <= fuel)%nat ->
  exists t', update fuel c t = Some t' /\ tree_ok t'.
Proof.
  intros Hok Hc Hfuel. consts.
  destruct (Z.eq_dec (aget (freq t) ROOT) MAX_FREQ) as [E|E].
  - destruct (rebuild_spec fuel t Hok Hfuel) as (t3 & R1 & R2 & R3 & R4 & _).
    destruct (update_spec fuel c t3 R2 Hc ltac:(lia) Hfuel) as (t' & U1 & U2 & _).
    exists t'. split; [|exact U2].
    unfold update in *. rewrite E, Z.eqb_refl, R1.
    destruct (aget (freq t3) ROOT =? MAX_FREQ) eqn:E3;
      [apply Z.eqb_eq in E3; lia|exact U1].
  - destruct Hok as (Hti & Hs & Hr).
    destruct (update_spec fuel c t (conj Hti (conj Hs Hr)) Hc ltac:(lia) Hfuel)
      as (t' & U1 & U2 & _).
    exists t'. now split.
Qed.

(** Every tree [update] can meet satisfies the invariant. *)
Lemma feed_ok fuel next n : forall c t,
  tree_ok t -> 0 <= c < N_CHAR ->
  (forall x, 0 <= x < N_CHAR -> 0 <= next x < N_CHAR) ->
  (Z.to_nat TSIZE <= fuel)%nat ->
  exists t', feed fuel n next c t = Some t' /\ tree_ok t'.
Proof.
  induction n as [|n IH]; intros c t Hok Hc Hnext Hfuel.
  - exists t. now split.
  - cbn [feed]. destruct (update_ok fuel c t Hok Hc Hfuel) as (t1 & U1 & U2).
    rewrite U1. apply IH; auto.
Qed.

Lemma threshold_tree_ok :
  tree_ok threshold_tree /\ aget (freq threshold_tree) ROOT = MAX_FREQ.
Proof. split; [apply tree_okb_sound|]; vm_compute; reflexivity. Qed.

(** C5. When [update] is entered with [freq[ROOT] = MAX_FREQ] on a tree
    that satisfies the invariant, the rebuild ends (with the tree [t3])
    before the increment starts, which then runs on [t3]. In [t3] every
    leaf has kept its symbol and has the frequency [(old + 1) / 2]; the
    nodes are sorted by frequency, every internal node has the sum of its
    two sons, which lie below it, and the parent links agree with [son];
    the root frequency is at most [(MAX_FREQ + N_CHAR) / 2], below
    [MAX_FREQ]. The call ends with the root one higher, still below
    [MAX_FREQ], so that the next call of [update] does not rebuild. *)
Theorem update_rebuilds_once_at_MAX_FREQ (fuel : nat) (c : Z) (t : tree) :
  tree_ok t -> aget (freq t) ROOT = MAX_FREQ -> 0 <= c < N_CHAR ->
  (Z.to_nat TSIZE <= fuel)%nat ->
  exists t3 t',
    rebuild fuel t = Some t3 /\
    update fuel c t = bump fuel fuel (aget (parent t3) (c + TSIZE)) t3 /\
    update fuel c t = Some t' /\
    (forall s, 0 <= s < N_CHAR ->
       aget (son t3) (aget (parent t3) (s + TSIZE)) = s + TSIZE /\
       aget (freq t3) (aget (parent t3) (s + TSIZE))
         = (aget (freq t) (aget (parent t) (s + TSIZE)) + 1) / 2) /\
    sorted t3 /\
    (forall i, 0 <= i < TSIZE ->
       aget (parent t3) (aget (son t3) i) = i /\
       (aget (son t3) i < TSIZE ->
          aget (son t3) i + 1 < i /\
          aget (parent t3) (aget (son t3) i + 1) = i /\
          aget (freq t3) i
            = aget (freq t3) (aget (son t3) i)
              + aget (freq t3) (aget (son t3) i + 1))) /\
    tree_ok t3 /\
    aget (freq t3) ROOT < MAX_FREQ /\
    aget (freq t') ROOT = aget (freq t3) ROOT + 1 /\
    aget (freq t') ROOT < MAX_FREQ /\
    tree_ok t' /\
    (forall c', update fuel c' t' = bump fuel fuel (aget (parent t') (c' + TSIZE)) t').
Proof.
  intros Hok Hroot Hc Hfuel. consts.
  destruct (rebuild_spec fuel t Hok Hfuel) as (t3 & R1 & R2 & R3 & R4 & R5).
  destruct (update_spec fuel c t3 R2 Hc ltac:(lia) Hfuel) as (t' & U1 & U2 & U3).
  assert (Hu : update fuel c t = bump fuel fuel (aget (parent t3) (c + TSIZE)) t3).
  { unfold update. now rewrite Hroot, Z.eqb_refl, R1. }
  assert (Hb : bump fuel fuel (aget (parent t3) (c + TSIZE)) t3 = Some t').
  { unfold update in U1.
    destruct (aget (freq t3) ROOT =? MAX_FREQ) eqn:E3;
      [apply Z.eqb_eq in E3; lia|exact U1]. }
  exists t3, t'. split; [exact R1|]. split; [exact Hu|].
  split; [now rewrite Hu|]. split; [exact R5|].
  destruct R2 as (Hti3 & Hs3 & Hr3). split; [exact Hs3|]. split.
  { intros i Hi. destruct (Z_lt_dec (aget (son t3) i) TSIZE) as [Hn|Hn].
    - destruct (inv_node _ _ Hti3 i Hi Hn) as (A & B & C & D & E).
      destruct (i =? -1) eqn:E1; [apply Z.eqb_eq in E1; lia|].
      split; [exact C|]. intros _. repeat split; try assumption. lia.
    - destruct (inv_leaf _ _ Hti3 i Hi ltac:(lia)) as (_ & B).
      split; [exact B|]. intros Hn'. lia. }
  split; [exact (conj Hti3 (conj Hs3 Hr3))|].
  split; [lia|]. split; [exact U3|]. split; [lia|]. split; [exact U2|].
  intros c'. unfold update.
  destruct (aget (freq t') ROOT =? MAX_FREQ) eqn:E4;
    [apply Z.eqb_eq in E4; lia|reflexivity].
Qed.

Lemma update_rebuilds_once_at_MAX_FREQ_witness :
  exists t3 t',
    rebuild 627 threshold_tree = Some t3 /\
    update 627 0 threshold_tree = Some t' /\
    aget (freq t3) ROOT < MAX_FREQ /\
    aget (freq t') ROOT = aget (freq t3) ROOT + 1.
Proof.
  destruct (update_rebuilds_once_at_MAX_FREQ 627 0 threshold_tree)
    as (t3 & t' & H1 & _ & H3 & _ & _ & _ & _ & H8 & H9 & _).
  - exact (proj1 threshold_tree_ok).
  - exact (proj2 threshold_tree_ok).
  - vm_compute. split; [discriminate|reflexivity].
  - vm_compute. lia.
  - exists t3, t'. exact (conj H1 (conj H3 (conj H8 H9))).
Defined.

(** * Further properties of the code *)

(** ** The sector buffer *)

Lemma cset_spec buf : forall (i : nat) b, (i < length buf)%nat ->
  cset buf (Z.of_nat i) b = firstn i buf ++ Some b :: skipn (S i) buf.
Proof.
  induction buf as [|x r IH]; intros i b Hi; [cbn in Hi; lia|].
  destruct i as [|i].
  - reflexivity.
  - cbn [cset firstn skipn app]. 
    destruct (Z.of_nat (S i) =? 0) eqn:E; [apply Z.eqb_eq in E; lia|].
    replace (Z.of_nat (S i) - 1) with (Z.of_nat i) by lia.
    rewrite IH by (cbn in Hi; lia). reflexivity.
Qed.

Lemma store_length bs : forall buf p, length (store buf p bs) = length buf.
Proof.
  induction bs as [|b r IH]; intros buf p; cbn [store]; [reflexivity|].
  rewrite IH. apply cset_length.
Qed.

Lemma store_spec bs : forall buf (p : nat),
  (p + length bs <= length buf)%nat ->
  store buf (Z.of_nat p) bs
    = firstn p buf ++ map Some bs ++ skipn (p + length bs) buf.
Proof.
  induction bs as [|b r IH]; intros buf p Hp.
  - cbn [store map app length]. rewrite Nat.add_0_r. symmetry. apply firstn_skipn.
  - cbn [store length map] in *.
    replace (Z.of_nat p + 1) with (Z.of_nat (S p)) by lia.
    rewrite IH by (rewrite cset_length; lia).
    rewrite cset_spec by lia.
    rewrite firstn_app, firstn_firstn, Nat.min_r by lia.
    rewrite firstn_length_le by lia.
    replace (S p - p)%nat with 1%nat by lia. cbn [firstn].
    rewrite skipn_app, firstn_length_le by lia.
    rewrite (skipn_all2 (firstn p buf)) by (rewrite firstn_length_le; lia).
    replace (S p + length r - p)%nat with (S (length r)) by lia.
    rewrite skipn_cons, skipn_skipn.
    replace (length r + S p)%nat with (p + S (length r))%nat by lia.
    rewrite <- app_assoc. reflexivity.
Qed.

Lemma store_fresh bs :
  store (repeat None (length bs)) 0 bs = map Some bs.
Proof.
  rewrite (store_spec bs _ 0) by (rewrite repeat_length; lia).
  cbn [firstn app Nat.add].
  rewrite skipn_all2 by (rewrite repeat_length; lia).
  apply app_nil_r.
Qed.

Lemma set_fpi_twice a e b e' s :
  set_fpi a e (set_fpi b e' s) = set_fpi a e s.
Proof. reflexivity. Qed.

Lemma set_fpi_same s : set_fpi (fpi s) (fpi_eof s) s = s.
Proof. destruct s; reflexivity. Qed.

Lemma fread1_short size s :
  0 < size -> Z.of_nat (length (fpi s)) < size ->
  fread1 size s = (fpi s, false, set_fpi [] true s).
Proof.
  intros H0 H. unfold fread1.
  destruct (size =? 0) eqn:E; [apply Z.eqb_eq in E; lia|].
  destruct (Z.of_nat (length (fpi s)) <? size) eqn:E1;
    [|apply Z.ltb_ge in E1; lia].
  rewrite firstn_all2 by lia. reflexivity.
Qed.

Lemma byte_val_of_Z z : 0 <= z < 256 -> byte_val (byte_of_Z z) = z.
Proof.
  intros Hz. unfold byte_val, byte_of_Z.
  destruct (Byte.of_N (Z.to_N z)) as [b|] eqn:E.
  - apply Byte.to_of_N in E. rewrite E. lia.
  - apply Byte.of_N_None_iff in E. lia.
Qed.

(** ** A sector with a data field *)

Lemma process_sector_with_data fuel out s c h r sz fl crc o1 o2 m body :
  fpi s = [c; h; r; sz; fl; crc; o1; o2; m] ++ body ->
  byte_val sz <= 6 -> Z.land (byte_val fl) SEC_NODAT = 0 ->
  process_sector fuel out s =
    match read_sector_data fuel out (byte_val m) (Z.shiftl 128 (byte_val sz))
            (repeat None (Z.to_nat (Z.shiftl 128 (byte_val sz))))
            (set_fpi body (fpi_eof s) s) with
    | Ret (data, s3) => Ret (out ++ data, s3)
    | Exit e o => Exit e o
    | Undef => Undef
    | NoFuel => NoFuel
    end.
Proof.
  intros Hf Hsz Hfl. unfold process_sector.
  rewrite (fread1_ok 6 s [c; h; r; sz; fl; crc] ([o1; o2; m] ++ body));
    [|exact Hf|reflexivity|lia].
  cbn [negb nth].
  destruct (byte_val sz >? 6) eqn:E; [lia|].
  rewrite Hfl, Z.eqb_refl.
  rewrite (fread1_ok 3 _ [o1; o2; m] body); [|reflexivity|reflexivity|lia].
  cbn [negb nth]. reflexivity.
Qed.

Lemma shiftl_128_pos z : 0 <= z -> 0 < Z.shiftl 128 z.
Proof.
  intros Hz. rewrite Z.shiftl_mul_pow2 by exact Hz.
  pose proof (Z.pow_pos_nonneg 2 z ltac:(lia) Hz). lia.
Qed.

Lemma read_raw_sector fuel out s payload rest :
  fpi s = payload ++ rest -> (0 < length payload)%nat ->
  read_sector_data fuel out 0 (Z.of_nat (length payload))
    (repeat None (Z.to_nat (Z.of_nat (length payload)))) s
    = Ret (map Some payload, set_fpi rest (fpi_eof s) s).
Proof.
  intros Hf Hpos. unfold read_sector_data. rewrite Z.eqb_refl.
  rewrite (fread1_ok _ s payload rest); [|exact Hf|reflexivity|lia].
  cbn [negb]. rewrite Nat2Z.id, store_fresh. reflexivity.
Qed.

Lemma read_raw_sector_short fuel out s size buf :
  0 < size -> Z.of_nat (length (fpi s)) < size ->
  read_sector_data fuel out 0 size buf s = Exit ERawData out.
Proof.
  intros H0 H. unfold read_sector_data. rewrite Z.eqb_refl.
  rewrite fread1_short by assumption. reflexivity.
Qed.

(** ** Method 1: the repeated pair *)

Lemma pairs_snoc (b1 b2 : byte) j :
  concat (repeat [b1; b2] (S j)) = concat (repeat [b1; b2] j) ++ [b1; b2].
Proof.
  change (repeat [b1; b2] (S j)) with ([b1; b2] :: repeat [b1; b2] j).
  rewrite repeat_cons, concat_app. cbn [concat app]. reflexivity.
Qed.

Lemma pairs_length (b1 b2 : byte) j :
  length (concat (repeat [b1; b2] j)) = (2 * j)%nat.
Proof.
  induction j as [|j IH]; [reflexivity|].
  cbn [repeat concat]. rewrite length_app, IH. cbn [length]. lia.
Qed.

Lemma skipn_repeat {A : Type} (x : A) : forall k n,
  skipn k (repeat x n) = repeat x (n - k).
Proof.
  induction k as [|k IH]; intros n.
  - rewrite Nat.sub_0_r. reflexivity.
  - destruct n as [|n]; [reflexivity|]. cbn [repeat skipn]. apply IH.
Qed.

Lemma store_pair b1 b2 (j size : nat) :
  (2 * j + 2 <= size)%nat ->
  store (pairs_then_garbage b1 b2 j size) (Z.of_nat (2 * j)) [b1; b2]
    = pairs_then_garbage b1 b2 (S j) size.
Proof.
  intros Hj. unfold pairs_then_garbage.
  rewrite store_spec
    by (rewrite length_app, length_map, pairs_length, repeat_length;
        cbn [length]; lia).
  rewrite firstn_app, length_map, pairs_length, Nat.sub_diag.
  rewrite firstn_all2 by (rewrite length_map, pairs_length; lia).
  cbn [firstn]. rewrite app_nil_r.
  rewrite skipn_app, length_map, pairs_length.
  rewrite skipn_all2 by (rewrite length_map, pairs_length; cbn [length]; lia).
  cbn [length app].
  replace (2 * j + 2 - 2 * j)%nat with 2%nat by lia.
  rewrite skipn_repeat.
  replace (size - 2 * j - 2)%nat with (size - 2 * S j)%nat by lia.
  rewrite pairs_snoc, map_app, <- app_assoc. reflexivity.
Qed.

Lemma rle_pairs_fill b1 b2 (count h : nat) (n : nat) : forall j : nat,
  (j <= Nat.min count h)%nat -> (Nat.min count h <= n + j)%nat ->
  rle_pairs n (Z.of_nat (2 * j)) (Z.of_nat count) (Z.of_nat (2 * h)) b1 b2
    (pairs_then_garbage b1 b2 j (2 * h))
  = pairs_then_garbage b1 b2 (Nat.min count h) (2 * h).
Proof.
  induction n as [|n IH]; intros j Hj Hn.
  - cbn [rle_pairs]. replace j with (Nat.min count h) by lia. reflexivity.
  - cbn [rle_pairs].
    destruct (Nat.eq_dec j (Nat.min count h)) as [->|Hne].
    + destruct ((Z.of_nat (2 * Nat.min count h) <? Z.of_nat count * 2)
                && (Z.of_nat (2 * Nat.min count h) <? Z.of_nat (2 * h))) eqn:E;
        [|reflexivity].
      apply andb_true_iff in E. destruct E as [E1 E2].
      apply Z.ltb_lt in E1, E2. lia.
    + replace ((Z.of_nat (2 * j) <? Z.of_nat count * 2)
               && (Z.of_nat (2 * j) <? Z.of_nat (2 * h))) with true
        by (symmetry; apply andb_true_iff; split; apply Z.ltb_lt; lia).
      rewrite store_pair by lia.
      replace (Z.of_nat (2 * j) + 2) with (Z.of_nat (2 * S j)) by lia.
      apply IH; lia.
Qed.

Lemma read_pair_sector fuel out s lo hi b1 b2 rest (h : nat) :
  fpi s = [lo; hi; b1; b2] ++ rest ->
  read_sector_data fuel out 1 (Z.of_nat (2 * h))
    (repeat None (Z.to_nat (Z.of_nat (2 * h)))) s
  = Ret (pairs_then_garbage b1 b2
           (Nat.min (Z.to_nat (byte_val lo + 256 * byte_val hi)) h) (2 * h),
         set_fpi rest (fpi_eof s) s).
Proof.
  intros Hf. unfold read_sector_data.
  change (1 =? 0) with false. change (1 =? 1) with true. cbv iota.
  rewrite (fread1_ok 2 s [lo; hi] ([b1; b2] ++ rest)); [|exact Hf|reflexivity|lia].
  cbn [negb nth].
  rewrite (fread1_ok 1 _ [b1] ([b2] ++ rest)); [|reflexivity|reflexivity|lia].
  cbn [negb].
  rewrite (fread1_ok 1 _ [b2] rest); [|reflexivity|reflexivity|lia].
  cbn [negb hd]. rewrite !set_fpi_twice.
  pose proof (byte_val_range lo). pose proof (byte_val_range hi).
  set (count := byte_val lo + 256 * byte_val hi) in *.
  rewrite Nat2Z.id.
  replace (repeat None (2 * h)) with (pairs_then_garbage b1 b2 0 (2 * h))
    by (unfold pairs_then_garbage; cbn [repeat concat map app];
        f_equal; lia).
  pose proof (rle_pairs_fill b1 b2 (Z.to_nat count) h (2 * h) 0
                ltac:(lia) ltac:(lia)) as R.
  rewrite Z2Nat.id in R by lia. change (Z.of_nat (2 * 0)) with 0 in R.
  rewrite R. reflexivity.
Qed.

(** ** Method 2: literal blocks and fragments *)

Lemma concat_repeat_length {A : Type} (l : list A) n :
  length (concat (repeat l n)) = (n * length l)%nat.
Proof.
  induction n as [|n IH]; [reflexivity|].
  cbn [repeat concat]. rewrite length_app, IH. lia.
Qed.

Lemma block_data_length b :
  block_wf b -> (1 <= length (block_data b))%nat.
Proof.
  destruct b as [data|bt cnt frag]; cbn [block_wf block_data].
  - lia.
  - intros (Hbt & Hc & Hl). rewrite concat_repeat_length.
    rewrite Z.shiftl_mul_pow2 in Hl by lia.
    pose proof (Z.pow_pos_nonneg 2 bt ltac:(lia) ltac:(lia)). nia.
Qed.

Lemma rle_literal_run out p remain buf s cnt data rest :
  fpi s = cnt :: data ++ rest ->
  byte_val cnt = Z.of_nat (length data) -> (1 <= length data)%nat ->
  Z.of_nat (length data) <= remain ->
  rle_literal out p remain buf s
    = Ret (store buf p data, p + Z.of_nat (length data),
           remain - Z.of_nat (length data), set_fpi rest (fpi_eof s) s).
Proof.
  intros Hf Hc Hpos Hr. unfold rle_literal.
  rewrite (fread1_ok 1 s [cnt] (data ++ rest)); [|exact Hf|reflexivity|lia].
  cbn [negb hd]. rewrite Hc.
  destruct (Z.of_nat (length data) >? remain) eqn:E; [lia|].
  rewrite (fread1_ok _ _ data rest); [|reflexivity|reflexivity|lia].
  cbn [negb]. reflexivity.
Qed.

Lemma rle_blocks_decodes (bs : list block) : forall fuel out p remain buf s rest,
  Forall block_wf bs ->
  fpi s = flat_map block_bytes bs ++ rest ->
  Z.of_nat (length (flat_map block_data bs)) = remain ->
  (length bs <= fuel)%nat ->
  rle_blocks fuel out p remain buf s
    = Ret (store buf p (flat_map block_data bs), set_fpi rest (fpi_eof s) s).
Proof.
  induction bs as [|b bs IH]; intros fuel out p remain buf s rest Hwf Hf Hr Hfuel.
  - cbn [flat_map app length store] in *. subst remain.
    rewrite <- Hf, set_fpi_same. destruct fuel; reflexivity.
  - inversion Hwf as [|b' bs' Hb Hbs]; subst b' bs'.
    pose proof (block_data_length b Hb) as Hlen.
    cbn [flat_map length] in Hf, Hr, Hfuel. rewrite length_app in Hr.
    destruct fuel as [|fuel]; [lia|].
    cbn [rle_blocks flat_map].
    destruct (remain <=? 0) eqn:E0; [apply Z.leb_le in E0; lia|].
    rewrite store_app.
    destruct b as [data|bt cnt frag]; cbn [block_wf block_bytes block_data] in *.
    + rewrite (fread1_ok 1 s [x00] ((byte_of_Z (Z.of_nat (length data)) :: data)
                                      ++ flat_map block_bytes bs ++ rest));
        [|rewrite Hf, <- app_assoc; reflexivity|reflexivity|lia].
      cbn [negb hd]. change (byte_val x00 =? 0) with true. cbv iota.
      rewrite (rle_literal_run out p remain buf _
                 (byte_of_Z (Z.of_nat (length data))) data
                 (flat_map block_bytes bs ++ rest));
        [|reflexivity
         |apply byte_val_of_Z; lia|lia|lia].
      rewrite set_fpi_twice.
      rewrite (IH fuel out _ _ _ _ rest Hbs); [|reflexivity|lia|lia].
      rewrite set_fpi_twice. reflexivity.
    + destruct Hb as (Hbt & Hc & Hl).
      pose proof (byte_val_range cnt) as Hcr.
      rewrite concat_repeat_length in Hr, Hlen.
      assert (Hfs : 0 < Z.shiftl 1 bt)
        by (rewrite Z.shiftl_mul_pow2 by lia;
            pose proof (Z.pow_pos_nonneg 2 bt ltac:(lia) ltac:(lia)); lia).
      rewrite (fread1_ok 1 s [byte_of_Z bt] ((cnt :: frag)
                                      ++ flat_map block_bytes bs ++ rest));
        [|rewrite Hf, <- app_assoc; reflexivity|reflexivity|lia].
      cbn [negb hd]. rewrite byte_val_of_Z by lia.
      destruct (bt =? 0) eqn:Ebt; [apply Z.eqb_eq in Ebt; lia|].
      rewrite (rle_fragment_run out buf bt p remain _ cnt frag
                 (flat_map block_bytes bs ++ rest));
        [|lia|reflexivity|exact Hl].
      rewrite (copy_fragment_copies _ frag (Z.shiftl 1 bt) Hfs Hl) by lia.
      assert (Hmin : Z.min (Z.of_nat (Z.to_nat (byte_val cnt)))
                       (remain / Z.shiftl 1 bt) = byte_val cnt).
      { rewrite Z2Nat.id by lia. apply Z.min_l.
        apply Z.div_le_lower_bound; [exact Hfs|]. nia. }
      rewrite Hmin. rewrite set_fpi_twice.
      rewrite (IH fuel out _ _ _ _ rest Hbs); [|reflexivity|nia|lia].
      rewrite set_fpi_twice, concat_repeat_length. 
      replace (Z.of_nat (Z.to_nat (byte_val cnt) * length frag))
        with (byte_val cnt * Z.shiftl 1 bt) by nia.
      reflexivity.
Qed.

Lemma process_raw_sector fuel out s c h r sz fl crc o1 o2 m body :
  fpi s = [c; h; r; sz; fl; crc; o1; o2; m] ++ body ->
  byte_val sz <= 6 -> Z.land (byte_val fl) SEC_NODAT = 0 -> byte_val m = 0 ->
  (forall payload rest,
     body = payload ++ rest ->
     Z.of_nat (length payload) = Z.shiftl 128 (byte_val sz) ->
     process_sector fuel out s
       = Ret (out ++ map Some payload, set_fpi rest (fpi_eof s) s)) /\
  (Z.of_nat (length body) < Z.shiftl 128 (byte_val sz) ->
   process_sector fuel out s = Exit ERawData out).
Proof.
  intros Hf Hsz Hfl Hm.
  pose proof (byte_val_range sz) as Hr.
  pose proof (shiftl_128_pos (byte_val sz) ltac:(lia)) as Hpos.
  rewrite (process_sector_with_data fuel out s c h r sz fl crc o1 o2 m body
             Hf Hsz Hfl), Hm.
  split.
  - intros payload rest Hb Hl. rewrite <- Hl.
    rewrite (read_raw_sector fuel out _ payload rest); [|exact Hb|lia].
    rewrite set_fpi_twice. reflexivity.
  - intros Hshort. rewrite read_raw_sector_short; [reflexivity|lia|exact Hshort].
Qed.

Lemma process_pair_sector fuel out s c h r sz fl crc o1 o2 m lo hi b1 b2 rest :
  fpi s = [c; h; r; sz; fl; crc; o1; o2; m; lo; hi; b1; b2] ++ rest ->
  byte_val sz <= 6 -> Z.land (byte_val fl) SEC_NODAT = 0 -> byte_val m = 1 ->
  process_sector fuel out s
    = Ret (out ++ pairs_then_garbage b1 b2
                    (Z.to_nat (Z.min (byte_val lo + 256 * byte_val hi)
                                     (Z.shiftl 64 (byte_val sz))))
                    (Z.to_nat (Z.shiftl 128 (byte_val sz))),
           set_fpi rest (fpi_eof s) s).
Proof.
  intros Hf Hsz Hfl Hm.
  pose proof (byte_val_range sz) as Hr.
  pose proof (byte_val_range lo) as Hlo.
  pose proof (byte_val_range hi) as Hhi.
  rewrite (process_sector_with_data fuel out s c h r sz fl crc o1 o2 m
             ([lo; hi; b1; b2] ++ rest) Hf Hsz Hfl), Hm.
  assert (H64 : 0 < Z.shiftl 64 (byte_val sz))
    by (rewrite Z.shiftl_mul_pow2 by lia;
        pose proof (Z.pow_pos_nonneg 2 (byte_val sz) ltac:(lia) ltac:(lia)); lia).
  assert (H128 : Z.shiftl 128 (byte_val sz)
                 = Z.of_nat (2 * Z.to_nat (Z.shiftl 64 (byte_val sz)))).
  { rewrite Nat2Z.inj_mul, Z2Nat.id by lia.
    rewrite !Z.shiftl_mul_pow2 by lia. change (Z.of_nat 2) with 2. lia. }
  rewrite H128.
  rewrite (read_pair_sector fuel out _ lo hi b1 b2 rest); [|reflexivity].
  rewrite set_fpi_twice, Nat2Z.id, Z2Nat.inj_min. reflexivity.
Qed.

Lemma process_block_sector fuel out s c h r sz fl crc o1 o2 m bs rest :
  fpi s = [c; h; r; sz; fl; crc; o1; o2; m] ++ flat_map block_bytes bs ++ rest ->
  byte_val sz <= 6 -> Z.land (byte_val fl) SEC_NODAT = 0 -> byte_val m = 2 ->
  Forall block_wf bs ->
  Z.of_nat (length (flat_map block_data bs)) = Z.shiftl 128 (byte_val sz) ->
  (length bs <= fuel)%nat ->
  process_sector fuel out s
    = Ret (out ++ map Some (flat_map block_data bs),
           set_fpi rest (fpi_eof s) s).
Proof.
  intros Hf Hsz Hfl Hm Hwf Hlen Hfuel.
  rewrite (process_sector_with_data fuel out s c h r sz fl crc o1 o2 m
             (flat_map block_bytes bs ++ rest) Hf Hsz Hfl), Hm.
  unfold read_sector_data.
  change (2 =? 0) with false. change (2 =? 1) with false.
  change (2 =? 2) with true. cbv iota.
  rewrite (rle_blocks_decodes bs fuel out 0 _ _ _ rest Hwf);
    [|reflexivity|exact Hlen|exact Hfuel].
  rewrite <- Hlen, Nat2Z.id, store_fresh, set_fpi_twice. reflexivity.
Qed.

(** X1. A sector with a data field stored with method 0 is copied to the
    output byte for byte: [128 << Ssize] bytes of payload follow the data
    header and go to the output unchanged, the input being left at the
    first byte after them; a payload cut short by the end of the file is
    the fatal error "Error reading raw sector data" and writes nothing of
    the sector. *)
Theorem raw_sector_is_copied fuel out s c h r sz fl crc o1 o2 m body :
  fpi s = [c; h; r; sz; fl; crc; o1; o2; m] ++ body ->
  byte_val sz <= 6 -> Z.land (byte_val fl) SEC_NODAT = 0 -> byte_val m = 0 ->
  (forall payload rest,
     body = payload ++ rest ->
     Z.of_nat (length payload) = Z.shiftl 128 (byte_val sz) ->
     process_sector fuel out s
       = Ret (out ++ map Some payload, set_fpi rest (fpi_eof s) s)) /\
  (Z.of_nat (length body) < Z.shiftl 128 (byte_val sz) ->
   process_sector fuel out s = Exit ERawData out).
Proof. exact (process_raw_sector fuel out s c h r sz fl crc o1 o2 m body). Qed.

Lemma raw_sector_is_copied_witness :
  output_of (process_sector 0 imd_header
               (initial_state ([x00; x00; x01; x00; x00; x00; x83; x00; x00]
                               ++ repeat x41 128 ++ [xff])))
    = Some (imd_header ++ map Some (repeat x41 128)).
Proof.
  rewrite (proj1 (raw_sector_is_copied 0 imd_header
                    (initial_state ([x00; x00; x01; x00; x00; x00; x83; x00; x00]
                                    ++ repeat x41 128 ++ [xff]))
                    x00 x00 x01 x00 x00 x00 x83 x00 x00
                    (repeat x41 128 ++ [xff])
                    eq_refl ltac:(vm_compute; discriminate) eq_refl eq_refl)
                 (repeat x41 128) [xff] eq_refl eq_refl).
  reflexivity.
Defined.

(** X2. A sector stored with method 1 holds a 16-bit count and one pair of
    bytes: the pair is stored [min(count, size/2)] times from the start of
    the sector buffer, and the rest of the buffer, which [malloc] returned
    and nothing else writes, goes to the output as it is. With a count of
    zero the whole sector is such memory. *)
Theorem pair_sector_is_filled fuel out s c h r sz fl crc o1 o2 m lo hi b1 b2 rest :
  fpi s = [c; h; r; sz; fl; crc; o1; o2; m; lo; hi; b1; b2] ++ rest ->
  byte_val sz <= 6 -> Z.land (byte_val fl) SEC_NODAT = 0 -> byte_val m = 1 ->
  process_sector fuel out s
    = Ret (out ++ pairs_then_garbage b1 b2
                    (Z.to_nat (Z.min (byte_val lo + 256 * byte_val hi)
                                     (Z.shiftl 64 (byte_val sz))))
                    (Z.to_nat (Z.shiftl 128 (byte_val sz))),
           set_fpi rest (fpi_eof s) s).
Proof. exact (process_pair_sector fuel out s c h r sz fl crc o1 o2 m lo hi b1 b2 rest). Qed.

Lemma pair_sector_is_filled_witness :
  output_of (process_sector 0 []
               (initial_state [x00; x00; x01; x00; x00; x00; x05; x00; x01;
                               x02; x00; x41; x42; xff]))
    = Some ([Some x41; Some x42; Some x41; Some x42] ++ repeat None 124).
Proof.
  rewrite (pair_sector_is_filled 0 []
             (initial_state [x00; x00; x01; x00; x00; x00; x05; x00; x01;
                             x02; x00; x41; x42; xff])
             x00 x00 x01 x00 x00 x00 x05 x00 x01 x02 x00 x41 x42 [xff]
             eq_refl ltac:(vm_compute; discriminate) eq_refl eq_refl).
  reflexivity.
Defined.

(** X3. Method 2 decodes what its block stream encodes. For every list of
    blocks, each a literal of 1 to 255 bytes or a fragment of [1 << t]
    bytes ([1 <= t <= 8]) repeated at least once, whose data add up to
    exactly the sector size, the sector written to the output is the
    concatenation of the literal data and of the repeated fragments, in
    order, and the input is left at the first byte after the last block. *)
Theorem block_sector_round_trip fuel out s c h r sz fl crc o1 o2 m bs rest :
  fpi s = [c; h; r; sz; fl; crc; o1; o2; m] ++ flat_map block_bytes bs ++ rest ->
  byte_val sz <= 6 -> Z.land (byte_val fl) SEC_NODAT = 0 -> byte_val m = 2 ->
  Forall block_wf bs ->
  Z.of_nat (length (flat_map block_data bs)) = Z.shiftl 128 (byte_val sz) ->
  (length bs <= fuel)%nat ->
  process_sector fuel out s
    = Ret (out ++ map Some (flat_map block_data bs),
           set_fpi rest (fpi_eof s) s).
Proof. exact (process_block_sector fuel out s c h r sz fl crc o1 o2 m bs rest). Qed.

Lemma block_sector_round_trip_witness :
  output_of (process_sector 2 []
               (initial_state [x00; x00; x01; x00; x00; x00; x09; x00; x02;
                               x01; x3f; xff; xee; x00; x02; x41; x42; xff]))
    = Some (map Some (concat (repeat [xff; xee] 63) ++ [x41; x42])).
Proof.
  rewrite (block_sector_round_trip 2 []
             (initial_state [x00; x00; x01; x00; x00; x00; x09; x00; x02;
                             x01; x3f; xff; xee; x00; x02; x41; x42; xff])
             x00 x00 x01 x00 x00 x00 x09 x00 x02
             [Fragment 1 x3f [xff; xee]; Literal [x41; x42]] [xff]
             eq_refl ltac:(vm_compute; discriminate) eq_refl eq_refl).
  - reflexivity.
  - repeat constructor; vm_compute; discriminate.
  - reflexivity.
  - repeat constructor.
Defined.

(** ** What every run of the sector loop keeps *)

Lemma fread1_shape size s bs ok s1 :
  fread1 size s = (bs, ok, s1) ->
  (length (fpi s1) <= length (fpi s))%nat /\
  (ok = true ->
   bs = firstn (Z.to_nat size) (fpi s) /\
   (length (fpi s1) + Z.to_nat size = length (fpi s))%nat).
Proof.
  unfold fread1. destruct (size =? 0) eqn:E0.
  - intros H. inversion H; subst. split; [lia|discriminate].
  - apply Z.eqb_neq in E0.
    destruct (Z.of_nat (length (fpi s)) <? size) eqn:E1;
      intros H; inversion H; subst; cbn [fpi set_fpi length].
    + split; [lia|discriminate].
    + apply Z.ltb_ge in E1. rewrite length_skipn.
      split; [lia|]. intros _. split; [reflexivity|lia].
Qed.

Lemma rle_pairs_length n : forall i count size b1 b2 buf,
  length (rle_pairs n i count size b1 b2 buf) = length buf.
Proof.
  induction n as [|n IH]; intros; cbn [rle_pairs]; [reflexivity|].
  destruct ((i <? count * 2) && (i <? size)); [|reflexivity].
  rewrite IH. apply store_length.
Qed.

Lemma copy_fragment_length n frag frag_size : forall p remain buf,
  length (fst (fst (copy_fragment n frag frag_size p remain buf))) = length buf.
Proof.
  induction n as [|n IH]; intros; cbn [copy_fragment]; [reflexivity|].
  destruct (frag_size <=? remain); [|reflexivity].
  rewrite IH. apply store_length.
Qed.

Lemma rle_literal_shape out p remain buf s :
  run_shape (rle_literal out p remain buf s)
    (fun '(buf1, _, _, s1) =>
       length buf1 = length buf /\ (bytes_left s1 <= bytes_left s)%nat)
    (fun _ => eq out) False.
Proof.
  unfold rle_literal, bytes_left.
  destruct (fread1 1 s) as [[cb ok] sa] eqn:E1.
  destruct ok; cbn [negb]; [|reflexivity].
  cbv zeta.
  destruct (fread1 _ sa) as [[data ok2] sb] eqn:E2.
  destruct ok2; cbn [negb]; [|reflexivity].
  apply fread1_shape in E1, E2. cbn [run_shape].
  rewrite store_length. split; [reflexivity|lia].
Qed.

Lemma rle_fragment_shape out blocktype p remain buf s :
  run_shape (rle_fragment out blocktype p remain buf s)
    (fun '(buf1, _, _, s1) =>
       length buf1 = length buf /\ (bytes_left s1 <= bytes_left s)%nat)
    (fun _ => eq out) False.
Proof.
  unfold rle_fragment, bytes_left.
  destruct (31 <=? blocktype); [exact I|]. cbv zeta.
  destruct (fread1 1 s) as [[cb ok] sa] eqn:E1.
  destruct ok; cbn [negb]; [|reflexivity].
  destruct (fread1 _ sa) as [[frag ok2] sb] eqn:E2.
  destruct (256 <? Z.of_nat (length frag)); [exact I|].
  destruct ok2; cbn [negb]; [|reflexivity].
  pose proof (copy_fragment_length (Z.to_nat (byte_val (hd x00 cb))) frag
                (Z.shiftl 1 blocktype) p remain buf) as Hl.
  destruct (copy_fragment _ _ _ _ _ _) as [[b1 q1] r1].
  apply fread1_shape in E1, E2. cbn [run_shape fst] in *.
  split; [exact Hl|lia].
Qed.

Lemma rle_blocks_shape fuel : forall out p remain buf s,
  run_shape (rle_blocks fuel out p remain buf s)
    (fun '(buf1, s1) => length buf1 = length buf /\ (bytes_left s1 <= bytes_left s)%nat)
    (fun _ => eq out) (fuel <= bytes_left s)%nat.
Proof.
  induction fuel as [|fuel IH]; intros out p remain buf s; cbn [rle_blocks];
    (destruct (remain <=? 0); [cbn [run_shape]; split; [reflexivity|lia]|]).
  - cbn [run_shape]. lia.
  - destruct (fread1 1 s) as [[bt ok] s1] eqn:E1.
    destruct ok; cbn [negb]; [|reflexivity].
    apply fread1_shape in E1. destruct E1 as [_ E1].
    destruct (E1 eq_refl) as (_ & Hlen). unfold bytes_left in *.
    change (Z.to_nat 1) with 1%nat in Hlen.
    assert (Hstep : forall r : run (list cell * Z * Z * state),
      run_shape r (fun '(buf1, _, _, s2) =>
                     length buf1 = length buf /\ (bytes_left s2 <= bytes_left s1)%nat)
                (fun _ => eq out) False ->
      run_shape
        match r with
        | Ret (buf1, p1, remain1, s2) => rle_blocks fuel out p1 remain1 buf1 s2
        | Exit e o => Exit e o
        | Undef => Undef
        | NoFuel => NoFuel
        end
        (fun '(buf1, s2) =>
           length buf1 = length buf /\ (length (fpi s2) <= length (fpi s))%nat)
        (fun _ => eq out) (S fuel <= length (fpi s))%nat).
    { intros [[[[buf1 p1] remain1] s2]|e o| |]; cbn [run_shape];
        [|tauto|tauto|tauto].
      intros [Hb Hs]. unfold bytes_left in Hs.
      pose proof (IH out p1 remain1 buf1 s2) as H.
      destruct (rle_blocks fuel out p1 remain1 buf1 s2) as [[b2 s3]|e o| |];
        cbn [run_shape] in *; unfold bytes_left in *; [|exact H|exact I|lia].
      destruct H as [H1 H2]. split; [congruence|lia]. }
    apply Hstep.
    destruct (byte_val (hd x00 bt) =? 0);
      [apply rle_literal_shape|apply rle_fragment_shape].
Qed.

Lemma read_sector_data_shape fuel out method sector_size buf s :
  run_shape (read_sector_data fuel out method sector_size buf s)
    (fun '(buf1, s1) => length buf1 = length buf /\ (bytes_left s1 <= bytes_left s)%nat)
    (fun _ => eq out) (fuel <= bytes_left s)%nat.
Proof.
  unfold read_sector_data, bytes_left.
  destruct (method =? 0).
  { destruct (fread1 sector_size s) as [[data ok] s1] eqn:E1.
    destruct ok; cbn [negb]; [|reflexivity].
    apply fread1_shape in E1. cbn [run_shape].
    rewrite store_length. split; [reflexivity|lia]. }
  destruct (method =? 1).
  { destruct (fread1 2 s) as [[cb ok] s1] eqn:E1.
    destruct ok; cbn [negb]; [|reflexivity].
    cbv zeta.
    destruct (fread1 1 s1) as [[b1 ok1] s2] eqn:E2.
    destruct ok1; cbn [negb]; [|reflexivity].
    destruct (fread1 1 s2) as [[b2 ok2] s3] eqn:E3.
    destruct ok2; cbn [negb]; [|reflexivity].
    apply fread1_shape in E1, E2, E3. cbn [run_shape].
    rewrite rle_pairs_length. split; [reflexivity|lia]. }
  destruct (method =? 2); [apply rle_blocks_shape|reflexivity].
Qed.

Lemma extends_refl out : extends out out.
Proof. exists []. split; [symmetry; apply app_nil_r|reflexivity]. Qed.

Lemma extends_trans a b c : extends a b -> extends b c -> extends a c.
Proof.
  intros (d1 & -> & H1) (d2 & -> & H2). exists (d1 ++ d2).
  split; [symmetry; apply app_assoc|].
  rewrite length_app, Nat2Z.inj_add, Z.add_mod, H1, H2 by lia. reflexivity.
Qed.

Lemma shiftl_128_mod z : 0 <= z -> Z.shiftl 128 z mod 128 = 0.
Proof.
  intros Hz. rewrite Z.shiftl_mul_pow2 by exact Hz.
  rewrite Z.mul_comm. apply Z.mod_mul. lia.
Qed.

Lemma process_sector_shape fuel out s :
  run_shape (process_sector fuel out s)
    (fun '(out1, s1) =>
       exists data, out1 = out ++ data /\
         Z.of_nat (length data)
           = (if Z.land (next_Sflags s) SEC_NODAT =? 0
              then Z.shiftl 128 (next_Ssize s) else 0) /\
         0 <= next_Ssize s <= 6 /\ (bytes_left s1 + 6 <= bytes_left s)%nat)
    (fun _ => eq out) (fuel <= bytes_left s)%nat.
Proof.
  unfold process_sector, next_Sflags, next_Ssize, bytes_left.
  destruct (fread1 6 s) as [[sh ok] s1] eqn:E1.
  destruct ok; cbn [negb]; [|reflexivity].
  apply fread1_shape in E1. destruct E1 as [_ E1].
  destruct (E1 eq_refl) as (Hsh & Hlen). change (Z.to_nat 6) with 6%nat in *.
  assert (H3 : nth 3 sh x00 = nth 3 (fpi s) x00)
    by (rewrite Hsh, nth_firstn; reflexivity).
  assert (H4 : nth 4 sh x00 = nth 4 (fpi s) x00)
    by (rewrite Hsh, nth_firstn; reflexivity).
  rewrite H3, H4. cbv zeta.
  pose proof (byte_val_range (nth 3 (fpi s) x00)) as Hr.
  destruct (byte_val (nth 3 (fpi s) x00) >? 6) eqn:E6; [reflexivity|].
  destruct (Z.land (byte_val (nth 4 (fpi s) x00)) SEC_NODAT =? 0).
  - destruct (fread1 3 s1) as [[dh ok1] s2] eqn:E2.
    destruct ok1; cbn [negb]; [|reflexivity].
    apply fread1_shape in E2. destruct E2 as [E2 _].
    match goal with
    | |- context [read_sector_data ?f ?o ?m ?sz ?b ?st] =>
        pose proof (read_sector_data_shape f o m sz b st) as H;
        destruct (read_sector_data f o m sz b st) as [[data s3]|e o'| |]
    end; cbn [run_shape] in *; unfold bytes_left in *; [|exact H|exact I|lia].
    destruct H as [H1 H2]. exists data. rewrite repeat_length in H1.
    split; [reflexivity|]. split; [|split; lia].
    rewrite H1, Z2Nat.id; [reflexivity|].
    apply Z.shiftl_nonneg. lia.
  - cbn [run_shape]. exists []. rewrite app_nil_r.
    split; [reflexivity|]. split; [reflexivity|]. split; lia.
Qed.

Lemma process_sectors_shape fuel n : forall out s,
  run_shape (process_sectors fuel n out s)
    (fun '(out1, s1) => extends out out1 /\ (bytes_left s1 <= bytes_left s)%nat)
    (fun _ => extends out) (fuel <= bytes_left s)%nat.
Proof.
  induction n as [|n IH]; intros out s; cbn [process_sectors].
  - cbn [run_shape]. split; [apply extends_refl|lia].
  - pose proof (process_sector_shape fuel out s) as H.
    destruct (process_sector fuel out s) as [[out1 s1]|e o| |];
      cbn [run_shape] in *; [|subst o; apply extends_refl|exact I|exact H].
    destruct H as (data & -> & Hl & Hr & Hs).
    assert (Hx : extends out (out ++ data)).
    { exists data. split; [reflexivity|]. rewrite Hl.
      destruct (Z.land (next_Sflags s) SEC_NODAT =? 0); [|reflexivity].
      apply shiftl_128_mod. lia. }
    pose proof (IH (out ++ data) s1) as H.
    destruct (process_sectors fuel n (out ++ data) s1) as [[out2 s2]|e o| |];
      cbn [run_shape] in *; [| |exact I|lia].
    + destruct H as [H1 H2]. split; [exact (extends_trans _ _ _ Hx H1)|lia].
    + exact (extends_trans _ _ _ Hx H).
Qed.

Lemma process_tracks_shape fuel n : forall out s,
  run_shape (process_tracks fuel n out s)
    (fun '(out1, _) => extends out out1)
    (fun _ => extends out) (fuel <= bytes_left s \/ n <= bytes_left s)%nat.
Proof.
  induction n as [|n IH]; intros out s; cbn [process_tracks];
    (destruct (fpi_eof s); [apply extends_refl|]).
  - cbn [run_shape]. lia.
  - destruct (fread1 4 s) as [[th ok] s1] eqn:E1.
    destruct ok; cbn [negb]; [|apply extends_refl].
    apply fread1_shape in E1. destruct E1 as [_ E1].
    destruct (E1 eq_refl) as (_ & Hlen). change (Z.to_nat 4) with 4%nat in *.
    cbv zeta.
    destruct (byte_val (nth 0 th x00) =? 255); [apply extends_refl|].
    match goal with
    | |- context [process_sectors ?f ?k ?o ?st] =>
        pose proof (process_sectors_shape f k o st) as H;
        destruct (process_sectors f k o st) as [[out1 s2]|e o'| |]
    end; cbn [run_shape] in *; unfold bytes_left in *; [|exact H|exact I|lia].
    destruct H as [Hx Hs].
    pose proof (IH out1 s2) as H.
    destruct (process_tracks fuel n out1 s2) as [[out2 s3]|e o| |];
      cbn [run_shape] in *; unfold bytes_left in *;
      [exact (extends_trans _ _ _ Hx H)|exact (extends_trans _ _ _ Hx H)
      |exact I|lia].
Qed.

(** X4. Every sector that is decoded adds exactly its nominal size to the
    output, whatever the method and whatever the blocks hold: [128 << Ssize]
    bytes when the flag [SEC_NODAT] is clear, none when it is set; and a
    sector is only decoded when [Ssize] is at most 6. *)
Theorem sector_adds_its_size fuel out s out1 s1 :
  process_sector fuel out s = Ret (out1, s1) ->
  exists data,
    out1 = out ++ data /\
    Z.of_nat (length data)
      = (if Z.land (next_Sflags s) SEC_NODAT =? 0
         then Z.shiftl 128 (next_Ssize s) else 0) /\
    next_Ssize s <= 6.
Proof.
  intros H. pose proof (process_sector_shape fuel out s) as Hs.
  rewrite H in Hs. cbn [run_shape] in Hs.
  destruct Hs as (data & H1 & H2 & H3 & _).
  exists data. split; [exact H1|]. split; [exact H2|lia].
Qed.

Lemma sector_adds_its_size_witness :
  exists data : list cell,
    [Some x41; Some x42; None; None] ++ repeat None 124 = [] ++ data /\
    Z.of_nat (length data) = 128.
Proof.
  destruct (sector_adds_its_size 0 []
              (initial_state [x00; x00; x01; x00; x00; x00; x05; x00; x01;
                              x01; x00; x41; x42; xff])
              ([Some x41; Some x42; None; None] ++ repeat None 124)
              (set_fpi [xff] false (initial_state [])) eq_refl)
    as (data & H1 & H2 & _).
  exists data. split; [exact H1|exact H2].
Defined.

Lemma main_shape fuel input :
  run_shape (main fuel input)
    (fun '(out, _) => extends imd_header out)
    (fun e o => ((e = EHeader \/ e = ESignature) /\ o = []) \/
                extends imd_header o)
    (fuel <= length input)%nat.
Proof.
  unfold main.
  destruct (fread1 12 (initial_state input)) as [[hd ok] s1] eqn:E1.
  destruct ok; cbn [negb]; [|left; split; [left|]; reflexivity].
  cbv zeta.
  destruct (negb (_ =? 0x4454) && negb (_ =? 0x4464));
    [left; split; [right|]; reflexivity|].
  apply fread1_shape in E1. destruct E1 as [E1 _]. cbn [initial_state fpi] in E1.
  match goal with
  | |- context [process_tracks ?f ?k ?o ?st] =>
      assert (Hl : bytes_left st = bytes_left s1)
        by (destruct (_ =? 0x4464); reflexivity);
      pose proof (process_tracks_shape f k o st) as H;
      destruct (process_tracks f k o st) as [[out s2]|e o'| |]
  end; cbn [run_shape] in *; [exact H|right; exact H|exact I|].
  rewrite Hl in H. unfold bytes_left in H. lia.
Qed.

(** X5. Whatever [main] has written when it ends, normally or in [error],
    is the line "IMD 1.20 1.20" followed by whole sectors, a multiple of
    128 bytes; the output is empty only after the two errors of the TD0
    header, which are found before the line is written. *)
Theorem main_writes_header_then_whole_sectors fuel input :
  (forall out s, main fuel input = Ret (out, s) ->
     exists d, out = imd_header ++ d /\ Z.of_nat (length d) mod 128 = 0) /\
  (forall e out, main fuel input = Exit e out ->
     ((e = EHeader \/ e = ESignature) /\ out = []) \/
     exists d, out = imd_header ++ d /\ Z.of_nat (length d) mod 128 = 0).
Proof.
  pose proof (main_shape fuel input) as H. split.
  - intros out s E. rewrite E in H. exact H.
  - intros e out E. rewrite E in H. exact H.
Qed.

Lemma main_writes_header_then_whole_sectors_witness :
  exists d, imd_header ++ map Some (repeat x00 128) = imd_header ++ d /\
            Z.of_nat (length d) mod 128 = 0.
Proof.
  apply (proj1 (main_writes_header_then_whole_sectors 2 compressed_container)
           (imd_header ++ map Some (repeat x00 128))
           (set_fpi [] false (compressed_start []))).
  vm_compute. reflexivity.
Defined.

(** X6. [main] ends on every input: none of its loops runs for ever, since
    each pass of the track loop and of the block loop of method 2 takes at
    least one byte of the file. A loop bound above the length of the input
    is never reached. *)
Theorem main_terminates fuel input :
  (length input < fuel)%nat -> ends (main fuel input) = true.
Proof.
  intros Hf. pose proof (main_shape fuel input) as H.
  destruct (main fuel input); [reflexivity..|].
  cbn [run_shape] in H. lia.
Qed.

Lemma main_terminates_witness :
  ends (main 20 [x54; x44; x00; x00; x15; x00; x00; x00; x00; x01; x00; x00;
                 x01; x00; x00; x00; x00; x00; x01]) = true.
Proof.
  apply main_terminates. cbn [length]. lia.
Defined.

(** ** The TD0 header and the track loop *)

Lemma fread1_header input :
  (12 <= length input)%nat ->
  fread1 12 (initial_state input)
    = (firstn 12 input, true,
       set_fpi (skipn 12 input) false (initial_state input)).
Proof.
  intros H.
  apply (fread1_ok 12 (initial_state input) (firstn 12 input) (skipn 12 input)).
  - symmetry. apply firstn_skipn.
  - rewrite firstn_length_le by exact H. reflexivity.
  - lia.
Qed.

(** X7. [main] rejects a file that is shorter than the 12 bytes of the TD0
    header (the empty file too) with "Error reading TD0 header", and a file
    whose first two bytes are neither 54 44 nor 64 44 with "Invalid TD0
    header signature"; in both cases nothing has been written. *)
Theorem main_checks_the_header fuel input :
  ((length input < 12)%nat -> main fuel input = Exit EHeader []) /\
  ((12 <= length input)%nat ->
   signature input <> 0x4454 -> signature input <> 0x4464 ->
   main fuel input = Exit ESignature []).
Proof.
  split.
  - intros H. unfold main.
    rewrite fread1_short; [reflexivity|lia|cbn [initial_state fpi]; lia].
  - intros H H1 H2. unfold main. rewrite (fread1_header input H).
    cbn [negb]. cbv zeta. rewrite !nth_firstn.
    change (0 <? 12)%nat with true. change (1 <? 12)%nat with true. cbv iota.
    fold (signature input).
    apply Z.eqb_neq in H1, H2. rewrite H1, H2. reflexivity.
Qed.

Lemma main_checks_the_header_witness :
  main 0 [] = Exit EHeader [] /\
  main 0 [x49; x4d; x44; x20; x31; x2e; x32; x30; x0d; x0a; x00; x00]
    = Exit ESignature [].
Proof.
  split.
  - apply (proj1 (main_checks_the_header 0 [])). cbn [length]. lia.
  - apply (proj2 (main_checks_the_header 0
                    [x49; x4d; x44; x20; x31; x2e; x32; x30; x0d; x0a; x00; x00])).
    + cbn [length]. lia.
    + vm_compute. discriminate.
    + vm_compute. discriminate.
Defined.

(** X8. A container without tracks converts to an output that holds the
    header line alone: when the file ends with the TD0 header or with
    fewer than 4 further bytes (no end-of-disk marker is required and the
    stray bytes raise no error), and when the first track header has the
    sector count 0xFF, whatever follows it. *)
Theorem empty_disk_converts fuel hd tail :
  length hd = 12%nat ->
  signature hd = 0x4454 \/ signature hd = 0x4464 ->
  (length tail < 4)%nat \/
  ((4 <= length tail)%nat /\ nth 0 tail x00 = xff) ->
  output_of (main (S fuel) (hd ++ tail)) = Some imd_header.
Proof.
  intros Hl Hsig Htail. unfold main.
  rewrite fread1_header by (rewrite length_app; lia).
  cbn [negb]. cbv zeta. rewrite !nth_firstn.
  change (0 <? 12)%nat with true. change (1 <? 12)%nat with true. cbv iota.
  assert (Hs : forall i, (i < 12)%nat -> nth i (hd ++ tail) x00 = nth i hd x00)
    by (intros i Hi; apply app_nth1; lia).
  rewrite !Hs by lia. fold (signature hd).
  assert (Hskip : skipn 12 (hd ++ tail) = tail).
  { rewrite skipn_app, Hl, Nat.sub_diag, skipn_all2 by lia. reflexivity. }
  rewrite Hskip.
  set (s1 := set_fpi tail false (initial_state (hd ++ tail))).
  assert (Hgo : forall s, fpi s = tail -> fpi_eof s = false ->
            output_of (process_tracks (S fuel) (S fuel) imd_header s)
              = Some imd_header).
  { intros s Hf He. cbn [process_tracks]. rewrite He.
    destruct Htail as [Hshort|[Hlong Hff]].
    - rewrite fread1_short; [reflexivity|lia|rewrite Hf; lia].
    - rewrite (fread1_ok 4 s (firstn 4 tail) (skipn 4 tail));
        [|rewrite Hf; symmetry; apply firstn_skipn
         |rewrite firstn_length_le by lia; reflexivity|lia].
      cbn [negb]. cbv zeta. rewrite nth_firstn.
      change (0 <? 4)%nat with true. cbv iota. rewrite Hff. reflexivity. }
  destruct Hsig as [-> | ->].
  - change (0x4454 =? 0x4454) with true. cbn [negb andb].
    change (0x4454 =? 0x4464) with false. cbv iota.
    apply Hgo; reflexivity.
  - change (0x4464 =? 0x4454) with false. change (0x4464 =? 0x4464) with true.
    cbn [negb andb]. cbv iota. apply Hgo; reflexivity.
Qed.

Lemma empty_disk_converts_witness :
  output_of (main 1 ([x54; x44; x00; x00; x15; x00; x00; x00; x00; x01; x00; x00]
                     ++ [x07; x07]))
    = Some imd_header.
Proof.
  apply (empty_disk_converts 0
           [x54; x44; x00; x00; x15; x00; x00; x00; x00; x01; x00; x00]
           [x07; x07] eq_refl (or_introl eq_refl)).
  left. cbn [length]. lia.
Defined.

(** X9. The output does not depend on the address fields of the headers:
    the cylinder, side and sector numbers and the CRC byte of a sector
    header and the offset field of the data header of a sector with data
    are read and never used
    (no CRC is checked and no sector number reaches the output). *)
Theorem sector_ids_are_ignored fuel out s c h r sz fl crc body :
  fpi s = [c; h; r; sz; fl; crc] ++ body ->
  (forall c' h' r' crc',
     process_sector fuel out
       (set_fpi ([c'; h'; r'; sz; fl; crc'] ++ body) (fpi_eof s) s)
     = process_sector fuel out s) /\
  (forall o1 o2 m rest o1' o2',
     body = [o1; o2; m] ++ rest -> Z.land (byte_val fl) SEC_NODAT = 0 ->
     process_sector fuel out
       (set_fpi ([c; h; r; sz; fl; crc] ++ [o1'; o2'; m] ++ rest) (fpi_eof s) s)
     = process_sector fuel out s).
Proof.
  intros Hf. split.
  - intros c' h' r' crc'. unfold process_sector.
    rewrite (fread1_ok 6 s [c; h; r; sz; fl; crc] body); [|exact Hf|reflexivity|lia].
    rewrite (fread1_ok 6 _ [c'; h'; r'; sz; fl; crc'] body);
      [|reflexivity|reflexivity|lia].
    rewrite set_fpi_twice. reflexivity.
  - intros o1 o2 m rest o1' o2' Hb Hfl. subst body. unfold process_sector.
    rewrite (fread1_ok 6 s [c; h; r; sz; fl; crc] ([o1; o2; m] ++ rest));
      [|exact Hf|reflexivity|lia].
    rewrite (fread1_ok 6 _ [c; h; r; sz; fl; crc] ([o1'; o2'; m] ++ rest));
      [|reflexivity|reflexivity|lia].
    cbn [negb nth]. cbv zeta. rewrite !set_fpi_twice.
    destruct (byte_val sz >? 6); [reflexivity|].
    rewrite Hfl, Z.eqb_refl.
    rewrite (fread1_ok 3 (set_fpi ([o1; o2; m] ++ rest) (fpi_eof s) s)
               [o1; o2; m] rest); [|reflexivity|reflexivity|lia].
    change (fpi_eof (set_fpi ([c; h; r; sz; fl; crc] ++ [o1'; o2'; m] ++ rest)
                       (fpi_eof s) s)) with (fpi_eof s).
    rewrite (fread1_ok 3 (set_fpi ([o1'; o2'; m] ++ rest) (fpi_eof s) s)
               [o1'; o2'; m] rest); [|reflexivity|reflexivity|lia].
    rewrite !set_fpi_twice. reflexivity.
Qed.

Lemma sector_ids_are_ignored_witness :
  process_sector 0 []
    (set_fpi ([x4f; x01; x09; x00; x00; xaa] ++ [x05; x00; x01; x02; x00; x41; x42])
       false
       (initial_state [x00; x00; x01; x00; x00; x00; x05; x00; x01;
                       x02; x00; x41; x42]))
  = process_sector 0 []
      (initial_state [x00; x00; x01; x00; x00; x00; x05; x00; x01;
                      x02; x00; x41; x42]).
Proof.
  apply (proj1 (sector_ids_are_ignored 0 []
                  (initial_state [x00; x00; x01; x00; x00; x00; x05; x00; x01;
                                  x02; x00; x41; x42])
                  x00 x00 x01 x00 x00 x00
                  [x05; x00; x01; x02; x00; x41; x42] eq_refl)
           x4f x01 x09 xaa).
Defined.

(** ** Blocks of method 2 that do not fit the sector *)

(** X22. A literal block whose count is larger than what is left of the
    sector is cut: only the bytes that are left of the sector are read and
    stored, the sector is complete, and the remaining bytes of the block
    stay in the input, where the next header will be read. *)
Theorem literal_block_is_cut_to_the_sector out p remain buf s cnt data rest :
  fpi s = cnt :: data ++ rest ->
  0 < remain -> remain < byte_val cnt ->
  Z.of_nat (length data) = remain ->
  rle_literal out p remain buf s
    = Ret (store buf p data, p + remain, 0, set_fpi rest (fpi_eof s) s).
Proof.
  intros Hf Hpos Hcut Hlen. unfold rle_literal.
  pose proof (byte_val_range cnt) as Hc.
  rewrite (fread1_ok 1 s [cnt] (data ++ rest)); [|exact Hf|reflexivity|lia].
  cbn [negb hd].
  destruct (byte_val cnt >? remain) eqn:E; [|lia].
  unfold u8. rewrite (Z.mod_small remain 256) by lia.
  rewrite (fread1_ok remain _ data rest); [|reflexivity|exact Hlen|lia].
  cbn [negb]. rewrite set_fpi_twice, Z.sub_diag. reflexivity.
Qed.

Lemma literal_block_is_cut_to_the_sector_witness :
  rle_literal [] 0 2 [None; None] (initial_state [x03; x41; x42; x43])
    = Ret ([Some x41; Some x42], 2, 0, set_fpi [x43] false (initial_state [])).
Proof.
  apply (literal_block_is_cut_to_the_sector [] 0 2 [None; None]
           (initial_state [x03; x41; x42; x43]) x03 [x41; x42] [x43]
           eq_refl eq_refl eq_refl eq_refl).
Defined.

(** X23. A fragment block of type [t] from 1 to 8 copies its fragment of
    [1 << t] bytes a whole number of times: [count] times, or as often as
    the fragment still fits what is left of the sector if that is less. A
    fragment is never copied in part, and the block is consumed also when
    nothing of it fits. *)
Theorem fragment_block_copies_whole_fragments out buf blocktype p remain s
  cnt frag rest :
  1 <= blocktype <= 8 -> 0 <= remain ->
  fpi s = cnt :: frag ++ rest ->
  Z.of_nat (length frag) = Z.shiftl 1 blocktype ->
  let k := Z.min (byte_val cnt) (remain / Z.shiftl 1 blocktype) in
  rle_fragment out blocktype p remain buf s
    = Ret (store buf p (concat (repeat frag (Z.to_nat k))),
           p + k * Z.shiftl 1 blocktype, remain - k * Z.shiftl 1 blocktype,
           set_fpi rest (fpi_eof s) s).
Proof.
  intros Hbt Hrem Hf Hl. cbv zeta.
  pose proof (byte_val_range cnt) as Hc.
  assert (Hfs : 0 < Z.shiftl 1 blocktype)
    by (rewrite Z.shiftl_mul_pow2 by lia;
        pose proof (Z.pow_pos_nonneg 2 blocktype ltac:(lia) ltac:(lia)); lia).
  rewrite (rle_fragment_run out buf blocktype p remain s cnt frag rest Hbt Hf Hl).
  rewrite (copy_fragment_copies _ frag (Z.shiftl 1 blocktype) Hfs Hl) by exact Hrem.
  rewrite Z2Nat.id by lia. reflexivity.
Qed.

Lemma fragment_block_copies_whole_fragments_witness :
  rle_fragment [] 1 0 3 [None; None; None] (initial_state [x05; x41; x42; xff])
    = Ret ([Some x41; Some x42; None], 2, 1, set_fpi [xff] false (initial_state [])).
Proof.
  apply (fragment_block_copies_whole_fragments [] [None; None; None] 1 0 3
           (initial_state [x05; x41; x42; xff]) x05 [x41; x42] [xff]).
  - lia.
  - lia.
  - reflexivity.
  - reflexivity.
Defined.

(** ** A whole container *)

Lemma block_bytes_length b : (2 <= length (block_bytes b))%nat.
Proof. destruct b; cbn [block_bytes length]; lia. Qed.

Lemma blocks_fit bs : (length bs <= length (flat_map block_bytes bs))%nat.
Proof.
  induction bs as [|b r IH]; [reflexivity|].
  cbn [flat_map length]. rewrite length_app.
  pose proof (block_bytes_length b). lia.
Qed.

Lemma process_sector_decodes fuel out s x rest :
  fpi s = sector_bytes x ++ rest -> sector_wf x ->
  (length (sector_bytes x) <= fuel)%nat ->
  process_sector fuel out s
    = Ret (out ++ sector_cells x, set_fpi rest (fpi_eof s) s).
Proof.
  destruct x as [c h r sz fl crc [o1 o2] pl].
  unfold sector_bytes, sector_wf, sector_cells, sector_size.
  cbn [Scylinder Sside Ssector Ssize Sflags Scrc Doffset Spayload fst snd].
  intros Hf [Hsz Hwf] Hfuel.
  destruct pl as [|data|lo hi b1 b2|bs].
  - unfold process_sector.
    rewrite (fread1_ok 6 s [c; h; r; sz; fl; crc] rest);
      [|rewrite Hf, app_nil_r; reflexivity|reflexivity|lia].
    cbn [negb nth]. destruct (byte_val sz >? 6) eqn:E; [lia|].
    apply Z.eqb_neq in Hwf. rewrite Hwf, app_nil_r. reflexivity.
  - destruct Hwf as [Hfl Hlen].
    apply (proj1 (process_raw_sector fuel out s c h r sz fl crc o1 o2 x00
                    (data ++ rest)
                    ltac:(rewrite Hf, <- app_assoc; reflexivity)
                    Hsz Hfl eq_refl)); [reflexivity|exact Hlen].
  - apply (process_pair_sector fuel out s c h r sz fl crc o1 o2 x01
             lo hi b1 b2 rest);
      [rewrite Hf; reflexivity|exact Hsz|exact Hwf|reflexivity].
  - destruct Hwf as (Hfl & Hbs & Hlen).
    apply (process_block_sector fuel out s c h r sz fl crc o1 o2 x02 bs rest);
      [rewrite Hf, <- app_assoc; reflexivity|exact Hsz|exact Hfl|reflexivity
      |exact Hbs|exact Hlen|].
    pose proof (blocks_fit bs). rewrite !length_app in Hfuel. lia.
Qed.

Lemma process_sectors_decodes fuel xs : forall out s rest,
  fpi s = flat_map sector_bytes xs ++ rest -> Forall sector_wf xs ->
  (length (flat_map sector_bytes xs) <= fuel)%nat ->
  process_sectors fuel (length xs) out s
    = Ret (out ++ flat_map sector_cells xs, set_fpi rest (fpi_eof s) s).
Proof.
  induction xs as [|x r IH]; intros out s rest Hf Hwf Hfuel.
  - cbn [flat_map app length process_sectors] in *.
    rewrite app_nil_r, <- Hf, set_fpi_same. reflexivity.
  - inversion Hwf as [|x' r' Hx Hr]; subst x' r'.
    cbn [flat_map length process_sectors] in *. rewrite length_app in Hfuel.
    rewrite (process_sector_decodes fuel out s x (flat_map sector_bytes r ++ rest));
      [|rewrite Hf, <- app_assoc; reflexivity|exact Hx|lia].
    rewrite (IH _ _ rest); [|reflexivity|exact Hr|lia].
    rewrite set_fpi_twice, <- app_assoc. reflexivity.
Qed.

Lemma process_tracks_ends fuel n out s :
  fpi_eof s = false -> ends_the_disk (fpi s) ->
  output_of (process_tracks fuel (S n) out s) = Some out.
Proof.
  intros He Htail. cbn [process_tracks]. rewrite He.
  destruct Htail as [Hshort|[Hlong Hff]].
  - rewrite fread1_short; [reflexivity|lia|lia].
  - rewrite (fread1_ok 4 s (firstn 4 (fpi s)) (skipn 4 (fpi s)));
      [|symmetry; apply firstn_skipn
       |rewrite firstn_length_le by lia; reflexivity|lia].
    cbn [negb]. cbv zeta. rewrite nth_firstn.
    change (0 <? 4)%nat with true. cbv iota. rewrite Hff. reflexivity.
Qed.

Lemma process_tracks_decodes fuel ts : forall n out s tail,
  fpi s = flat_map track_bytes ts ++ tail -> fpi_eof s = false ->
  Forall track_wf ts -> ends_the_disk tail ->
  (length ts < n)%nat -> (length (fpi s) <= fuel)%nat ->
  output_of (process_tracks fuel n out s)
    = Some (out ++ flat_map track_cells ts).
Proof.
  induction ts as [|t r IH]; intros n out s tail Hf He Hwf Htail Hn Hfuel.
  - destruct n as [|n]; [cbn [length] in Hn; lia|].
    cbn [flat_map app] in *. rewrite app_nil_r.
    apply process_tracks_ends; [exact He|rewrite Hf; exact Htail].
  - inversion Hwf as [|t' r' [Hlen Hsec] Hr]; subst t' r'.
    destruct n as [|n]; [cbn [length] in Hn; lia|].
    cbn [flat_map length] in *. unfold track_bytes at 1 in Hf.
    rewrite Hf, !length_app in Hfuel. cbn [length] in Hfuel.
    cbn [process_tracks]. rewrite He.
    rewrite (fread1_ok 4 s
               [byte_of_Z (Z.of_nat (length (sectors t))); Tcylinder t;
                Tside t; Tcrc t]
               (flat_map sector_bytes (sectors t)
                ++ flat_map track_bytes r ++ tail));
      [|rewrite Hf, <- !app_assoc; reflexivity|reflexivity|lia].
    cbn [negb nth]. rewrite byte_val_of_Z by lia.
    destruct (Z.of_nat (length (sectors t)) =? 255) eqn:E;
      [apply Z.eqb_eq in E; lia|].
    rewrite Nat2Z.id.
    rewrite (process_sectors_decodes fuel (sectors t) out _
               (flat_map track_bytes r ++ tail));
      [|reflexivity|exact Hsec|lia].
    rewrite set_fpi_twice.
    rewrite (IH n _ _ tail); [|reflexivity|exact He|exact Hr|exact Htail|lia|].
    + unfold track_cells at 2. rewrite <- app_assoc. reflexivity.
    + cbn [fpi set_fpi]. rewrite !length_app. lia.
Qed.

(** X24. [main] converts a well-formed container into the header line
    followed by the data of its sectors, in the order of the file. For
    every TD0 header with one of the two signatures, every list of tracks
    of fewer than 255 sectors each, every sector having a size code of at
    most 6 and a payload of method 0, 1 or 2 that fills it (or no data
    field), and every end of the disk (the marker 0xFF with anything after
    it, or the end of the file), the output is "IMD 1.20 1.20" and then,
    sector by sector, the raw payload, the repeated pair, or the expansion
    of the blocks. The address fields of the headers do not reach it. *)
Theorem main_converts_a_container fuel hd ts tail :
  length hd = 12%nat ->
  signature hd = 0x4454 \/ signature hd = 0x4464 ->
  Forall track_wf ts -> ends_the_disk tail ->
  (length (hd ++ flat_map track_bytes ts ++ tail) <= fuel)%nat ->
  output_of (main (S fuel) (hd ++ flat_map track_bytes ts ++ tail))
    = Some (imd_header ++ flat_map track_cells ts).
Proof.
  intros Hl Hsig Hwf Htail Hfuel. unfold main.
  rewrite fread1_header by (rewrite length_app; lia).
  cbn [negb]. cbv zeta. rewrite !nth_firstn.
  change (0 <? 12)%nat with true. change (1 <? 12)%nat with true. cbv iota.
  assert (Hs : forall i, (i < 12)%nat ->
            nth i (hd ++ flat_map track_bytes ts ++ tail) x00 = nth i hd x00)
    by (intros i Hi; apply app_nth1; lia).
  rewrite !Hs by lia. fold (signature hd).
  assert (Hskip : skipn 12 (hd ++ flat_map track_bytes ts ++ tail)
                  = flat_map track_bytes ts ++ tail).
  { rewrite skipn_app, Hl, Nat.sub_diag, skipn_all2 by lia. reflexivity. }
  rewrite Hskip.
  assert (Hgo : forall s, fpi s = flat_map track_bytes ts ++ tail ->
            fpi_eof s = false ->
            output_of (process_tracks (S fuel) (S fuel) imd_header s)
              = Some (imd_header ++ flat_map track_cells ts)).
  { intros s Hf He.
    apply (process_tracks_decodes (S fuel) ts (S fuel) imd_header s tail
             Hf He Hwf Htail).
    - rewrite length_app in Hfuel.
      assert (length ts <= length (flat_map track_bytes ts))%nat.
      { clear. induction ts as [|t r IH]; [reflexivity|].
        cbn [flat_map length]. rewrite length_app.
        unfold track_bytes at 1. cbn [length app]. lia. }
      rewrite length_app in Hfuel. lia.
    - rewrite Hf. rewrite length_app in Hfuel. lia. }
  destruct Hsig as [-> | ->].
  - change (0x4454 =? 0x4454) with true. cbn [negb andb].
    change (0x4454 =? 0x4464) with false. cbv iota.
    apply Hgo; reflexivity.
  - change (0x4464 =? 0x4454) with false. change (0x4464 =? 0x4464) with true.
    cbn [negb andb]. cbv iota. apply Hgo; reflexivity.
Qed.

Lemma main_converts_a_container_witness :
  output_of
    (main 40
       ([x54; x44; x00; x00; x15; x00; x00; x00; x00; x01; x00; x00]
        ++ flat_map track_bytes
             [mkTrack x00 x00 x00
                [mkSector x00 x00 x01 x00 x00 x00 (x05, x00)
                   (Pair x02 x00 x41 x42);
                 mkSector x00 x00 x02 x00 x20 x00 (x00, x00) NoData]]
        ++ [xff; x00; x00; x00]))
  = Some (imd_header
          ++ flat_map track_cells
               [mkTrack x00 x00 x00
                  [mkSector x00 x00 x01 x00 x00 x00 (x05, x00)
                     (Pair x02 x00 x41 x42);
                   mkSector x00 x00 x02 x00 x20 x00 (x00, x00) NoData]]).
Proof.
  apply (main_converts_a_container 39
           [x54; x44; x00; x00; x15; x00; x00; x00; x00; x01; x00; x00]
           [mkTrack x00 x00 x00
              [mkSector x00 x00 x01 x00 x00 x00 (x05, x00)
                 (Pair x02 x00 x41 x42);
               mkSector x00 x00 x02 x00 x20 x00 (x00, x00) NoData]]
           [xff; x00; x00; x00] eq_refl (or_introl eq_refl)).
  - constructor; [|constructor]. split; [cbn [sectors length]; lia|].
    constructor; [|constructor; [|constructor]].
    + split; [vm_compute; discriminate|reflexivity].
    + split; [vm_compute; discriminate|vm_compute; discriminate].
  - right. split; [cbn [length]; lia|reflexivity].
  - vm_compute. lia.
Defined.

(** ** [getbyte], [getword] and [getblock] without compression *)

Lemma getbyte_raw fuel s :
  Advcomp s = 0 ->
  getbyte fuel s
    = match fpi s with
      | b :: rest =>
          Done (byte_val b,
                set_fpi rest (fpi_eof s) (set_GBcheck (u32 (GBcheck s - 1)) s))
      | [] => Done (-1, set_fpi [] true (set_GBcheck (u32 (GBcheck s - 1)) s))
      end.
Proof.
  intros H. unfold getbyte. cbn [Advcomp set_GBcheck fpi fpi_eof].
  rewrite H. reflexivity.
Qed.

Lemma u32_sub_u32 a b : u32 (u32 a - b) = u32 (a - b).
Proof. unfold u32. apply Zminus_mod_idemp_l. Qed.

Lemma u8_byte_val b : u8 (byte_val b) = byte_val b.
Proof. unfold u8. apply Z.mod_small. apply byte_val_range. Qed.

Lemma getblock_raw fuel (size : nat) : forall s,
  Advcomp s = 0 ->
  exists s',
    getblock fuel size s
      = Done (map byte_val (firstn size (fpi s)),
              (length (fpi s) <? size)%nat, s') /\
    fpi s' = skipn size (fpi s) /\ Advcomp s' = 0 /\
    u32 (GBcheck s')
      = u32 (GBcheck s - Z.of_nat (Nat.min size (S (length (fpi s))))).
Proof.
  induction size as [|size IH]; intros s Ha.
  - exists s. cbn [getblock firstn map skipn Nat.min Z.of_nat].
    rewrite Z.sub_0_r. repeat split; assumption.
  - cbn [getblock]. rewrite (getbyte_raw fuel s Ha).
    destruct (fpi s) as [|b rest] eqn:Ef.
    + change (-1 =? -1) with true. cbv iota.
      eexists. split; [reflexivity|]. cbn [fpi set_fpi Advcomp set_GBcheck GBcheck].
      repeat split; try assumption.
      cbn [length]. rewrite (u32_small (u32 _)) by apply u32_range.
      f_equal. lia.
    + pose proof (byte_val_range b) as Hb.
      destruct (byte_val b =? -1) eqn:E; [apply Z.eqb_eq in E; lia|].
      set (s1 := set_fpi rest (fpi_eof s) (set_GBcheck (u32 (GBcheck s - 1)) s)).
      destruct (IH s1 Ha) as (s' & H1 & H2 & H3 & H4).
      rewrite H1. exists s'. rewrite u8_byte_val.
      split; [reflexivity|]. split; [exact H2|]. split; [exact H3|].
      rewrite H4. cbn [s1 GBcheck set_fpi set_GBcheck fpi length Nat.min].
      rewrite u32_sub_u32. f_equal. lia.
Qed.

(** [getblock] with its message: as with the null pointer as long as the
    input lasts, and out through [error] where that call returns 1. *)
Lemma getblock_e_message fuel (size : nat) e : forall s,
  getblock_e fuel size e s
    = match getblock fuel size s with
      | Done (l, true, s') =>
          match e with
          | Some msg => Done (EofReading msg l)
          | None => Done (Returned l true s')
          end
      | Done (l, false, s') => Done (Returned l false s')
      | Undefined => Undefined
      | OutOfFuel => OutOfFuel
      end.
Proof.
  induction size as [|size IH]; intros s; cbn [getblock_e getblock].
  - reflexivity.
  - destruct (getbyte fuel s) as [[c s1]| |]; try reflexivity.
    destruct (c =? -1); [destruct e; reflexivity|].
    rewrite IH.
    destruct (getblock fuel size s1) as [[[l [|]] s2]| |]; try reflexivity.
    destruct e; reflexivity.
Qed.

Lemma getblock_e_raw fuel (size : nat) e s :
  Advcomp s = 0 ->
  ((size <= length (fpi s))%nat ->
   exists s',
     getblock_e fuel size e s
       = Done (Returned (map byte_val (firstn size (fpi s))) false s') /\
     fpi s' = skipn size (fpi s) /\ Advcomp s' = 0 /\
     u32 (GBcheck s') = u32 (GBcheck s - Z.of_nat size)) /\
  ((length (fpi s) < size)%nat ->
   match e with
   | Some msg =>
       getblock_e fuel size e s = Done (EofReading msg (map byte_val (fpi s)))
   | None =>
       exists s',
         getblock_e fuel size e s
           = Done (Returned (map byte_val (fpi s)) true s') /\
         fpi s' = [] /\ Advcomp s' = 0 /\
         u32 (GBcheck s') = u32 (GBcheck s - Z.of_nat (S (length (fpi s))))
   end).
Proof.
  intros Ha. destruct (getblock_raw fuel size s Ha) as (s' & H1 & H2 & H3 & H4).
  rewrite getblock_e_message, H1. split; intros Hs.
  - replace (length (fpi s) <? size)%nat with false
      by (symmetry; apply Nat.ltb_ge; exact Hs).
    exists s'. split; [reflexivity|]. split; [exact H2|]. split; [exact H3|].
    rewrite H4. do 2 f_equal. lia.
  - replace (length (fpi s) <? size)%nat with true
      by (symmetry; apply Nat.ltb_lt; exact Hs).
    rewrite firstn_all2 by lia.
    destruct e as [msg|]; [reflexivity|].
    exists s'. split; [reflexivity|].
    split; [rewrite H2; apply skipn_all2; lia|]. split; [exact H3|].
    rewrite H4. do 2 f_equal. lia.
Qed.

(** X10. Without compression ([Advcomp = 0]) [getblock] is a plain read,
    whatever its message [e]. When the file holds [size] bytes or more, the
    call stores the next [size] bytes, returns 0 and leaves the file after
    them, the counter [GBcheck] having gone down by [size]. When the file
    holds fewer, the call stores all that are left; with [e] the null
    pointer it then returns 1, the file at its end and [GBcheck] down by
    one more than the bytes stored, and with a message [e] it does not
    return: it leaves the program through [error("EOF reading %s", e)].
    The mode [Advcomp] stays 0. *)
Theorem getblock_without_compression fuel (size : nat) e s :
  Advcomp s = 0 ->
  ((size <= length (fpi s))%nat ->
   exists s',
     getblock_e fuel size e s
       = Done (Returned (map byte_val (firstn size (fpi s))) false s') /\
     fpi s' = skipn size (fpi s) /\ Advcomp s' = 0 /\
     u32 (GBcheck s') = u32 (GBcheck s - Z.of_nat size)) /\
  ((length (fpi s) < size)%nat ->
   match e with
   | Some msg =>
       getblock_e fuel size e s = Done (EofReading msg (map byte_val (fpi s)))
   | None =>
       exists s',
         getblock_e fuel size e s
           = Done (Returned (map byte_val (fpi s)) true s') /\
         fpi s' = [] /\ Advcomp s' = 0 /\
         u32 (GBcheck s') = u32 (GBcheck s - Z.of_nat (S (length (fpi s))))
   end).
Proof. apply getblock_e_raw. Qed.

Lemma getblock_without_compression_witness :
  getblock_e 0 3 (Some "sector"%string) (initial_state [x41; x42])
    = Done (EofReading "sector" [65; 66]) /\
  exists s',
    getblock_e 0 3 None (initial_state [x41; x42])
      = Done (Returned [65; 66] true s') /\
    fpi s' = [] /\ Advcomp s' = 0 /\ u32 (GBcheck s') = u32 (0 - 3).
Proof.
  split.
  - exact (proj2 (getblock_without_compression 0 3 (Some "sector"%string)
                    (initial_state [x41; x42]) eq_refl) (le_n 3)).
  - exact (proj2 (getblock_without_compression 0 3 None
                    (initial_state [x41; x42]) eq_refl) (le_n 3)).
Defined.

Lemma lor_shiftl_add h w n :
  0 <= n -> 0 <= w < 2 ^ n -> Z.lor (Z.shiftl h n) w = h * 2 ^ n + w.
Proof.
  intros Hn Hw.
  assert (Hland : Z.land (Z.shiftl h n) w = 0).
  { apply Z.bits_inj'. intros i Hi. rewrite Z.land_spec, Z.bits_0.
    destruct (Z.lt_ge_cases i n) as [Hlt|Hge].
    - rewrite Z.shiftl_spec_low by exact Hlt. reflexivity.
    - rewrite <- (Z.mod_small w (2 ^ n)) by exact Hw.
      rewrite Z.mod_pow2_bits_high by lia. apply andb_false_r. }
  rewrite <- Z.lxor_lor by exact Hland.
  rewrite <- Z.add_nocarry_lxor by exact Hland.
  rewrite Z.shiftl_mul_pow2 by exact Hn. reflexivity.
Qed.

(** X11. Without compression [getword] reads a 16-bit word, low byte
    first: when two bytes are left in the file it returns
    [first + 256 * second] and leaves the file after them. *)
Theorem getword_is_little_endian fuel s lo hi rest :
  Advcomp s = 0 -> fpi s = lo :: hi :: rest ->
  exists s',
    getword fuel s = Done (byte_val lo + 256 * byte_val hi, s') /\
    fpi s' = rest /\ Advcomp s' = 0.
Proof.
  intros Ha Hf. unfold getword.
  rewrite (getbyte_raw fuel s Ha), Hf.
  rewrite getbyte_raw by exact Ha. cbn [fpi set_fpi set_GBcheck].
  pose proof (byte_val_range lo) as Hlo. pose proof (byte_val_range hi) as Hhi.
  rewrite (u32_small (byte_val hi)), (u32_small (byte_val lo)) by lia.
  rewrite (u32_small (Z.shiftl (byte_val hi) 8))
    by (rewrite Z.shiftl_mul_pow2 by lia; lia).
  rewrite lor_shiftl_add by lia.
  replace (byte_val hi * 2 ^ 8 + byte_val lo)
    with (byte_val lo + 256 * byte_val hi) by lia.
  eexists. split; [reflexivity|]. split; [reflexivity|exact Ha].
Qed.

Lemma getword_is_little_endian_witness :
  exists s',
    getword 0 (initial_state [x34; x12; xff]) = Done (0x1234, s') /\
    fpi s' = [xff] /\ Advcomp s' = 0.
Proof.
  apply (getword_is_little_endian 0 (initial_state [x34; x12; xff])
           x34 x12 [xff] eq_refl eq_refl).
Defined.

(** ** What [getbyte] returns *)

Lemma Forall_aset (P : Z -> Prop) a : forall i v,
  Forall P a -> P v -> Forall P (aset a i v).
Proof.
  induction a as [|x r IH]; intros i v Ha Hv; cbn [aset]; [constructor|].
  inversion Ha; subst.
  destruct (i =? 0); constructor; auto.
Qed.

Lemma ring_bytes_push c s : ring_bytes s -> ring_bytes (push_byte c s).
Proof.
  intros [Hb Hl]. unfold ring_bytes, push_byte.
  cbn [ring_buff set_GBr set_ring_buff]. split.
  - apply Forall_aset; [exact Hb|]. unfold u8. apply Z.mod_pos_bound. lia.
  - rewrite alen_aset. exact Hl.
Qed.

Lemma ring_entry_byte s i :
  ring_bytes s -> 0 <= aget (ring_buff s) i < 256.
Proof.
  intros [Hb Hl].
  destruct (Z_lt_dec i 0) as [Hi|Hi];
    [rewrite aget_outside by (left; exact Hi); lia|].
  destruct (Z_le_dec (alen (ring_buff s)) i) as [Hj|Hj];
    [rewrite aget_outside by (right; exact Hj); lia|].
  apply (aget_Forall (fun v => 0 <= v < 256)); [exact Hb|lia].
Qed.

Lemma copy_step_result s :
  ring_bytes s ->
  0 <= fst (copy_step s) < 256 /\ ring_bytes (snd (copy_step s)) /\
  GBcheck (snd (copy_step s)) = GBcheck s /\
  Advcomp (snd (copy_step s)) = Advcomp s.
Proof.
  intros Hr. unfold copy_step. cbn [fst snd]. split; [|split].
  - apply ring_entry_byte. exact Hr.
  - apply ring_bytes_push. exact Hr.
  - split; reflexivity.
Qed.

Lemma begin_match_keeps c s sm :
  begin_match c s = Done sm ->
  ring_buff sm = ring_buff s /\ GBcheck sm = GBcheck s /\
  Advcomp sm = Advcomp s /\ GBk sm = 0 /\ GBj sm = u32 (c - 255 + THRESHOLD).
Proof.
  unfold begin_match.
  destruct (DecodePosition (set_GBstate 255 s)) as [[d s2]| |] eqn:E;
    try discriminate.
  intros H. apply Done_inj in H. subst sm.
  apply DecodePosition_lz, lz_fields_eq in E.
  destruct E as (E1 & _ & _ & _ & _ & _ & E7 & E8).
  cbn [ring_buff GBcheck Advcomp GBk GBj set_GBk set_GBj set_GBi set_GBstate] in *.
  repeat split; assumption.
Qed.

Lemma getbyte_loop_result fuel n : forall s c s',
  ring_bytes s -> getbyte_loop fuel n s = Done (c, s') ->
  ring_bytes s' /\
  ((c = -1 /\ Eof s <> 0) \/ (0 <= c < 256 /\ Eof s = 0)) /\
  GBcheck s' = GBcheck s /\ Advcomp s' = Advcomp s.
Proof.
  induction n as [|n IH]; intros s c s' Hr; cbn [getbyte_loop]; [discriminate|].
  destruct (Eof s =? 0) eqn:Ee; cbn [negb].
  2:{ intros H. apply Done_inj in H. inversion H; subst.
      apply Z.eqb_neq in Ee. split; [exact Hr|].
      split; [left; split; [reflexivity|exact Ee]|split; reflexivity]. }
  apply Z.eqb_eq in Ee.
  assert (Hcopy : forall sm, ring_bytes sm -> GBcheck sm = GBcheck s ->
            Advcomp sm = Advcomp s -> Done (copy_step sm) = Done (c, s') ->
            ring_bytes s' /\
            ((c = -1 /\ Eof s <> 0) \/ (0 <= c < 256 /\ Eof s = 0)) /\
            GBcheck s' = GBcheck s /\ Advcomp s' = Advcomp s).
  { intros sm Hm Hg Ha H. apply Done_inj in H.
    destruct (copy_step_result sm Hm) as (C1 & C2 & C3 & C4).
    rewrite H in C1, C2, C3, C4. cbn [fst snd] in *.
    split; [exact C2|]. split; [right; split; [exact C1|exact Ee]|].
    split; congruence. }
  destruct (GBstate s =? 0) eqn:Es.
  - destruct (DecodeChar fuel s) as [[c1 s1]| |] eqn:Ed; try discriminate.
    pose proof (DecodeChar_value_range _ _ _ _ Ed) as Hc1.
    apply DecodeChar_lz, lz_fields_eq in Ed.
    destruct Ed as (D1 & _ & _ & _ & _ & _ & D7 & D8).
    assert (Hr1 : ring_bytes s1) by (unfold ring_bytes; rewrite D8; exact Hr).
    destruct (c1 <? 256) eqn:E256.
    + intros H. apply Done_inj in H. inversion H; subst.
      apply Z.ltb_lt in E256. split; [apply ring_bytes_push; exact Hr1|].
      split; [right; split; [lia|exact Ee]|]. split; assumption.
    + apply Z.ltb_ge in E256.
      destruct (begin_match c1 s1) as [s2| |] eqn:Eb; try discriminate.
      apply begin_match_keeps in Eb. destruct Eb as (B1 & B2 & B3 & B4 & B5).
      assert (Hlt : (GBk s2 <? GBj s2) = true).
      { apply Z.ltb_lt. rewrite B4, B5, u32_small; unfold THRESHOLD; lia. }
      rewrite Hlt. apply Hcopy; try congruence.
      unfold ring_bytes. rewrite B1. exact Hr1.
  - destruct (GBk s <? GBj s).
    + apply Hcopy; auto.
    + intros H. apply IH in H; [|exact Hr]. exact H.
Qed.

(** X12. A call of [getbyte] returns -1 or a byte. It returns -1 only at
    the end of the input: without compression when the file is exhausted,
    with compression when the flag [Eof] was already raised on entry. It
    lowers the counter [GBcheck] by one, never changes the mode [Advcomp]
    and keeps every entry of [ring_buff] a byte. *)
Theorem getbyte_returns_a_byte_or_EOF fuel s c s' :
  ring_bytes s -> getbyte fuel s = Done (c, s') ->
  (c = -1 \/ 0 <= c < 256) /\
  (c = -1 -> if Advcomp s =? 0 then fpi s = [] else Eof s <> 0) /\
  GBcheck s' = u32 (GBcheck s - 1) /\ Advcomp s' = Advcomp s /\
  ring_bytes s'.
Proof.
  intros Hr. unfold getbyte. cbn [Advcomp set_GBcheck fpi fpi_eof].
  destruct (Advcomp s =? 0) eqn:Ea.
  - destruct (fpi s) as [|b rest]; intros H; apply Done_inj in H;
      inversion H; subst; cbn [GBcheck Advcomp set_fpi set_GBcheck].
    + split; [left; reflexivity|]. split; [reflexivity|].
      split; [reflexivity|]. split; [reflexivity|exact Hr].
    + pose proof (byte_val_range b). split; [right; assumption|].
      split; [lia|]. split; [reflexivity|]. split; [reflexivity|exact Hr].
  - intros H. apply getbyte_loop_result in H; [|exact Hr].
    destruct H as (H1 & H2 & H3 & H4).
    cbn [Eof GBcheck Advcomp set_GBcheck] in *.
    split; [destruct H2 as [[-> _]|[H2 _]];
            [left; reflexivity|right; exact H2]|].
    split; [intros ->; destruct H2 as [[_ H2]|[H2 _]]; [exact H2|lia]|].
    split; [exact H3|]. split; [exact H4|exact H1].
Qed.

Lemma ring_bytes_initial input : ring_bytes (initial_state input).
Proof.
  split; [|reflexivity]. cbn [initial_state ring_buff].
  apply Forall_forall. intros x Hx. apply repeat_spec in Hx. lia.
Qed.

Lemma ring_bytes_init_decompress s :
  alen (ring_buff s) = SBSIZE + LASIZE - 1 -> ring_bytes (init_decompress s).
Proof.
  intros Hl. unfold ring_bytes, init_decompress.
  cbn [ring_buff set_GBr set_Bits set_Bitbuff set_Advcomp set_ring_buff set_huff].
  split.
  - apply Forall_forall. intros x Hx. apply in_map_iff in Hx.
    destruct Hx as (y & <- & _). lia.
  - unfold alen in *. rewrite length_map. exact Hl.
Qed.

Lemma getbyte_returns_a_byte_or_EOF_witness :
  (65 = -1 \/ 0 <= 65 < 256) /\
  (65 = -1 -> if Advcomp (initial_state [x41]) =? 0
              then fpi (initial_state [x41]) = [] else Eof (initial_state [x41]) <> 0) /\
  GBcheck (set_fpi [] false (set_GBcheck (u32 (0 - 1)) (initial_state [x41])))
    = u32 (GBcheck (initial_state [x41]) - 1) /\
  Advcomp (set_fpi [] false (set_GBcheck (u32 (0 - 1)) (initial_state [x41])))
    = Advcomp (initial_state [x41]) /\
  ring_bytes (set_fpi [] false (set_GBcheck (u32 (0 - 1)) (initial_state [x41]))).
Proof.
  apply (getbyte_returns_a_byte_or_EOF 0 (initial_state [x41]) 65
           (set_fpi [] false (set_GBcheck (u32 (0 - 1)) (initial_state [x41])))).
  - apply ring_bytes_initial.
  - reflexivity.
Defined.

(** ** The copy of a match *)

Lemma getbyte_copying fuel s :
  Advcomp s <> 0 -> Eof s = 0 -> GBstate s <> 0 -> GBk s < GBj s ->
  getbyte (S fuel) s
    = Done (copy_step (set_GBcheck (u32 (GBcheck s - 1)) s)).
Proof.
  intros Ha He Hs Hk. unfold getbyte. cbn [Advcomp set_GBcheck].
  apply Z.eqb_neq in Ha. rewrite Ha.
  cbn [getbyte_loop Eof GBstate GBk GBj set_GBcheck].
  rewrite He. change (negb (0 =? 0)) with false. cbv iota.
  apply Z.eqb_neq in Hs. rewrite Hs.
  apply Z.ltb_lt in Hk. rewrite Hk. reflexivity.
Qed.

Lemma match_distance_range s : 1 <= match_distance s <= SBSIZE.
Proof.
  unfold match_distance, SBSIZE.
  pose proof (Z.mod_pos_bound (GBr s - GBi s - GBk s - 1) 4096 ltac:(lia)). lia.
Qed.

Lemma distance_step r i k :
  ((r + 1) mod 4096 - i - (k + 1) - 1) mod 4096 = (r - i - k - 1) mod 4096.
Proof. Z.to_euclidean_division_equations. lia. Qed.

Lemma source_meets_cursor r i k m :
  0 <= r < 4096 -> 0 <= m -> m + 1 <= (r - i - k - 1) mod 4096 + 1 ->
  ((i + k + 1 + m) mod 4096 = r <-> m + 1 = (r - i - k - 1) mod 4096 + 1).
Proof. intros. Z.to_euclidean_division_equations. lia. Qed.

Lemma copy_step_fields s :
  ring_bytes s -> 0 <= GBr s < SBSIZE -> 0 <= GBk s < 2 ^ 32 - 1 ->
  let c := aget (ring_buff s) ((GBi s + GBk s) mod SBSIZE) in
  let s1 := snd (copy_step s) in
  fst (copy_step s) = c /\
  ring_buff s1 = aset (ring_buff s) (GBr s) c /\
  GBr s1 = (GBr s + 1) mod SBSIZE /\ GBk s1 = GBk s + 1 /\
  GBi s1 = GBi s /\ GBj s1 = GBj s /\ GBstate s1 = GBstate s /\
  Eof s1 = Eof s /\ Advcomp s1 = Advcomp s /\ fpi s1 = fpi s /\
  huff s1 = huff s /\ GBcheck s1 = GBcheck s.
Proof.
  intros Hr Hg Hk. unfold copy_step, push_byte.
  cbn [fst snd ring_buff GBr GBk GBi GBj GBstate Eof Advcomp fpi huff GBcheck
       set_GBk set_GBr set_ring_buff].
  rewrite !land_SBSIZE_u32.
  replace (GBk s + GBi s) with (GBi s + GBk s) by lia.
  pose proof (ring_entry_byte s ((GBi s + GBk s) mod SBSIZE) Hr) as Hc.
  unfold u8. rewrite (Z.mod_small (aget _ _) 256) by exact Hc.
  rewrite u32_small by lia.
  repeat split; reflexivity.
Qed.

Lemma match_copy_run fuel (n : nat) : forall s,
  Advcomp s <> 0 -> Eof s = 0 -> GBstate s <> 0 ->
  0 <= GBr s < SBSIZE -> 0 <= GBk s -> GBk s + Z.of_nat n <= GBj s ->
  GBj s < 2 ^ 32 -> ring_bytes s ->
  exists l s',
    getbyte_run (S fuel) n s = Done (l, s') /\ length l = n /\
    fpi s' = fpi s /\ huff s' = huff s /\
    GBk s' = GBk s + Z.of_nat n /\
    GBr s' = (GBr s + Z.of_nat n) mod SBSIZE /\
    forall m, (m < n)%nat ->
      nth m l 0
        = if Z.of_nat m <? match_distance s
          then aget (ring_buff s) ((GBi s + GBk s + Z.of_nat m) mod SBSIZE)
          else nth (m - Z.to_nat (match_distance s)) l 0.
Proof.
  induction n as [|n IH]; intros s Ha He Hs Hr Hk Hn Hj Hb.
  - exists [], s. cbn [getbyte_run length Z.of_nat].
    rewrite !Z.add_0_r, Z.mod_small by exact Hr.
    repeat split; try reflexivity. intros m Hm. lia.
  - cbn [getbyte_run]. rewrite getbyte_copying by (try assumption; lia).
    pose proof (copy_step_fields (set_GBcheck (u32 (GBcheck s - 1)) s)
                  Hb Hr ltac:(cbn [GBk set_GBcheck]; lia)) as F.
    cbv zeta in F.
    cbn [ring_buff GBr GBk GBi GBj GBstate Eof Advcomp fpi huff GBcheck
         set_GBcheck] in F.
    destruct (copy_step (set_GBcheck (u32 (GBcheck s - 1)) s)) as [c0 s1].
    cbn [fst snd] in F.
    destruct F as (F1 & F2 & F3 & F4 & F5 & F6 & F7 & F8 & F9 & F10 & F11 & _).
    rewrite <- F1 in F2.
    assert (Hb1 : ring_bytes s1).
    { destruct Hb as [Hb Hl]. unfold ring_bytes. rewrite F2. split.
      - apply Forall_aset; [exact Hb|]. rewrite F1.
        apply ring_entry_byte. split; assumption.
      - rewrite alen_aset. exact Hl. }
    assert (Hd : match_distance s1 = match_distance s).
    { unfold match_distance. rewrite F3, F4, F5. unfold SBSIZE.
      rewrite distance_step. reflexivity. }
    assert (Hr1 : 0 <= GBr s1 < SBSIZE)
      by (rewrite F3; apply Z.mod_pos_bound; unfold SBSIZE; lia).
    destruct (IH s1) as (l1 & s' & R1 & R2 & R3 & R4 & R5 & R6 & R7);
      try congruence; try lia.
    rewrite R1. exists (c0 :: l1), s'.
    split; [reflexivity|]. split; [cbn [length]; lia|].
    split; [congruence|]. split; [congruence|]. split; [lia|].
    split.
    { rewrite R6, F3. unfold SBSIZE. rewrite Zplus_mod_idemp_l.
      f_equal. lia. }
    rewrite Hd in R7. pose proof (match_distance_range s) as Hdr.
    assert (Hx : forall m, 0 <= m -> m + 1 <= match_distance s ->
              ((GBi s + GBk s + 1 + m) mod SBSIZE = GBr s
               <-> m + 1 = match_distance s))
      by (intros; unfold match_distance, SBSIZE in *;
          apply source_meets_cursor; assumption).
    set (d := match_distance s) in *.
    intros [|m] Hm.
    + cbn [nth Z.of_nat]. destruct (0 <? d) eqn:E0; [|apply Z.ltb_ge in E0; lia].
      rewrite Z.add_0_r. exact F1.
    + cbn [nth]. rewrite (R7 m) by lia. rewrite F2, F4, F5.
      destruct Hb as [_ Hl].
      rewrite aget_aset by (unfold SBSIZE, LASIZE in *; lia).
      specialize (Hx (Z.of_nat m) ltac:(lia)).
      replace (GBi s + (GBk s + 1) + Z.of_nat m)
        with (GBi s + GBk s + 1 + Z.of_nat m) by lia.
      replace (GBi s + GBk s + Z.of_nat (S m))
        with (GBi s + GBk s + 1 + Z.of_nat m) by lia.
      destruct (Z.of_nat m <? d) eqn:E1;
        [apply Z.ltb_lt in E1|apply Z.ltb_ge in E1];
        (destruct (Z.of_nat (S m) <? d) eqn:E2;
         [apply Z.ltb_lt in E2|apply Z.ltb_ge in E2]); try lia.
      * destruct ((GBi s + GBk s + 1 + Z.of_nat m) mod SBSIZE =? GBr s) eqn:E3.
        -- apply Z.eqb_eq in E3. apply Hx in E3; lia.
        -- reflexivity.
      * destruct ((GBi s + GBk s + 1 + Z.of_nat m) mod SBSIZE =? GBr s) eqn:E3.
        -- replace (S m - Z.to_nat d)%nat with 0%nat by lia. reflexivity.
        -- apply Z.eqb_neq in E3. exfalso. apply E3. apply Hx; lia.
      * replace (S m - Z.to_nat d)%nat with (S (m - Z.to_nat d)) by lia.
        reflexivity.
Qed.

(** X13. The copy of a match is the LZ77 copy with overlap. In the match
    state ([GBstate] set, [Eof] clear, [GBk + n <= GBj]) the next [n] calls
    of [getbyte] read nothing from the file and leave the Huffman tree
    alone; with [d = match_distance] (the distance from the source index
    [GBi + GBk] to the cursor [GBr], between 1 and [SBSIZE]), the first [d]
    bytes returned are the ring buffer's bytes from the source index on,
    and every later byte repeats the byte returned [d] calls before: a
    match longer than its distance repeats the last [d] bytes. The cursor
    and the counter [GBk] advance by [n]. *)
Theorem match_copy_repeats fuel (n : nat) s :
  Advcomp s <> 0 -> Eof s = 0 -> GBstate s <> 0 ->
  0 <= GBr s < SBSIZE -> 0 <= GBk s -> GBk s + Z.of_nat n <= GBj s ->
  GBj s < 2 ^ 32 -> ring_bytes s ->
  exists l s',
    getbyte_run (S fuel) n s = Done (l, s') /\ length l = n /\
    fpi s' = fpi s /\ huff s' = huff s /\
    GBk s' = GBk s + Z.of_nat n /\
    GBr s' = (GBr s + Z.of_nat n) mod SBSIZE /\
    forall m, (m < n)%nat ->
      nth m l 0
        = if Z.of_nat m <? match_distance s
          then aget (ring_buff s) ((GBi s + GBk s + Z.of_nat m) mod SBSIZE)
          else nth (m - Z.to_nat (match_distance s)) l 0.
Proof. apply match_copy_run. Qed.

Lemma match_copy_repeats_witness :
  exists l s',
    getbyte_run 1 5 copying_state = Done (l, s') /\ length l = 5%nat /\
    fpi s' = [] /\ GBk s' = 5 /\ GBr s' = 7 /\
    nth 4 l 0 = nth 2 l 0.
Proof.
  destruct (match_copy_repeats 0 5 copying_state)
    as (l & s' & H1 & H2 & H3 & _ & H5 & H6 & H7).
  - vm_compute. discriminate.
  - reflexivity.
  - vm_compute. discriminate.
  - vm_compute. split; [discriminate|reflexivity].
  - vm_compute. discriminate.
  - vm_compute. discriminate.
  - reflexivity.
  - split; [|reflexivity]. cbn [copying_state ring_buff set_GBstate set_GBj
                                  set_Advcomp set_GBr set_ring_buff].
    constructor; [lia|]. constructor; [lia|].
    apply Forall_forall. intros x Hx. apply repeat_spec in Hx. lia.
  - exists l, s'. split; [exact H1|]. split; [exact H2|].
    split; [exact H3|]. split; [exact H5|]. split; [exact H6|].
    exact (H7 4%nat ltac:(lia)).
Defined.

Lemma distance_of_position r d :
  0 <= d < 4096 -> (r - (r - d - 1) mod 4096 - 0 - 1) mod 4096 + 1 = d + 1.
Proof. intros. Z.to_euclidean_division_equations. lia. Qed.

(** X14. The position [DecodePosition] returns is a distance counted from
    the byte before the cursor: when [getbyte] begins a match with the
    position [d], the copy starts [d + 1] bytes behind the cursor of the
    ring buffer ([match_distance] is [d + 1], between 1 and [SBSIZE]), with
    nothing copied yet. *)
Theorem begin_match_sets_the_distance c s sm :
  begin_match c s = Done sm ->
  exists d s2,
    DecodePosition (set_GBstate 255 s) = Done (d, s2) /\
    0 <= d < SBSIZE /\ match_distance sm = d + 1 /\
    GBk sm = 0 /\ GBr sm = GBr s /\ ring_buff sm = ring_buff s.
Proof.
  intros H. destruct (begin_match_Done c s sm H)
    as (d & s2 & H1 & _ & H3 & _ & H5 & H6 & H7 & _).
  exists d, s2. pose proof (DecodePosition_range _ _ _ H1) as Hd.
  split; [exact H1|]. split; [exact Hd|].
  split; [|split; [exact H5|split; [exact H6|exact H7]]].
  unfold match_distance. rewrite H3, H5, H6, land_SBSIZE_u32.
  unfold SBSIZE in *. apply distance_of_position. exact Hd.
Qed.

Lemma begin_match_sets_the_distance_witness :
  exists d s2,
    DecodePosition (set_GBstate 255 (compressed_start [x00; x00]))
      = Done (d, s2) /\
    0 <= d < SBSIZE.
Proof.
  destruct (begin_match_sets_the_distance 256 (compressed_start [x00; x00])
              (set_GBk 0
                 (set_GBj 3
                    (set_GBi 4035
                       (state_of
                          (DecodePosition
                             (set_GBstate 255 (compressed_start [x00; x00])))
                          (compressed_start []))))))
    as (d & s2 & H1 & H2 & _).
  - vm_compute. reflexivity.
  - exists d, s2. split; [exact H1|exact H2].
Defined.

(** ** The bit reader and the bits of the file *)

Lemma low_bits_clear x n i :
  x mod 2 ^ n = 0 -> 0 <= i < n -> Z.testbit x i = false.
Proof.
  intros Hx Hi. rewrite <- (Z.mod_pow2_bits_low x n i) by lia.
  rewrite Hx. apply Z.bits_0.
Qed.

Lemma clear_low_bits x n :
  0 <= n -> (forall i, 0 <= i < n -> Z.testbit x i = false) -> x mod 2 ^ n = 0.
Proof.
  intros Hn H. apply Z.bits_inj'. intros i Hi. rewrite Z.bits_0.
  destruct (Z.lt_ge_cases i n) as [Hlt|Hge].
  - rewrite Z.mod_pow2_bits_low by lia. apply H. lia.
  - apply Z.mod_pow2_bits_high. lia.
Qed.

Lemma byte_high_bits b i : 8 <= i -> Z.testbit (byte_val b) i = false.
Proof.
  intros Hi. pose proof (byte_val_range b) as Hb.
  rewrite <- (Z.mod_small (byte_val b) (2 ^ 8)) by (change (2 ^ 8) with 256; lia).
  apply Z.mod_pow2_bits_high. lia.
Qed.

Lemma testbit_u32 x i : i < 32 -> Z.testbit (u32 x) i = Z.testbit x i.
Proof. intros Hi. unfold u32. apply Z.mod_pow2_bits_low. lia. Qed.

Lemma testbit_shiftl_low x n i : i < n -> Z.testbit (Z.shiftl x n) i = false.
Proof.
  intros Hi. destruct (Z.lt_ge_cases i 0) as [Hn|Hn].
  - apply Z.testbit_neg_r. exact Hn.
  - apply Z.shiftl_spec_low. exact Hi.
Qed.

Lemma testbit_shiftl_high x n i :
  0 <= n <= i -> Z.testbit (Z.shiftl x n) i = Z.testbit x (i - n).
Proof. intros Hi. apply Z.shiftl_spec. lia. Qed.

(** Rewrites a bit of a word built by the bit reader into bits of the
    byte read and of [Bitbuff]; [HB] says which bits of [Bitbuff] are
    clear. *)
Ltac bit_of_word HB :=
  repeat first
    [ rewrite Z.lor_spec
    | rewrite Z.shiftr_spec by lia
    | rewrite testbit_u32 by lia
    | rewrite testbit_shiftl_low by lia
    | rewrite testbit_shiftl_high by lia
    | rewrite Z.bits_0
    | rewrite byte_high_bits by lia
    | rewrite Z.testbit_neg_r by lia
    | rewrite HB by lia ];
  rewrite ?orb_false_r; cbn [orb];
  first [ reflexivity | f_equal; lia ].

(** Evaluates the numbers of buffered bits once they are known. *)
Ltac concrete_nats :=
  repeat match goal with
         | |- context [Z.to_nat ?e] =>
             let x := eval vm_compute in (Z.to_nat e) in
             change (Z.to_nat e) with x
         end.

Ltac same_lists :=
  repeat match goal with
         | |- _ :: _ = _ :: _ => apply (f_equal2 (@cons bool))
         end.

Lemma Bits_cases bits :
  0 <= bits <= 7 ->
  bits = 0 \/ bits = 1 \/ bits = 2 \/ bits = 3 \/ bits = 4 \/ bits = 5
  \/ bits = 6 \/ bits = 7.
Proof. lia. Qed.

Lemma GetBit_refill s :
  Bits s = 0 ->
  GetBit s
    = (Z.shiftr (Z.lor (Bitbuff s) (u32 (Z.shiftl (fst (GetChar s)) 8))) 15,
       set_Bitbuff
         (u32 (Z.shiftl (Z.lor (Bitbuff s) (u32 (Z.shiftl (fst (GetChar s)) 8))) 1))
         (set_Bits 7 (snd (GetChar s)))).
Proof.
  intros H. unfold GetBit. rewrite H. change (0 =? 0) with true. cbv iota.
  unfold GetChar. destruct (fpi s); reflexivity.
Qed.

Lemma GetBit_buffered s :
  Bits s <> 0 ->
  GetBit s
    = (Z.shiftr (Bitbuff s) 15,
       set_Bitbuff (u32 (Z.shiftl (Bitbuff s) 1)) (set_Bits (Bits s - 1) s)).
Proof.
  intros H. unfold GetBit. apply Z.eqb_neq in H. rewrite H. reflexivity.
Qed.

Lemma GetBit_stream s :
  aligned s ->
  aligned (snd (GetBit s)) /\
  Z.testbit (fst (GetBit s)) 0 = hd false (bit_stream s) /\
  (bit_stream s <> [] -> bit_stream (snd (GetBit s)) = tl (bit_stream s)) /\
  (bit_stream s = [] ->
   Eof (snd (GetBit s)) = 255 /\ bit_stream (snd (GetBit s)) = repeat false 7).
Proof.
  intros [Hb Hm].
  assert (HB : forall i, 0 <= i < 16 - Bits s -> Z.testbit (Bitbuff s) i = false)
    by (intros i Hi; apply (low_bits_clear _ _ _ Hm Hi)).
  unfold aligned, bit_stream, pending.
  destruct (Z.eq_dec (Bits s) 0) as [E0|E0].
  - rewrite (GetBit_refill s E0). rewrite E0 in *.
    cbn [fst snd Bits Bitbuff fpi Eof set_Bits set_Bitbuff].
    unfold GetChar. destruct (fpi s) as [|b rest] eqn:Ef;
      cbn [fst snd Bits Bitbuff fpi Eof set_fpi set_Eof];
      change (Z.to_nat 7) with 7%nat; change (Z.to_nat 0) with 0%nat;
      cbn [seq map app flat_map hd tl byte_bits repeat].
    + split; [split; [lia|]|].
      { apply clear_low_bits; [lia|]. intros i Hi.
        destruct (Z.lt_ge_cases i 1); bit_of_word HB. }
      split; [bit_of_word HB|].
      split; [intros H; contradiction|].
      intros _. split; [reflexivity|].
      same_lists; try reflexivity; bit_of_word HB.
    + split; [split; [lia|]|].
      { apply clear_low_bits; [lia|]. intros i Hi.
        destruct (Z.lt_ge_cases i 1); bit_of_word HB. }
      split; [bit_of_word HB|].
      split; [|intros H; discriminate].
      intros _. same_lists; try reflexivity; bit_of_word HB.
  - rewrite (GetBit_buffered s E0).
    cbn [fst snd Bits Bitbuff fpi Eof set_Bits set_Bitbuff].
    destruct (Bits_cases (Bits s) Hb) as [E|[E|[E|[E|[E|[E|[E|E]]]]]]];
      [contradiction|..]; rewrite E in *; concrete_nats;
      cbn [seq map app flat_map hd tl byte_bits repeat];
      (split; [split; [lia|]|]);
      try (apply clear_low_bits; [lia|]; intros i Hi;
           destruct (Z.lt_ge_cases i 1); bit_of_word HB);
      (split; [bit_of_word HB|]);
      (split; [|intros H; discriminate]);
      intros _; same_lists; try reflexivity; bit_of_word HB.
Qed.

(** X15. Bit 0 of the value [GetBit] returns is the next bit of the input,
    the bits of each byte being taken from the most significant one down,
    and the call consumes that one bit, provided the buffer is aligned (as
    [init_decompress] leaves it and as [GetBit] and [GetByte] keep it).
    Past the end of the file the bit is 0 and the flag [Eof] is raised. *)
Theorem GetBit_reads_the_stream s :
  aligned s ->
  aligned (snd (GetBit s)) /\
  Z.testbit (fst (GetBit s)) 0 = hd false (bit_stream s) /\
  (bit_stream s <> [] -> bit_stream (snd (GetBit s)) = tl (bit_stream s)) /\
  (bit_stream s = [] ->
   Eof (snd (GetBit s)) = 255 /\ bit_stream (snd (GetBit s)) = repeat false 7).
Proof. exact (GetBit_stream s). Qed.

Lemma GetBit_reads_the_stream_witness :
  Z.testbit (fst (GetBit (compressed_start [x80; x00]))) 0
    = hd false (bit_stream (compressed_start [x80; x00])).
Proof.
  apply (GetBit_reads_the_stream (compressed_start [x80; x00])).
  split; [vm_compute; split; discriminate|vm_compute; reflexivity].
Defined.

Lemma GetByte_refill s :
  Bits s < 8 ->
  GetByte s
    = (Z.shiftr (Z.lor (Bitbuff s)
                   (u32 (Z.shiftl (fst (GetChar s)) (8 - Bits s)))) 8,
       set_Bitbuff
         (u32 (Z.shiftl (Z.lor (Bitbuff s)
                           (u32 (Z.shiftl (fst (GetChar s)) (8 - Bits s)))) 8))
         (snd (GetChar s))).
Proof.
  intros H. unfold GetByte. apply Z.ltb_lt in H. rewrite H.
  unfold GetChar. destruct (fpi s); reflexivity.
Qed.

Lemma GetByte_stream s :
  aligned s ->
  aligned (snd (GetByte s)) /\ Bits (snd (GetByte s)) = Bits s /\
  (forall k, (k < 8)%nat ->
     Z.testbit (fst (GetByte s)) (7 - Z.of_nat k) = nth k (bit_stream s) false) /\
  (fpi s <> [] -> bit_stream (snd (GetByte s)) = skipn 8 (bit_stream s)) /\
  (fpi s = [] -> Eof (snd (GetByte s)) = 255).
Proof.
  intros [Hb Hm].
  assert (HB : forall i, 0 <= i < 16 - Bits s -> Z.testbit (Bitbuff s) i = false)
    by (intros i Hi; apply (low_bits_clear _ _ _ Hm Hi)).
  unfold aligned, bit_stream, pending.
  rewrite (GetByte_refill s ltac:(lia)).
  unfold GetChar.
  destruct (fpi s) as [|b rest] eqn:Ef;
    cbn [fst snd Bits Bitbuff fpi Eof set_Bits set_Bitbuff set_fpi set_Eof];
    (destruct (Bits_cases (Bits s) Hb) as [E|[E|[E|[E|[E|[E|[E|E]]]]]]];
     rewrite E in *; concrete_nats;
     cbn [seq map app flat_map hd tl byte_bits repeat skipn];
     (split; [split; [lia|]|]);
     try (apply clear_low_bits; [lia|]; intros i Hi;
          destruct (Z.lt_ge_cases i 8); bit_of_word HB);
     (split; [reflexivity|]);
     (split;
      [intros k Hk;
       do 8 (destruct k as [|k]; [cbn [nth]; bit_of_word HB|]); lia|]);
     (split; [|intros H; first [reflexivity | discriminate]]);
     intros H; try (exfalso; apply H; reflexivity);
     same_lists; try reflexivity; bit_of_word HB).
Qed.

(** X16. Bits 7 to 0 of the value [GetByte] returns are the next 8 bits of
    the input, the first one in bit 7, and the call consumes those 8 bits
    and keeps the number of buffered bits, provided the buffer is aligned.
    Bits past the end of the file are 0, and reading them raises [Eof]. *)
Theorem GetByte_reads_the_stream s :
  aligned s ->
  aligned (snd (GetByte s)) /\ Bits (snd (GetByte s)) = Bits s /\
  (forall k, (k < 8)%nat ->
     Z.testbit (fst (GetByte s)) (7 - Z.of_nat k) = nth k (bit_stream s) false) /\
  (fpi s <> [] -> bit_stream (snd (GetByte s)) = skipn 8 (bit_stream s)) /\
  (fpi s = [] -> Eof (snd (GetByte s)) = 255).
Proof. exact (GetByte_stream s). Qed.

Lemma GetByte_reads_the_stream_witness :
  Z.testbit (fst (GetByte (compressed_start [xa5; x00]))) (7 - Z.of_nat 2)
    = nth 2 (bit_stream (compressed_start [xa5; x00])) false.
Proof.
  destruct (GetByte_reads_the_stream (compressed_start [xa5; x00]))
    as (_ & _ & H & _).
  - split; [vm_compute; split; discriminate|vm_compute; reflexivity].
  - apply (H 2%nat). lia.
Defined.

(** ** [DecodePosition] and the bits of the input *)

Lemma fold_bits_app bit n : forall from m acc,
  fold_bits bit from (n + m) acc
    = fold_bits bit (from + n) m (fold_bits bit from n acc).
Proof.
  induction n as [|n IH]; intros from m acc; cbn [fold_bits Nat.add].
  - rewrite Nat.add_0_r. reflexivity.
  - rewrite IH. f_equal. lia.
Qed.

Lemma fold_bits_shift bit bit' d n : forall from acc,
  (forall j, bit' j = bit (d + j)%nat) ->
  fold_bits bit' from n acc = fold_bits bit (d + from) n acc.
Proof.
  induction n as [|n IH]; intros from acc H; cbn [fold_bits]; [reflexivity|].
  rewrite H, IH by exact H. f_equal. lia.
Qed.

Lemma byte_of_its_bits t :
  0 <= t < 256 ->
  fold_bits (fun k => Z.testbit t (7 - Z.of_nat k)) 0 8 0 = t.
Proof.
  intros Ht. cbn [fold_bits].
  change (7 - Z.of_nat 0) with 7. change (7 - Z.of_nat 1) with 6.
  change (7 - Z.of_nat 2) with 5. change (7 - Z.of_nat 3) with 4.
  change (7 - Z.of_nat 4) with 3. change (7 - Z.of_nat 5) with 2.
  change (7 - Z.of_nat 6) with 1. change (7 - Z.of_nat 7) with 0.
  rewrite !Z.testbit_spec' by lia.
  change (2 ^ 7) with 128. change (2 ^ 6) with 64. change (2 ^ 5) with 32.
  change (2 ^ 4) with 16. change (2 ^ 3) with 8. change (2 ^ 2) with 4.
  change (2 ^ 1) with 2. change (2 ^ 0) with 1.
  Z.to_euclidean_division_equations. lia.
Qed.

Lemma fold_bits_ext bit bit' n : forall from acc,
  (forall j, (from <= j < from + n)%nat -> bit' j = bit j) ->
  fold_bits bit' from n acc = fold_bits bit from n acc.
Proof.
  induction n as [|n IH]; intros from acc H; cbn [fold_bits]; [reflexivity|].
  rewrite H by lia. apply IH. intros j Hj. apply H. lia.
Qed.

(** *** One bit *)

Lemma GetBit_next_bits s :
  aligned s ->
  Z.testbit (fst (GetBit s)) 0 = stream_bit s 0 /\
  aligned (snd (GetBit s)) /\
  forall j, stream_bit (snd (GetBit s)) j = stream_bit s (S j).
Proof.
  intros Ha. destruct (GetBit_stream s Ha) as (H1 & H2 & H3 & H4).
  unfold stream_bit. split; [|split; [exact H1|]].
  - rewrite H2. destruct (bit_stream s); reflexivity.
  - intros j. destruct (bit_stream s) as [|b r] eqn:E.
    + destruct (H4 eq_refl) as [_ ->].
      destruct j as [|[|[|[|[|[|[|j]]]]]]]; cbn [nth repeat]; try reflexivity.
      destruct j; reflexivity.
    + rewrite H3 by discriminate. reflexivity.
Qed.

Lemma shiftl_byte_small c n : 0 <= c < 256 -> 0 <= n <= 8 ->
  0 <= Z.shiftl c n < 2 ^ 16.
Proof.
  intros Hc Hn. rewrite Z.shiftl_mul_pow2 by lia.
  assert (0 < 2 ^ n <= 2 ^ 8)
    by (split; [apply Z.pow_pos_nonneg; lia|apply Z.pow_le_mono_r; lia]).
  change (2 ^ 8) with 256 in *. change (2 ^ 16) with 65536. nia.
Qed.

Lemma refill_keeps_high B c n :
  0 <= B -> 0 <= c < 256 -> 0 <= n <= 8 ->
  Z.lor B (u32 (Z.shiftl c n)) / 2 ^ 16 = B / 2 ^ 16 /\
  0 <= Z.lor B (u32 (Z.shiftl c n)).
Proof.
  intros HB Hc Hn. pose proof (shiftl_byte_small c n Hc Hn) as Hs.
  rewrite u32_small by (change (2 ^ 32) with 4294967296;
                        change (2 ^ 16) with 65536 in Hs; lia).
  split.
  - rewrite <- !Z.shiftr_div_pow2, Z.shiftr_lor by lia.
    rewrite (Z.shiftr_div_pow2 (Z.shiftl c n)), Z.div_small by lia.
    apply Z.lor_0_r.
  - apply Z.lor_nonneg. lia.
Qed.

Lemma below_by_high x p : 0 <= x -> 0 < p -> x / 2 ^ 16 < p -> x < p * 2 ^ 16.
Proof.
  intros Hx Hp H. change (2 ^ 16) with 65536 in *.
  Z.to_euclidean_division_equations. lia.
Qed.

Lemma GetBit_high s :
  0 <= Bits s -> 0 <= Bitbuff s -> Bitbuff s / 2 ^ 16 < 2 ^ 15 ->
  fst (GetBit s) = 2 * (Bitbuff s / 2 ^ 16) + Z.b2z (Z.testbit (fst (GetBit s)) 0) /\
  0 <= Bitbuff (snd (GetBit s)) /\
  Bitbuff (snd (GetBit s)) / 2 ^ 16 = fst (GetBit s).
Proof.
  intros Hb H0 Hh.
  assert (Hword : forall X, 0 <= X -> X / 2 ^ 16 = Bitbuff s / 2 ^ 16 ->
            Z.shiftr X 15
              = 2 * (Bitbuff s / 2 ^ 16) + Z.b2z (Z.testbit (Z.shiftr X 15) 0) /\
            0 <= u32 (Z.shiftl X 1) /\
            u32 (Z.shiftl X 1) / 2 ^ 16 = Z.shiftr X 15).
  { intros X HX HXh. rewrite Z.bit0_mod, Z.shiftr_div_pow2 by lia.
    rewrite Z.shiftl_mul_pow2 by lia.
    pose proof (below_by_high X (2 ^ 15) HX ltac:(lia) ltac:(lia)) as Hlt.
    rewrite u32_small
      by (change (2 ^ 32) with 4294967296; change (2 ^ 15) with 32768 in *;
          change (2 ^ 16) with 65536 in *; change (2 ^ 1) with 2; lia).
    rewrite <- HXh.
    change (2 ^ 15) with 32768 in *. change (2 ^ 16) with 65536 in *.
    change (2 ^ 1) with 2.
    Z.to_euclidean_division_equations. lia. }
  destruct (Z.eq_dec (Bits s) 0) as [E0|E0].
  - rewrite (GetBit_refill s E0). cbn [fst snd Bitbuff set_Bitbuff].
    pose proof (GetChar_byte s) as Hc.
    destruct (refill_keeps_high (Bitbuff s) (fst (GetChar s)) 8 H0 Hc ltac:(lia))
      as [R1 R2].
    apply Hword; assumption.
  - rewrite (GetBit_buffered s E0). cbn [fst snd Bitbuff set_Bitbuff].
    apply Hword; [exact H0|reflexivity].
Qed.

Lemma lor_double i e :
  0 <= i -> Z.lor (2 * i) (2 * i + Z.b2z e) = 2 * i + Z.b2z e.
Proof.
  intros Hi. destruct e; cbn [Z.b2z].
  - replace (2 * i + 1) with (Z.lor (Z.shiftl i 1) 1)
      by (rewrite lor_shiftl_add by lia; change (2 ^ 1) with 2; lia).
    replace (2 * i) with (Z.shiftl i 1)
      by (rewrite Z.shiftl_mul_pow2 by lia; change (2 ^ 1) with 2; lia).
    rewrite Z.lor_assoc, Z.lor_diag. reflexivity.
  - rewrite Z.add_0_r. apply Z.lor_diag.
Qed.

(** *** The further bits *)

Lemma read_low_bits_stream n : forall i s,
  aligned s -> 0 <= Bitbuff s -> Bitbuff s / 2 ^ 16 = i ->
  0 <= i < 2 ^ (15 - Z.of_nat n) -> (n <= 15)%nat ->
  fst (read_low_bits n i s) = fold_bits (stream_bit s) 0 n i /\
  aligned (snd (read_low_bits n i s)) /\
  forall j, stream_bit (snd (read_low_bits n i s)) j = stream_bit s (n + j).
Proof.
  induction n as [|n IH]; intros i s Ha H0 Hh Hi Hn.
  - cbn [read_low_bits fold_bits fst snd Nat.add]. auto.
  - cbn [read_low_bits fold_bits].
    assert (Hp : 2 ^ (15 - Z.of_nat n) = 2 * 2 ^ (15 - Z.of_nat (S n))).
    { replace (15 - Z.of_nat n) with (Z.succ (15 - Z.of_nat (S n))) by lia.
      apply Z.pow_succ_r. lia. }
    assert (Hp15 : 2 ^ (15 - Z.of_nat (S n)) <= 2 ^ 15)
      by (apply Z.pow_le_mono_r; lia).
    destruct Ha as [Hb Hm].
    destruct (GetBit_high s ltac:(lia) H0 ltac:(lia)) as (G1 & G2 & G3).
    destruct (GetBit_next_bits s (conj Hb Hm)) as (N1 & N2 & N3).
    destruct (GetBit s) as [b s1]. cbn [fst snd] in *.
    rewrite N1, Hh in G1.
    rewrite (u32_small (Z.shiftl i 1))
      by (rewrite Z.shiftl_mul_pow2 by lia; change (2 ^ 1) with 2;
          change (2 ^ 32) with 4294967296; change (2 ^ 15) with 32768 in *; lia).
    rewrite Z.shiftl_mul_pow2 by lia. change (2 ^ 1) with 2.
    replace (i * 2) with (2 * i) by lia.
    rewrite G1, lor_double by lia.
    destruct (IH (2 * i + Z.b2z (stream_bit s 0)) s1 N2 G2
                ltac:(rewrite G3; exact G1)) as (I1 & I2 & I3).
    { destruct (stream_bit s 0); cbn [Z.b2z]; lia. }
    { lia. }
    split; [|split; [exact I2|]].
    + rewrite I1. apply (fold_bits_shift (stream_bit s) (stream_bit s1) 1).
      exact N3.
    + intros j. rewrite I3, N3. reflexivity.
Qed.

(** *** The first eight bits *)

Lemma GetByte_next_bits s :
  aligned s ->
  aligned (snd (GetByte s)) /\
  forall j, stream_bit (snd (GetByte s)) j = stream_bit s (8 + j).
Proof.
  intros Ha. destruct (GetByte_stream s Ha) as (H1 & _ & _ & H4 & _).
  split; [exact H1|]. intros j.
  destruct (fpi s) as [|b rest] eqn:Ef.
  - clear H1 H4. destruct Ha as [Hb Hm].
    assert (HB : forall i, 0 <= i < 16 - Bits s -> Z.testbit (Bitbuff s) i = false)
      by (intros i Hi; apply (low_bits_clear _ _ _ Hm Hi)).
    unfold stream_bit, bit_stream, pending.
    rewrite (GetByte_refill s ltac:(lia)). unfold GetChar. rewrite Ef.
    cbn [fst snd Bits Bitbuff fpi Eof set_Bits set_Bitbuff set_fpi set_Eof].
    destruct (Bits_cases (Bits s) Hb) as [E|[E|[E|[E|[E|[E|[E|E]]]]]]];
      rewrite E in *; concrete_nats; cbn [seq map app flat_map Nat.add];
      do 8 (destruct j as [|j]; [cbn [nth]; try reflexivity; bit_of_word HB|]);
      cbn [nth]; destruct j; reflexivity.
  - unfold stream_bit. rewrite H4 by discriminate. apply nth_skipn.
Qed.

Lemma GetByte_is_the_first_bits s :
  aligned s -> 0 <= Bitbuff s < 2 ^ 16 ->
  fst (GetByte s) = stream_value s 0 8.
Proof.
  intros Ha HB. destruct (GetByte_stream s Ha) as (_ & _ & H3 & _).
  pose proof (GetByte_of_16_bit_buffer s HB ltac:(destruct Ha; lia)) as Hr.
  unfold stream_value.
  rewrite <- (byte_of_its_bits (fst (GetByte s)) Hr) at 1.
  apply fold_bits_ext. intros j Hj. unfold stream_bit. cbv beta. apply H3. lia.
Qed.

Lemma GetByte_high s :
  aligned s -> 0 <= Bitbuff s < 2 ^ 16 ->
  0 <= Bitbuff (snd (GetByte s)) /\
  Bitbuff (snd (GetByte s)) / 2 ^ 16 = fst (GetByte s).
Proof.
  intros [Hb _] HB. rewrite (GetByte_refill s ltac:(lia)).
  cbn [fst snd Bitbuff set_Bitbuff].
  pose proof (GetChar_byte s) as Hc.
  pose proof (shiftl_byte_small (fst (GetChar s)) (8 - Bits s) Hc ltac:(lia)) as Hs.
  assert (HX : 0 <= Z.lor (Bitbuff s) (u32 (Z.shiftl (fst (GetChar s)) (8 - Bits s)))
               < 2 ^ 16).
  { apply (lor_range _ _ 16); [lia|exact HB|].
    rewrite u32_small; change (2 ^ 32) with 4294967296;
      change (2 ^ 16) with 65536 in *; lia. }
  set (X := Z.lor _ _) in *.
  rewrite Z.shiftl_mul_pow2, Z.shiftr_div_pow2 by lia.
  rewrite u32_small
    by (change (2 ^ 32) with 4294967296; change (2 ^ 16) with 65536 in *;
        change (2 ^ 8) with 256; lia).
  change (2 ^ 16) with 65536 in *. change (2 ^ 8) with 256.
  Z.to_euclidean_division_equations. lia.
Qed.

Lemma GetByte_above_16_bits s :
  aligned s -> 2 ^ 16 <= Bitbuff s -> 256 <= fst (GetByte s).
Proof.
  intros [Hb _] HB. rewrite (GetByte_refill s ltac:(lia)). cbn [fst].
  pose proof (GetChar_byte s) as Hc.
  destruct (refill_keeps_high (Bitbuff s) (fst (GetChar s)) (8 - Bits s)
              ltac:(lia) Hc ltac:(lia)) as [R1 R2].
  set (X := Z.lor _ _) in *.
  rewrite Z.shiftr_div_pow2 by lia.
  change (2 ^ 16) with 65536 in *. change (2 ^ 8) with 256.
  Z.to_euclidean_division_equations. lia.
Qed.

Lemma DecodePosition_stream (s : state) :
  aligned s ->
  (0 <= Bitbuff s < 2 ^ 16 ->
   let i := stream_value s 0 8 in
   let k := Z.to_nat (aget d_len (Z.shiftr i 4) - 1) in
   let d := Z.lor (Z.land (stream_value s 0 (8 + k)) 0x3F)
                  (Z.shiftl (aget d_code i) 6) in
   (1 <= k <= 6)%nat /\
   exists s', DecodePosition s = Done (d, s') /\ 0 <= d < SBSIZE /\
              aligned s' /\
              forall j, stream_bit s' j = stream_bit s (8 + k + j)) /\
  (2 ^ 16 <= Bitbuff s -> DecodePosition s = Undefined).
Proof.
  intros Ha. split.
  - intros HB i k d.
    pose proof (GetByte_of_16_bit_buffer s HB ltac:(destruct Ha; lia)) as Hr.
    pose proof (GetByte_is_the_first_bits s Ha HB) as Hi. fold i in Hi.
    destruct (GetByte_high s Ha HB) as [Hh0 Hh].
    destruct (GetByte_next_bits s Ha) as [Ha1 Hn].
    destruct (DecodePosition_unfolds s Hr) as (Hk & HD & Hd).
    rewrite Hi in Hk, HD, Hd, Hr, Hh. fold k in HD, Hd.
    assert (Hk6 : (1 <= k <= 6)%nat) by (unfold k; lia).
    assert (Hp : 2 ^ 9 <= 2 ^ (15 - Z.of_nat k)) by (apply Z.pow_le_mono_r; lia).
    change (2 ^ 9) with 512 in Hp.
    destruct (read_low_bits_stream k i (snd (GetByte s)) Ha1 Hh0 Hh
                ltac:(lia) ltac:(lia)) as (R1 & R2 & R3).
    assert (Hv : fst (read_low_bits k i (snd (GetByte s)))
                 = stream_value s 0 (8 + k)).
    { rewrite R1. unfold stream_value. rewrite fold_bits_app.
      fold (stream_value s 0 8). fold i.
      apply (fold_bits_shift (stream_bit s) _ 8). exact Hn. }
    rewrite Hv in HD, Hd.
    split; [exact Hk6|].
    exists (snd (read_low_bits k i (snd (GetByte s)))).
    split; [exact HD|]. split; [exact Hd|]. split; [exact R2|].
    intros j. rewrite R3, Hn, Nat.add_assoc. reflexivity.
  - intros HB. pose proof (GetByte_above_16_bits s Ha HB) as H.
    unfold DecodePosition. destruct (GetByte s) as [i s1]. cbn [fst] in H.
    apply Z.leb_le in H. rewrite H. reflexivity.
Qed.



(** ** [init_decompress] *)

Lemma list_as_nths (l : list Z) : forall n,
  length l = n -> l = map (fun i => nth i l 0) (seq 0 n).
Proof.
  intros n <-. induction l as [|x r IH]; [reflexivity|].
  cbn [length seq map nth]. f_equal.
  rewrite <- seq_shift, map_map. exact IH.
Qed.

Lemma init_tree_any t :
  alen (parent t) = TSIZE + N_CHAR -> alen (son t) = TSIZE ->
  alen (freq t) = TSIZE + 1 ->
  init_tree t = init_tree zero_tree.
Proof.
  destruct t as [p sn f]. unfold alen. cbn [parent son freq].
  intros Hp Hs Hf.
  rewrite (list_as_nths p (Z.to_nat (TSIZE + N_CHAR))) by lia.
  rewrite (list_as_nths sn (Z.to_nat TSIZE)) by lia.
  rewrite (list_as_nths f (Z.to_nat (TSIZE + 1))) by lia.
  vm_compute. reflexivity.
Qed.

Lemma map_const {A : Type} (v : Z) (l : list A) :
  map (fun _ => v) l = repeat v (length l).
Proof. induction l as [|x r IH]; [reflexivity|]. cbn [map length repeat]. now rewrite IH. Qed.

Lemma init_tree_symbols_check :
  (fun t => allz 0 (Z.to_nat N_CHAR)
     (fun c => (aget (parent t) (c + TSIZE) =? c) && (sym_freq t c =? 1)))
    (init_tree zero_tree) = true.
Proof. vm_compute. reflexivity. Qed.

Lemma init_tree_symbols c :
  0 <= c < N_CHAR ->
  aget (parent (init_tree zero_tree)) (c + TSIZE) = c /\
  sym_freq (init_tree zero_tree) c = 1.
Proof.
  intros Hc. pose proof init_tree_symbols_check as H.
  cbv beta in H. rewrite allz_spec in H.
  specialize (H c ltac:(unfold N_CHAR, THRESHOLD, LASIZE in *; lia)).
  apply andb_true_iff in H. destruct H as [H1 H2].
  apply Z.eqb_eq in H1, H2. split; assumption.
Qed.

(** X17. [init_decompress] sets the decompressor up whatever the globals
    held before: the Huffman tree is the initial tree, which satisfies the
    invariant of the tree, every symbol [c] having the leaf [c] with the
    frequency 1 and the root the frequency [N_CHAR]; the ring buffer is
    filled with spaces; the bit buffer is empty; [Advcomp] is 255 (0xFFFF
    cut to a byte). It does not reset [Eof], [GBstate] or the input. *)
Theorem init_decompress_resets s :
  alen (parent (huff s)) = TSIZE + N_CHAR -> alen (son (huff s)) = TSIZE ->
  alen (freq (huff s)) = TSIZE + 1 ->
  alen (ring_buff s) = SBSIZE + LASIZE - 1 ->
  let s' := init_decompress s in
  tree_ok (huff s') /\
  (forall c, 0 <= c < N_CHAR ->
     aget (parent (huff s')) (c + TSIZE) = c /\ sym_freq (huff s') c = 1) /\
  aget (freq (huff s')) ROOT = N_CHAR /\
  ring_buff s' = repeat 32 (Z.to_nat (SBSIZE + LASIZE - 1)) /\
  Bits s' = 0 /\ Bitbuff s' = 0 /\ Advcomp s' = 255 /\
  Eof s' = Eof s /\ GBstate s' = GBstate s /\ fpi s' = fpi s.
Proof.
  intros Hp Hs Hf Hr. cbv zeta.
  assert (Ht : huff (init_decompress s) = init_tree zero_tree)
    by (apply init_tree_any; assumption).
  rewrite Ht.
  split; [exact init_tree_ok|].
  split; [exact init_tree_symbols|].
  split; [vm_compute; reflexivity|].
  split.
  { unfold init_decompress.
    cbn [ring_buff set_GBr set_Bits set_Bitbuff set_Advcomp set_ring_buff set_huff].
    rewrite map_const. f_equal. unfold alen in Hr. lia. }
  repeat split.
Qed.

Lemma init_decompress_resets_witness :
  tree_ok (huff (init_decompress (initial_state [x01]))) /\
  Advcomp (init_decompress (initial_state [x01])) = 255.
Proof.
  destruct (init_decompress_resets (initial_state [x01])
              eq_refl eq_refl eq_refl eq_refl)
    as (H1 & _ & _ & _ & _ & _ & H7 & _).
  exact (conj H1 H7).
Defined.

(** ** [update] and the counts of the symbols *)

Lemma leaf_of_symbol d t y :
  tree_inv d t -> 0 <= y < N_CHAR ->
  forall x, 0 <= x < TSIZE ->
    (aget (parent t) (y + TSIZE) = x <-> aget (son t) x = y + TSIZE).
Proof.
  intros Hinv Hy x Hx. consts.
  destruct (inv_sym _ _ Hinv y Hy) as (Y1 & Y2). split.
  - intros <-. exact Y2.
  - intros E. destruct (inv_leaf _ _ Hinv x Hx ltac:(lia)) as (_ & L).
    rewrite E in L. exact L.
Qed.

Section ExchangeCounts.
Variable t : tree.
Variables c l k : Z.
Hypothesis Hinv : tree_inv (aget (parent t) c) t.
Hypothesis Hc : 0 <= c < ROOT.
Hypothesis Hl : c < l.
Hypothesis Hk : aget (freq t) c = k.
Hypothesis Hrun : forall x, c < x <= l -> aget (freq t) x = k - 1.

Lemma exchange_keeps_counts y :
  0 <= y < N_CHAR -> sym_freq (exchange c l k t) y = sym_freq t y.
Proof.
  intros Hy. unfold sym_freq. consts.
  pose proof (ex_l t c l k Hinv Hc Hl Hk Hrun) as Hl'.
  pose proof (leaf_of_symbol _ t y Hinv Hy) as Hleaf.
  destruct (inv_sym _ _ Hinv y Hy) as (Y1 & Y2).
  pose proof (ex_i t c l k Hinv Hc Hk) as Hi.
  pose proof (ex_j t c l k Hinv Hc Hl Hk Hrun) as Hj.
  destruct (Z.eq_dec (y + TSIZE) (aget (son t) c)) as [Ei|Ei].
  - rewrite Ei at 1.
    rewrite (ex_parent_i t c l k Hinv Hc Hl Hk Hrun).
    rewrite (ex_freq t c l k Hinv Hc Hl Hk Hrun), Z.eqb_refl.
    replace (aget (parent t) (y + TSIZE)) with c
      by (symmetry; apply Hleaf; [lia|congruence]).
    symmetry. exact Hk.
  - destruct (Z.eq_dec (y + TSIZE) (aget (son t) l)) as [Ej|Ej].
    + rewrite Ej at 1.
      rewrite (ex_parent_j t c l k Hinv Hc Hl Hk Hrun).
      rewrite (ex_freq t c l k Hinv Hc Hl Hk Hrun).
      destruct (c =? l) eqn:E; [apply Z.eqb_eq in E; lia|].
      rewrite Z.eqb_refl.
      replace (aget (parent t) (y + TSIZE)) with l
        by (symmetry; apply Hleaf; [lia|congruence]).
      symmetry. apply Hrun. lia.
    + rewrite (ex_parent_other t c l k Hinv Hc Hl Hk Hrun) by lia.
      rewrite (ex_freq t c l k Hinv Hc Hl Hk Hrun).
      destruct (aget (parent t) (y + TSIZE) =? l) eqn:E1.
      { apply Z.eqb_eq in E1. apply Hleaf in E1; [|lia]. congruence. }
      destruct (aget (parent t) (y + TSIZE) =? c) eqn:E2.
      { apply Z.eqb_eq in E2. apply Hleaf in E2; [|lia]. congruence. }
      reflexivity.
Qed.
End ExchangeCounts.

Lemma incr_counts t c d y :
  tree_inv d t -> 0 <= c < TSIZE -> 0 <= y < N_CHAR ->
  sym_freq (set_freq c (aget (freq t) c + 1) t) y
    = sym_freq t y + (if aget (parent t) (y + TSIZE) =? c then 1 else 0).
Proof.
  intros Hinv Hc Hy. unfold sym_freq.
  change (parent (set_freq c (aget (freq t) c + 1) t)) with (parent t).
  rewrite (incr_freq t c d Hinv Hc).
  destruct (aget (parent t) (y + TSIZE) =? c) eqn:E;
    [apply Z.eqb_eq in E; rewrite E|]; lia.
Qed.

Lemma bump_node_counts fuel c d t c1 t1 :
  tree_inv d t -> sorted t -> 0 <= c < TSIZE ->
  (d = -1 /\ TSIZE <= aget (son t) c) \/ (d = c /\ aget (son t) c < TSIZE) ->
  aget (freq t) ROOT < MAX_FREQ -> (Z.to_nat TSIZE <= fuel)%nat ->
  bump_node fuel c t = Some (c1, t1) ->
  forall y, 0 <= y < N_CHAR ->
    sym_freq t1 y
      = sym_freq t y + (if aget (parent t) (y + TSIZE) =? c then 1 else 0).
Proof.
  intros Hinv Hsorted Hc Hmode Hroot Hfuel Hb y Hy. consts.
  pose proof (sorted_le t Hsorted c ROOT ltac:(lia) ltac:(lia) ltac:(lia)) as Hcr.
  pose proof (inv_pos _ _ Hinv c Hc) as Hcpos.
  pose proof (incr_inv t c d Hinv Hc Hmode) as Hinv1.
  pose proof (incr_freq t c d Hinv Hc) as Hf1.
  pose proof (incr_counts t c d y Hinv Hc Hy) as Hcount.
  unfold bump_node in Hb. cbv zeta in Hb.
  rewrite (u32_small (aget (freq t) c + 1)) in Hb by lia.
  rewrite (u32_small (c + 1)) in Hb by lia.
  set (k := aget (freq t) c + 1) in *.
  set (t0 := set_freq c k t) in *.
  destruct (k >? aget (freq t0) (c + 1)) eqn:Etest.
  - assert (Hcr' : c < ROOT).
    { destruct (Z.eq_dec c ROOT) as [E|E]; [|lia].
      rewrite Hf1 in Etest.
      destruct (c + 1 =? c) eqn:E1; [apply Z.eqb_eq in E1; lia|].
      replace (c + 1) with TSIZE in Etest by lia.
      rewrite (inv_sentinel _ _ Hinv) in Etest. lia. }
    destruct (c =? ROOT) eqn:ER; [apply Z.eqb_eq in ER; lia|].
    assert (Hk1 : aget (freq t0) c = k) by (rewrite Hf1; now rewrite Z.eqb_refl).
    change (parent t) with (parent t0) in Hinv1.
    destruct (ex_p t0 c 0 k Hinv1 ltac:(lia) Hk1) as (P1 & P2 & P3 & P4).
    destruct (scan_up_spec (freq t0) k fuel (c + 1) (aget (parent t0) c))
      as (l1 & Hscan & Hl1 & Hk2 & Hbelow); try lia.
    { destruct (Z.eq_dec (aget (parent t0) c) (c + 1)) as [E|E]; [|lia].
      rewrite E in P4. lia. }
    rewrite Hscan in Hb. rewrite (u32_small (l1 - 1)) in Hb by lia.
    set (l := l1 - 1) in *.
    inversion Hb; subst c1 t1. clear Hb.
    assert (Hrun : forall x, c < x <= l -> aget (freq t0) x = k - 1).
    { intros x Hx.
      assert (aget (freq t0) x < k).
      { destruct (Z.eq_dec x (c + 1)) as [->|Hne]; [lia|]. apply Hbelow. lia. }
      pose proof (sorted_le t Hsorted c x ltac:(lia) ltac:(lia) ltac:(lia)).
      rewrite Hf1 in *. destruct (x =? c) eqn:E; [apply Z.eqb_eq in E; lia|].
      unfold k in *. lia. }
    assert (Hcl : c < l) by (unfold l; lia).
    rewrite (exchange_keeps_counts t0 c l k Hinv1 ltac:(lia) Hcl Hk1 Hrun y Hy).
    exact Hcount.
  - inversion Hb; subst c1 t1. exact Hcount.
Qed.

Lemma bump_counts fuel n : forall c d t t',
  tree_inv d t -> sorted t -> 0 <= c < TSIZE ->
  (d = -1 /\ TSIZE <= aget (son t) c) \/ (d = c /\ aget (son t) c < TSIZE) ->
  aget (freq t) ROOT < MAX_FREQ -> (Z.to_nat TSIZE <= fuel)%nat ->
  bump fuel n c t = Some t' ->
  forall y, 0 <= y < N_CHAR ->
    sym_freq t' y
      = sym_freq t y + (if aget (parent t) (y + TSIZE) =? c then 1 else 0).
Proof.
  induction n as [|n IH]; intros c d t t' Hinv Hsorted Hc Hmode Hroot Hfuel Hb y Hy;
    [discriminate|].
  cbn [bump] in Hb.
  destruct (bump_node_spec fuel c d t Hinv Hsorted Hc Hmode Hroot Hfuel)
    as (c1 & t1 & Hn & Hc1 & Hs1 & Hcase).
  pose proof (bump_node_counts fuel c d t c1 t1 Hinv Hsorted Hc Hmode Hroot
                Hfuel Hn y Hy) as Hcount.
  rewrite Hn in Hb. consts.
  destruct Hcase as [(E & Hinv1 & Hr)|(E & Hinv1 & Hr)].
  - rewrite E, (inv_root _ _ Hinv1) in Hb. cbn [Z.eqb] in Hb.
    inversion Hb; subst t'. exact Hcount.
  - destruct (inv_up _ _ Hinv1 c1 ltac:(lia)) as (U1 & U2 & U3).
    destruct (aget (parent t1) c1 =? 0) eqn:E0; [apply Z.eqb_eq in E0; lia|].
    rewrite (IH (aget (parent t1) c1) (aget (parent t1) c1) t1 t' Hinv1 Hs1
               ltac:(lia) ltac:(right; split; [reflexivity|exact U2])
               ltac:(lia) Hfuel Hb y Hy).
    rewrite Hcount.
    destruct (aget (parent t1) (y + TSIZE) =? aget (parent t1) c1) eqn:E1; [|lia].
    apply Z.eqb_eq in E1.
    destruct (inv_sym _ _ Hinv1 y Hy) as (Y1 & Y2).
    rewrite E1 in Y2. lia.
Qed.

Lemma same_leaf_same_symbol d t y c :
  tree_inv d t -> 0 <= y < N_CHAR -> 0 <= c < N_CHAR ->
  (aget (parent t) (y + TSIZE) =? aget (parent t) (c + TSIZE)) = (y =? c).
Proof.
  intros Hinv Hy Hc.
  destruct (inv_sym _ _ Hinv y Hy) as (_ & Y2).
  destruct (inv_sym _ _ Hinv c Hc) as (_ & C2).
  destruct (y =? c) eqn:E.
  - apply Z.eqb_eq in E. subst y. apply Z.eqb_refl.
  - apply Z.eqb_neq in E. apply Z.eqb_neq. intros H. rewrite H in Y2. lia.
Qed.

Lemma update_counts_below fuel c t :
  tree_ok t -> 0 <= c < N_CHAR -> aget (freq t) ROOT < MAX_FREQ ->
  (Z.to_nat TSIZE <= fuel)%nat ->
  exists t', update fuel c t = Some t' /\ tree_ok t' /\
    aget (freq t') ROOT = aget (freq t) ROOT + 1 /\
    forall y, 0 <= y < N_CHAR ->
      sym_freq t' y = sym_freq t y + (if y =? c then 1 else 0).
Proof.
  intros Hok Hc Hroot Hfuel.
  destruct (update_spec fuel c t Hok Hc Hroot Hfuel) as (t' & U1 & U2 & U3).
  exists t'. split; [exact U1|]. split; [exact U2|]. split; [exact U3|].
  intros y Hy. destruct Hok as (Hinv & Hsorted & _). consts.
  unfold update in U1.
  destruct (aget (freq t) ROOT =? MAX_FREQ) eqn:E; [apply Z.eqb_eq in E; lia|].
  destruct (inv_sym _ _ Hinv c Hc) as (Y1 & Y2).
  rewrite (bump_counts fuel fuel (aget (parent t) (c + TSIZE)) (-1) t t'
             Hinv Hsorted Y1 ltac:(left; split; [reflexivity|lia]) Hroot
             Hfuel U1 y Hy).
  rewrite (same_leaf_same_symbol _ t y c Hinv Hy Hc). reflexivity.
Qed.

(** X18. [update] counts: a call for the symbol [c] on a tree that
    satisfies the invariant ends, keeps the invariant, and leaves every
    symbol with the frequency it had (halved, rounding up, when the call
    starts with the root at [MAX_FREQ] and rebuilds the tree), plus one for
    [c] itself. *)
Theorem update_counts_the_symbol fuel c t :
  tree_ok t -> 0 <= c < N_CHAR -> (Z.to_nat TSIZE <= fuel)%nat ->
  exists t', update fuel c t = Some t' /\ tree_ok t' /\
    forall y, 0 <= y < N_CHAR ->
      sym_freq t' y
        = (if aget (freq t) ROOT =? MAX_FREQ
           then (sym_freq t y + 1) / 2 else sym_freq t y)
          + (if y =? c then 1 else 0).
Proof.
  intros Hok Hc Hfuel. consts.
  destruct (aget (freq t) ROOT =? MAX_FREQ) eqn:E.
  - destruct (rebuild_spec fuel t Hok Hfuel) as (t3 & R1 & R2 & R3 & R4 & R5).
    destruct (update_counts_below fuel c t3 R2 Hc ltac:(lia) Hfuel)
      as (t' & U1 & U2 & _ & U4).
    exists t'. split; [|split; [exact U2|]].
    + unfold update in *. rewrite E, R1.
      destruct (aget (freq t3) ROOT =? MAX_FREQ) eqn:E3;
        [apply Z.eqb_eq in E3; lia|exact U1].
    + intros y Hy. rewrite (U4 y Hy). unfold sym_freq at 1.
      destruct (R5 y Hy) as (_ & Hh). rewrite Hh. reflexivity.
  - apply Z.eqb_neq in E. destruct Hok as (Hinv & Hsorted & Hle).
    destruct (update_counts_below fuel c t (conj Hinv (conj Hsorted Hle)) Hc
                ltac:(lia) Hfuel) as (t' & U1 & U2 & _ & U4).
    exists t'. split; [exact U1|]. split; [exact U2|exact U4].
Qed.

Lemma update_counts_the_symbol_witness :
  exists t', update 627 65 (init_tree zero_tree) = Some t' /\ tree_ok t' /\
             sym_freq t' 65 = 2 /\ sym_freq t' 66 = 1.
Proof.
  destruct (update_counts_the_symbol 627 65 (init_tree zero_tree) init_tree_ok)
    as (t' & H1 & H2 & H3).
  - vm_compute. split; [discriminate|reflexivity].
  - vm_compute. lia.
  - exists t'. split; [exact H1|]. split; [exact H2|]. split.
    + exact (eq_trans (H3 65 ltac:(vm_compute; split; [discriminate|reflexivity]))
               eq_refl).
    + exact (eq_trans (H3 66 ltac:(vm_compute; split; [discriminate|reflexivity]))
               eq_refl).
Defined.

Lemma update_all_valid fuel cs : forall t,
  tree_ok t -> Forall (fun c => 0 <= c < N_CHAR) cs ->
  (Z.to_nat TSIZE <= fuel)%nat ->
  exists t', update_all fuel cs t = Some t' /\ tree_ok t'.
Proof.
  induction cs as [|c r IH]; intros t Hok Hcs Hfuel.
  - exists t. split; [reflexivity|exact Hok].
  - inversion Hcs as [|c' r' Hc Hr]; subst c' r'. cbn [update_all].
    destruct (update_ok fuel c t Hok Hc Hfuel) as (t1 & U1 & U2).
    rewrite U1. apply IH; assumption.
Qed.

(** X19. The invariant of the Huffman tree survives any sequence of
    symbols: starting from a tree that satisfies it (the tree of
    [init_decompress] does), the calls of [update] for a list of symbols
    below [N_CHAR] all end, rebuilds included, and leave a tree in which
    the nodes are sorted by frequency, the root holds the sum of the
    frequencies of the leaves, at most [MAX_FREQ], and every symbol has its
    own leaf. *)
Theorem updates_keep_the_tree fuel cs t :
  tree_ok t -> Forall (fun c => 0 <= c < N_CHAR) cs ->
  (Z.to_nat TSIZE <= fuel)%nat ->
  exists t', update_all fuel cs t = Some t' /\ tree_ok t' /\
    sorted t' /\ leaf_total t' = aget (freq t') ROOT /\
    aget (freq t') ROOT <= MAX_FREQ /\
    forall y, 0 <= y < N_CHAR ->
      0 <= aget (parent t') (y + TSIZE) < TSIZE /\
      aget (son t') (aget (parent t') (y + TSIZE)) = y + TSIZE.
Proof.
  intros Hok Hcs Hfuel.
  destruct (update_all_valid fuel cs t Hok Hcs Hfuel) as (t' & U1 & U2).
  exists t'. split; [exact U1|]. split; [exact U2|].
  destruct U2 as (Hinv & Hsorted & Hle).
  split; [exact Hsorted|]. split.
  - rewrite (inv_total _ _ Hinv). cbn. lia.
  - split; [exact Hle|]. intros y Hy. exact (inv_sym _ _ Hinv y Hy).
Qed.

Lemma updates_keep_the_tree_witness :
  exists t', update_all 627 [65; 66; 65] (init_tree zero_tree) = Some t' /\
             tree_ok t' /\ aget (freq t') ROOT <= MAX_FREQ.
Proof.
  destruct (updates_keep_the_tree 627 [65; 66; 65] (init_tree zero_tree)
              init_tree_ok)
    as (t' & H1 & H2 & _ & _ & H5 & _).
  - repeat constructor; vm_compute; discriminate.
  - vm_compute. lia.
  - exists t'. split; [exact H1|]. split; [exact H2|exact H5].
Defined.

Lemma update_all_counts fuel cs : forall t,
  tree_ok t -> Forall (fun c => 0 <= c < N_CHAR) cs ->
  aget (freq t) ROOT + Z.of_nat (length cs) <= MAX_FREQ ->
  (Z.to_nat TSIZE <= fuel)%nat ->
  exists t', update_all fuel cs t = Some t' /\
    aget (freq t') ROOT = aget (freq t) ROOT + Z.of_nat (length cs) /\
    forall y, 0 <= y < N_CHAR ->
      sym_freq t' y = sym_freq t y + occurrences cs y.
Proof.
  induction cs as [|c r IH]; intros t Hok Hcs Hlen Hfuel.
  - exists t. split; [reflexivity|]. cbn [length Z.of_nat].
    split; [lia|]. intros y Hy. unfold occurrences. cbn [count_occ]. lia.
  - inversion Hcs as [|c' r' Hc Hr]; subst c' r'. cbn [update_all length] in *.
    destruct (update_counts_below fuel c t Hok Hc ltac:(lia) Hfuel)
      as (t1 & U1 & U2 & U3 & U4).
    rewrite U1.
    destruct (IH t1 U2 Hr ltac:(lia) Hfuel) as (t' & A1 & A2 & A3).
    exists t'. split; [exact A1|]. split; [lia|].
    intros y Hy. rewrite (A3 y Hy), (U4 y Hy). unfold occurrences.
    cbn [count_occ].
    destruct (Z.eq_dec c y) as [->|Hne].
    + rewrite Z.eqb_refl. lia.
    + destruct (y =? c) eqn:E; [apply Z.eqb_eq in E; congruence|lia].
Qed.

(** X20. Until the first rebuild the tree counts the symbols it was given:
    after the calls of [update] for a list [cs] that does not take the root
    beyond [MAX_FREQ], the root has gained [length cs] and every symbol [y]
    has gained the number of its occurrences in [cs]. From the tree of
    [init_decompress] the frequency of [y] is one more than the number of
    its occurrences, for up to [MAX_FREQ - N_CHAR] symbols. *)
Theorem updates_count_occurrences fuel cs t :
  tree_ok t -> Forall (fun c => 0 <= c < N_CHAR) cs ->
  aget (freq t) ROOT + Z.of_nat (length cs) <= MAX_FREQ ->
  (Z.to_nat TSIZE <= fuel)%nat ->
  exists t', update_all fuel cs t = Some t' /\
    aget (freq t') ROOT = aget (freq t) ROOT + Z.of_nat (length cs) /\
    (forall y, 0 <= y < N_CHAR ->
       sym_freq t' y = sym_freq t y + occurrences cs y) /\
    (t = init_tree zero_tree ->
     forall y, 0 <= y < N_CHAR -> sym_freq t' y = 1 + occurrences cs y).
Proof.
  intros Hok Hcs Hlen Hfuel.
  destruct (update_all_counts fuel cs t Hok Hcs Hlen Hfuel) as (t' & A1 & A2 & A3).
  exists t'. split; [exact A1|]. split; [exact A2|]. split; [exact A3|].
  intros -> y Hy. rewrite (A3 y Hy).
  destruct (init_tree_symbols y Hy) as (_ & H). rewrite H. reflexivity.
Qed.

Lemma updates_count_occurrences_witness :
  exists t', update_all 627 [65; 66; 65] (init_tree zero_tree) = Some t' /\
             sym_freq t' 65 = 3 /\ aget (freq t') ROOT = 317.
Proof.
  destruct (updates_count_occurrences 627 [65; 66; 65] (init_tree zero_tree)
              init_tree_ok)
    as (t' & H1 & H2 & _ & H4).
  - repeat constructor; vm_compute; discriminate.
  - vm_compute. discriminate.
  - vm_compute. lia.
  - exists t'. split; [exact H1|]. split.
    + exact (eq_trans (H4 eq_refl 65
                         ltac:(vm_compute; split; [discriminate|reflexivity]))
               eq_refl).
    + exact (eq_trans H2 ltac:(vm_compute; reflexivity)).
Defined.

(** ** [fopen_compat] (file.h) *)

Lemma mode_flag_cases mode c :
  (strchr mode c = true /\ mode_flag mode c = String c EmptyString) \/
  (strchr mode c = false /\ mode_flag mode c = EmptyString).
Proof. unfold mode_flag. destruct (strchr mode c); [left|right]; split; reflexivity. Qed.

(** X21. [fopen_compat] rebuilds the mode string from the characters r, w,
    b and + it finds in the mode it is given: the result holds exactly
    those of the four that occur in the mode, and it is a subsequence of
    rwb+, so they stand in this order and each at most once. Every other
    character is dropped, the a of the append modes too. A mode that holds
    all four overruns the four bytes of [new_mode]; in every other case the
    result is a fixed point, so applying the function twice changes nothing
    more. *)
Theorem fopen_compat_mode_normalises mode :
  (fopen_compat_mode mode = None <->
   strchr mode "r" && strchr mode "w" && strchr mode "b" && strchr mode "+"
     = true) /\
  (forall m, fopen_compat_mode mode = Some m ->
     fopen_compat_mode m = Some m /\
     subsequence m "rwb+" = true /\
     forall c, c <> zero -> strchr m c = strchr mode c && is_mode_flag c).
Proof.
  unfold fopen_compat_mode. cbv zeta.
  destruct (mode_flag_cases mode "r") as [[Hr ->]|[Hr ->]];
  destruct (mode_flag_cases mode "w") as [[Hw ->]|[Hw ->]];
  destruct (mode_flag_cases mode "b") as [[Hb ->]|[Hb ->]];
  destruct (mode_flag_cases mode "+") as [[Hp ->]|[Hp ->]];
  rewrite Hr, Hw, Hb, Hp; cbn [append String.length Nat.ltb Nat.leb andb];
  (split; [split; intros H; first [reflexivity | discriminate]|]);
  intros m Hm; try discriminate; inversion Hm; subst m;
  (split; [reflexivity|]); (split; [reflexivity|]);
  intros c Hc; unfold is_mode_flag; cbn [strchr];
  repeat match goal with
         | |- context [Ascii.eqb ?a ?b] =>
             lazymatch a with
             | c => fail
             | _ => lazymatch b with
                    | c => destruct (Ascii.eqb_spec a b) as [<-|?]
                    | _ => change (Ascii.eqb a b) with false
                    end
             end
         end;
  cbn [Ascii.eqb Bool.eqb andb orb];
  rewrite ?Hr, ?Hw, ?Hb, ?Hp; try reflexivity;
  repeat match goal with
         | |- context [Ascii.eqb c ?b] =>
             destruct (Ascii.eqb_spec c b) as [->|?]; try congruence
         end;
  rewrite ?Hr, ?Hw, ?Hb, ?Hp; cbn [andb orb]; rewrite ?andb_false_r; reflexivity.
Qed.

Lemma fopen_compat_mode_normalises_witness :
  fopen_compat_mode "rb+" = Some "rb+"%string /\
  subsequence "rb+" "rwb+" = true /\
  strchr "rb+" "b" = strchr "r+b" "b" && is_mode_flag "b".
Proof.
  destruct (proj2 (fopen_compat_mode_normalises "r+b") "rb+"%string eq_refl)
    as (H1 & H2 & H3).
  split; [exact H1|]. split; [exact H2|]. apply H3. discriminate.
Defined.
